(** * The hash router of the portfolio site (js/router.js)

    A shallow embedding of the [Router] class: the route table, the
    navigation controller with its guards and history list, and the fuzzy
    route matcher with its edit-distance table.

    Conventions of the embedding.
    - A JavaScript string is a [string]: a sequence of 8-bit code units, read
      as the Latin-1 range of JavaScript's UTF-16 code units.
    - A JavaScript [Map] is an association list in insertion order
      ([findSimilarRoute] iterates the keys in that order).
    - An array is a list; an indexed write at the end of the list extends it.
    - [calculateSimilarity] yields a quotient of two small integers; it is
      kept exact, in [Q]. The comparisons of the source ([>] against another
      such quotient or against [0.6]) agree with the exact ones for every
      string length below 2^26.
    - Callbacks (route handlers, guards, listeners) and the browser are the
      environment: a callback is named by an identifier and the environment
      says what each call returns or throws; each browser operation either
      happens, and is recorded in a trace, or throws.  Callbacks do not
      write the router's fields.
    - [async]/[await]: a call runs to completion; an awaited callback that
      rejects is one that throws. *)

From Stdlib Require Import Bool Arith List String Ascii ZArith QArith Lia.
Import ListNotations.
Local Open Scope string_scope.
Local Open Scope nat_scope.

(** ** Strings *)

Module JsString.

(** [String.prototype.toLowerCase] on the Latin-1 range: A-Z, and the
    accented capitals U+00C0-U+00DE without the multiplication sign. *)
Definition lower_char (c : ascii) : ascii :=
  let n := nat_of_ascii c in
  if ((65 <=? n) && (n <=? 90))
     || ((192 <=? n) && (n <=? 222) && negb (n =? 215))
  then ascii_of_nat (n + 32)
  else c.

Fixpoint toLowerCase (s : string) : string :=
  match s with
  | EmptyString => EmptyString
  | String c r => String (lower_char c) (toLowerCase r)
  end.

(** White space of [trim] in the Latin-1 range: TAB, LF, VT, FF, CR,
    space and the no-break space. *)
Definition is_space (c : ascii) : bool :=
  let n := nat_of_ascii c in
  ((9 <=? n) && (n <=? 13)) || (n =? 32) || (n =? 160).

Fixpoint trimStart (s : string) : string :=
  match s with
  | EmptyString => EmptyString
  | String c r => if is_space c then trimStart r else s
  end.

Fixpoint trimEnd (s : string) : string :=
  match s with
  | EmptyString => EmptyString
  | String c r =>
      match trimEnd r with
      | EmptyString => if is_space c then EmptyString else String c EmptyString
      | r' => String c r'
      end
  end.

Definition trim (s : string) : string := trimEnd (trimStart s).

(** [s.charAt(i)]: the one-character string at [i], or the empty string
    out of range. *)
Definition charAt (s : string) (i : nat) : string :=
  match String.get i s with
  | Some c => String c EmptyString
  | None => EmptyString
  end.

(** A string is falsy exactly when it is empty. *)
Definition truthy (s : string) : bool :=
  match s with EmptyString => false | _ => true end.

End JsString.
Import JsString.

(** ** The fragment of a URL

    What the URL parser makes of the text after "#" at the end of the URL
    given to [pushState], and what [location.hash] then reads. *)

Module Url.

(** A digit of upper-case hexadecimal. *)
Definition hex_digit (n : nat) : ascii :=
  ascii_of_nat (if n <? 10 then 48 + n else 55 + n).

(** A byte, percent-encoded: "%" and two digits. *)
Definition percent_byte (n : nat) : string :=
  String "%" (String (hex_digit (n / 16)) (String (hex_digit (n mod 16)) EmptyString)).

(** The fragment percent-encode set on the Latin-1 range: the C0 controls,
    the space, the double quote, [<], [>], the back quote, and everything
    above [~]. *)
Definition in_fragment_set (n : nat) : bool :=
  (n <=? 32) || (126 <? n) || (n =? 34) || (n =? 60) || (n =? 62) || (n =? 96).

(** One code unit of the fragment: as it is, or the percent-encoded bytes of
    its UTF-8 form (one byte below U+0080, two from there to U+00FF). *)
Definition encode_char (c : ascii) : string :=
  let n := nat_of_ascii c in
  if in_fragment_set n
  then if n <? 128 then percent_byte n
       else percent_byte (192 + n / 64) ++ percent_byte (128 + n mod 64)
  else String c EmptyString.

Fixpoint encode (s : string) : string :=
  match s with
  | EmptyString => EmptyString
  | String c r => encode_char c ++ encode r
  end.

(** A C0 control or the space. *)
Definition c0_or_space (c : ascii) : bool := nat_of_ascii c <=? 32.

(** TAB, LF or CR. *)
Definition tab_or_newline (c : ascii) : bool :=
  let n := nat_of_ascii c in (n =? 9) || (n =? 10) || (n =? 13).

(** The input without the C0 controls and spaces at its end. *)
Fixpoint strip_end (s : string) : string :=
  match s with
  | EmptyString => EmptyString
  | String c r =>
      match strip_end r with
      | EmptyString => if c0_or_space c then EmptyString else String c EmptyString
      | String c' r' => String c (String c' r')
      end
  end.

(** The input without its tabs and newlines. *)
Fixpoint remove_tabs (s : string) : string :=
  match s with
  | EmptyString => EmptyString
  | String c r => if tab_or_newline c then remove_tabs r else String c (remove_tabs r)
  end.

(** The fragment of a URL that ends with "#" and [p]. *)
Definition fragmentOf (p : string) : string := encode (remove_tabs (strip_end p)).

(** [location.hash]: empty for an empty fragment, else "#" and the
    fragment. *)
Definition hashOf (fragment : string) : string :=
  match fragment with
  | EmptyString => EmptyString
  | _ => String "#" fragment
  end.

End Url.

(** ** Arrays *)

Module JsArray.

(** [a[i] = v]. Inside the array the cell is overwritten; at its end the
    array grows by one; further out the gap is filled with [hole]. *)
Fixpoint set {A} (hole : A) (a : list A) (i : nat) (v : A) : list A :=
  match i, a with
  | 0, [] => [v]
  | 0, _ :: t => v :: t
  | S i', [] => hole :: set hole [] i' v
  | S i', x :: t => x :: set hole t i' v
  end.

(** [for (let i = lo; i <= hi; i++) body]: the indexes in order. *)
Definition range (lo hi : nat) : list nat := seq lo (S hi - lo).

Definition for_range {S} (lo hi : nat) (body : S -> nat -> S) (init : S) : S :=
  fold_left body (range lo hi) init.

End JsArray.

(** ** The fuzzy matcher *)

Module Fuzzy.

Definition matrix := list (list nat).

Definition mget (m : matrix) (i j : nat) : nat := nth j (nth i m []) 0.

(** [matrix[i][j] = v] *)
Definition mset (m : matrix) (i j : nat) (v : nat) : matrix :=
  JsArray.set [] m i (JsArray.set 0 (nth i m []) j v).

(** [Math.min] of three numbers. *)
Definition min3 (a b c : nat) : nat := Nat.min a (Nat.min b c).

(** The body of the inner loop of [calculateEditDistance]. *)
Definition cell (str1 str2 : string) (i : nat) (m : matrix) (j : nat) : matrix :=
  if String.eqb (charAt str2 (i - 1)) (charAt str1 (j - 1))
  then mset m i j (mget m (i - 1) (j - 1))
  else mset m i j (min3 (mget m (i - 1) (j - 1) + 1)
                        (mget m i (j - 1) + 1)
                        (mget m (i - 1) j + 1)).

Definition calculateEditDistance (str1 str2 : string) : nat :=
  let matrix0 : matrix :=
    JsArray.for_range 0 (String.length str2)
      (fun m i => JsArray.set [] m i [i]) [] in
  let matrix1 :=
    JsArray.for_range 0 (String.length str1)
      (fun m j => mset m 0 j j) matrix0 in
  let matrix2 :=
    JsArray.for_range 1 (String.length str2)
      (fun m i => JsArray.for_range 1 (String.length str1) (cell str1 str2 i) m)
      matrix1 in
  mget matrix2 (String.length str2) (String.length str1).

(** [0.6], the redirect threshold. *)
Definition threshold : Q := 6 # 10.

Definition Qgtb (x y : Q) : bool := negb (Qle_bool x y).

Definition calculateSimilarity (str1 str2 : string) : Q :=
  let longer := if String.length str2 <? String.length str1 then str1 else str2 in
  let shorter := if String.length str2 <? String.length str1 then str2 else str1 in
  if String.length longer =? 0 then 1%Q
  else
    let editDistance := calculateEditDistance longer shorter in
    ((inject_Z (Z.of_nat (String.length longer))
      - inject_Z (Z.of_nat editDistance))
     / inject_Z (Z.of_nat (String.length longer)))%Q.

(** The [forEach] of [findSimilarRoute] over the keys of the route map,
    with its two accumulators. *)
Definition better (path : string) (acc : option string * Q) (route : string)
  : option string * Q :=
  let '(bestMatch, bestScore) := acc in
  let score := calculateSimilarity path route in
  if Qgtb score bestScore && Qgtb score threshold
  then (Some route, score)
  else (bestMatch, bestScore).

Definition findSimilarRouteIn (keys : list string) (path : string) : option string :=
  fst (fold_left (better path) keys (None, 0%Q)).

(** *** The table the loops fill, as a recurrence

    [lev str1 str2 i j] is what [matrix[i][j]] holds at the end: the
    distance between the first [i] characters of [str2] and the first [j]
    of [str1]. *)
Fixpoint lev (str1 str2 : string) (i : nat) : nat -> nat :=
  match i with
  | 0 => fun j => j
  | S i' =>
      fix row (j : nat) : nat :=
        match j with
        | 0 => S i'
        | S j' =>
            if String.eqb (charAt str2 i') (charAt str1 j')
            then lev str1 str2 i' j'
            else min3 (lev str1 str2 i' j' + 1)
                      (row j' + 1)
                      (lev str1 str2 i' (S j') + 1)
        end
  end.

(** The matrix in the middle of the loops: rows [0..i-1] complete, row [i]
    filled up to column [k-1], the rows below still as the first loop left
    them. *)
Definition filled (str1 str2 : string) (r k : nat) : list nat :=
  map (lev str1 str2 r) (seq 0 k).

Definition shape (str1 str2 : string) (i k : nat) : matrix :=
  (map (fun r => filled str1 str2 r (S (String.length str1))) (seq 0 i)
   ++ filled str1 str2 i k
   :: map (fun r => [r]) (seq (S i) (String.length str2 - i)))%list.

End Fuzzy.

(** ** JavaScript values and completions *)

Module Js.

(** What a callback or [navigate] hands back, as far as the router tells
    the values apart: it only ever tests [=== false]. *)
Inductive value := VFalse | VTrue | VUndefined.

Definition is_false (v : value) : bool :=
  match v with VFalse => true | _ => false end.

(** A [path] argument: the router is called with strings, and with [null]
    or [undefined] when a caller has no path. *)
Inductive pathArg := PNull | PUndefined | PString (s : string).

Definition callback := nat.

Inductive exn :=
| TypeError                       (* a property read on null/undefined *)
| RangeError                      (* call stack exhausted *)
| InvalidRoute                    (* the Error thrown by addRoute *)
| Raised (who : callback)         (* thrown by a callback *)
| DomException (op : nat).        (* thrown by a browser operation *)

Inductive completion (A : Type) :=
| Normal (a : A)
| Throw (e : exn).
Arguments Normal {A} a.
Arguments Throw {A} e.

End Js.
Import Js.

(** ** An insertion-ordered map with string keys (JavaScript's [Map]) *)

Module StrMap.

Definition t (V : Type) := list (string * V).

Fixpoint get {V} (m : t V) (k : string) : option V :=
  match m with
  | [] => None
  | (k', v) :: r => if String.eqb k' k then Some v else get r k
  end.

Definition has {V} (m : t V) (k : string) : bool :=
  match get m k with Some _ => true | None => false end.

(** [m.set(k, v)]: an existing key keeps its place, a new one goes last. *)
Fixpoint set {V} (m : t V) (k : string) (v : V) : t V :=
  match m with
  | [] => [(k, v)]
  | (k', v') :: r =>
      if String.eqb k' k then (k', v) :: r else (k', v') :: set r k v
  end.

(** [m.delete(k)] *)
Fixpoint delete {V} (m : t V) (k : string) : t V :=
  match m with
  | [] => []
  | (k', v') :: r => if String.eqb k' k then r else (k', v') :: delete r k
  end.

Definition keys {V} (m : t V) : list string := map fst m.

End StrMap.

(** ** The router's data *)

Record Route := mkRoute {
  path : string;
  handler : callback;
  title : string;
  meta : list (string * string);
  beforeEnter : option callback;
  afterEnter : option callback;
  data : list (string * string);
  cache : bool;
  transition : string
}.

(** The [options] object of [addRoute]; [None] is an absent property. *)
Record RouteOptions := mkRouteOptions {
  o_title : option string;
  o_meta : option (list (string * string));
  o_beforeEnter : option callback;
  o_afterEnter : option callback;
  o_data : option (list (string * string));
  o_cache : option bool;
  o_transition : option string
}.

Definition noRouteOptions : RouteOptions :=
  mkRouteOptions None None None None None None None.

(** The [options] object of [navigate]: the properties it reads, as their
    truthiness. *)
Record NavOptions := mkNavOptions {
  force : bool;
  fromHashChange : bool;
  skipTransition : bool;
  skipScroll : bool
}.

Definition noOptions : NavOptions := mkNavOptions false false false false.

Record Config := mkConfig {
  hashPrefix : string;
  defaultRoute : string;
  scrollOffset : nat;
  animationDuration : nat;
  enableTransitions : bool;
  enableAnalytics : bool
}.

Definition defaultConfig : Config :=
  mkConfig "#" "home" 70 600 true false.

Record Listeners := mkListeners {
  beforeRoute : list callback;
  afterRoute : list callback;
  routeError : list callback
}.

Record HistoryEntry := mkEntry {
  h_path : string;
  h_route : string;          (* the route's title *)
  h_timestamp : Z
}.

Record Metric := mkMetric {
  m_duration : Z;
  m_timestamp : Z;
  m_count : nat
}.

Record Router := mkRouter {
  routes : StrMap.t Route;
  currentRoute : option string;
  previousRoute : option string;
  isNavigating : bool;
  config : Config;
  listeners : Listeners;
  history : list HistoryEntry;
  maxHistoryLength : nat;
  navigationMetrics : StrMap.t Metric
}.

(** [new Router()] *)
Definition newRouter (cfg : Config) : Router :=
  mkRouter [] None None false cfg (mkListeners [] [] []) [] 50 [].

(** ** The environment: callbacks, browser, clock *)

(** The arguments a callback is called with. *)
Inductive callArgs :=
| ListenerArgs (path : string) (route : Route) (other : option string)
| GuardArgs (route : Route)
| HandlerArgs (route : Route)
| ErrorArgs (type : string) (error : exn) (context : pathArg).

(** The payload of a dispatched event. *)
Inductive detail :=
| NoDetail
| Navigated (origin_path : option string) (target_path : string)
| PageView (path title : string)
| ErrorData (type : string) (error : exn) (context : pathArg).

(** Operations on the browser. The router's helpers that only write the
    document are one operation each. *)
Inductive browserOp :=
| PushState (path url : string)                    (* window.history.pushState *)
| Transition (style : string) (duration : nat)     (* handleTransition *)
| PageMeta (route : Route)                         (* updatePageMeta *)
| NavigationState (path : string)                  (* updateNavigationState *)
| ScrollToSection (path : string) (offset : nat)   (* scrollToSection *)
| Gtag (title : string)                            (* the analytics call of trackPageView *)
| Dispatch (event : string) (d : detail)           (* document.dispatchEvent *)
| HistoryBack                                      (* window.history.back *)
| HistoryForward                                   (* window.history.forward *)
| SetupListeners.                                  (* the addEventListener calls of init *)

Inductive message :=
| WarnInProgress
| WarnNotFound (path : pathArg)
| WarnNotFoundRedirect (path : pathArg)
| LogSimilar (route : string)
| LogAlreadyOnTarget
| LogCompleted (path : string)
| LogRouteAdded (path : string)
| LogRouteRemoved (path : string)
| LogMetric (path : string) (duration : Z)
| LogInit
| LogReady
| LogCleanup
| ErrNavigation (e : exn)
| ErrHandler (e : exn)
| ErrGuard (e : exn)
| ErrBeforeListener (e : exn)
| ErrAfterListener (e : exn)
| ErrErrorListener (e : exn)
| ErrInit (e : exn).

(** What the run leaves behind in the world, newest first. *)
Inductive event :=
| Console (m : message)
| Called (f : callback) (a : callArgs)
| Did (op : browserOp).

Record Env := mkEnv {
  call : callback -> callArgs -> completion value;   (* what a callback does *)
  fails : browserOp -> option nat;                  (* the operations that throw *)
  clock : nat -> Z;                                 (* the n-th reading of the clock *)
  gtagDefined : bool;                               (* typeof gtag !== 'undefined' *)
  lengthAfterPush : nat -> nat -> nat
    (* window.history.length after a pushState, by the clock readings so far
       and the length before: the entries after the current one are dropped,
       so it depends on where in its history the browser stands *)
}.

Record Location := mkLocation {
  origin : string;
  pathname : string;
  search : string;
  hash : string               (* empty, or "#" and the fragment *)
}.

(** [location.href]. (A URL whose fragment is empty keeps a bare "#" at its
    end, which [hash] does not show and this sum therefore lacks.) *)
Definition href (l : Location) : string :=
  origin l ++ pathname l ++ search l ++ hash l.

Record State := mkState {
  router : Router;
  location : Location;
  entries : nat;              (* window.history.length *)
  ticks : nat;                (* clock readings so far *)
  trace : list event
}.

Definition initialState (cfg : Config) (loc : Location) (n : nat) : State :=
  mkState (newRouter cfg) loc n 0 [].

(** ** The monad of router code: state, and exceptions that keep the state *)

Module Run.

Definition M (A : Type) : Type := State -> completion A * State.

Definition ret {A} (a : A) : M A := fun s => (Normal a, s).

Definition bind {A B} (c : M A) (k : A -> M B) : M B :=
  fun s =>
    match c s with
    | (Normal a, s') => k a s'
    | (Throw e, s') => (Throw e, s')
    end.

Definition throw {A} (e : exn) : M A := fun s => (Throw e, s).

(** [try { c } catch (e) { h e }] *)
Definition try_catch {A} (c : M A) (h : exn -> M A) : M A :=
  fun s =>
    match c s with
    | (Normal a, s') => (Normal a, s')
    | (Throw e, s') => h e s'
    end.

(** [try { c } finally { f }]: [f] runs on every way out of [c]; the
    completion is that of [c] unless [f] throws. *)
Definition try_finally {A} (c : M A) (f : M unit) : M A :=
  fun s =>
    let (r, s') := c s in
    match f s' with
    | (Normal _, s'') => (r, s'')
    | (Throw e, s'') => (Throw e, s'')
    end.

(** A promise nobody awaits: its rejection does not reach the caller. *)
Definition detached {A} (c : M A) : M unit :=
  fun s => (Normal tt, snd (c s)).

Definition read {A} (f : State -> A) : M A := fun s => (Normal (f s), s).

Definition update (f : State -> State) : M unit := fun s => (Normal tt, f s).

Definition when (b : bool) (c : M unit) : M unit := if b then c else ret tt.

End Run.
Import Run.

Declare Scope run_scope.
Delimit Scope run_scope with run.
Notation "x <- c ;; k" := (bind c (fun x => k))
  (at level 61, c at next level, right associativity) : run_scope.
Notation "c ;; k" := (bind c (fun _ => k))
  (at level 61, right associativity) : run_scope.
Local Open Scope run_scope.

(** ** Field updates *)

Definition with_routes (v : StrMap.t Route) (r : Router) : Router :=
  mkRouter v (currentRoute r) (previousRoute r) (isNavigating r) (config r)
           (listeners r) (history r) (maxHistoryLength r) (navigationMetrics r).

Definition with_currentRoute (v : option string) (r : Router) : Router :=
  mkRouter (routes r) v (previousRoute r) (isNavigating r) (config r)
           (listeners r) (history r) (maxHistoryLength r) (navigationMetrics r).

Definition with_previousRoute (v : option string) (r : Router) : Router :=
  mkRouter (routes r) (currentRoute r) v (isNavigating r) (config r)
           (listeners r) (history r) (maxHistoryLength r) (navigationMetrics r).

Definition with_isNavigating (v : bool) (r : Router) : Router :=
  mkRouter (routes r) (currentRoute r) (previousRoute r) v (config r)
           (listeners r) (history r) (maxHistoryLength r) (navigationMetrics r).

Definition with_listeners (v : Listeners) (r : Router) : Router :=
  mkRouter (routes r) (currentRoute r) (previousRoute r) (isNavigating r) (config r)
           v (history r) (maxHistoryLength r) (navigationMetrics r).

Definition with_history (v : list HistoryEntry) (r : Router) : Router :=
  mkRouter (routes r) (currentRoute r) (previousRoute r) (isNavigating r) (config r)
           (listeners r) v (maxHistoryLength r) (navigationMetrics r).

Definition with_navigationMetrics (v : StrMap.t Metric) (r : Router) : Router :=
  mkRouter (routes r) (currentRoute r) (previousRoute r) (isNavigating r) (config r)
           (listeners r) (history r) (maxHistoryLength r) v.

Definition on_router (f : Router -> Router) (s : State) : State :=
  mkState (f (router s)) (location s) (entries s) (ticks s) (trace s).

Definition emit (e : event) (s : State) : State :=
  mkState (router s) (location s) (entries s) (ticks s) (e :: trace s).

Definition this {A} (f : Router -> A) : M A := read (fun s => f (router s)).

Definition assign (f : Router -> Router) : M unit := update (on_router f).

(** ** Talking to the environment *)

Section Environment.

Variable E : Env.

Definition console (m : message) : M unit := update (emit (Console m)).

(** Calling (and awaiting) a callback. *)
Definition invoke (f : callback) (a : callArgs) : M value :=
  fun s => (call E f a, emit (Called f a) s).

(** A browser operation: it throws, or it happens. *)
Definition perform (op : browserOp) : M unit :=
  fun s =>
    match fails E op with
    | Some n => (Throw (DomException n), s)
    | None => (Normal tt, emit (Did op) s)
    end.

(** [Date.now()] and [performance.now()] *)
Definition now : M Z :=
  fun s =>
    (Normal (clock E (ticks s)),
     mkState (router s) (location s) (entries s) (S (ticks s)) (trace s)).

End Environment.

(** ** The methods of [Router] *)

Section Methods.

Variable E : Env.

(** *** Utility methods *)

Definition normalizePath (cfg : Config) (p : pathArg) : string :=
  match p with
  | PString s => if truthy s then trim (toLowerCase s) else defaultRoute cfg
  | PNull | PUndefined => defaultRoute cfg
  end.

(** [toUpperCase] of one character: a-z and the accented small letters
    whose capital is in the Latin-1 range (the sharp s, the micro sign and
    the y with diaeresis, whose capitals lie outside it, stay as they
    are). *)
Definition upper_char (c : ascii) : ascii :=
  let n := nat_of_ascii c in
  if ((97 <=? n) && (n <=? 122))
     || ((224 <=? n) && (n <=? 254) && negb (n =? 247))
  then ascii_of_nat (n - 32)
  else c.

Fixpoint dashes_to_spaces (s : string) : string :=
  match s with
  | EmptyString => EmptyString
  | String c r =>
      String (if (Ascii.eqb c "-" || Ascii.eqb c "_")%bool then " "%char else c)
             (dashes_to_spaces r)
  end.

Definition formatTitle (p : string) : string :=
  match p with
  | EmptyString => EmptyString
  | String c r => String (upper_char c) (dashes_to_spaces r)
  end.

(** [hash.substring(1)] *)
Definition substring1 (s : string) : string :=
  match s with
  | EmptyString => EmptyString
  | String _ r => r
  end.

(** [getPathFromURL]: the fragment, or [null]. *)
Definition getPathFromURL (l : Location) : pathArg :=
  if truthy (hash l) then PString (substring1 (hash l)) else PNull.

(** [p !== this.currentRoute] *)
Definition differs (p : pathArg) (current : option string) : bool :=
  match p, current with
  | PString a, Some b => negb (String.eqb a b)
  | PNull, None => false
  | _, _ => true
  end.

(** [p || this.config.defaultRoute] *)
Definition or_default (cfg : Config) (p : pathArg) : pathArg :=
  match p with
  | PString s => if truthy s then p else PString (defaultRoute cfg)
  | PNull | PUndefined => PString (defaultRoute cfg)
  end.

Definition dispatchEvent (name : string) (d : detail) : M unit :=
  perform E (Dispatch name d).

(** *** The route table *)

Definition or_else {A} (o : option A) (d : A) : A :=
  match o with Some a => a | None => d end.

Definition addRoute (p : pathArg) (h : option callback) (options : RouteOptions)
  : M unit :=
  match p, h with
  | PString p, Some h =>
      let route :=
        mkRoute (toLowerCase p) h
                (match o_title options with
                 | Some t => if truthy t then t else formatTitle p
                 | None => formatTitle p
                 end)
                (or_else (o_meta options) [])
                (o_beforeEnter options)
                (o_afterEnter options)
                (or_else (o_data options) [])
                (match o_cache options with Some false => false | _ => true end)
                (match o_transition options with
                 | Some t => if truthy t then t else "fade"
                 | None => "fade"
                 end) in
      assign (fun r => with_routes (StrMap.set (routes r) (toLowerCase p) route) r) ;;
      console (LogRouteAdded p)
  | _, _ => throw InvalidRoute
  end.

Definition removeRoute (p : string) : M bool :=
  removed <- this (fun r => StrMap.has (routes r) (toLowerCase p)) ;;
  assign (fun r => with_routes (StrMap.delete (routes r) (toLowerCase p)) r) ;;
  when removed (console (LogRouteRemoved p)) ;;
  ret removed.

Definition hasRoute (r : Router) (p : pathArg) : bool :=
  StrMap.has (routes r) (normalizePath (config r) p).

(** *** Listeners

    [this.listeners] has the three lists below.  For a name that every
    object inherits from [Object.prototype], [this.listeners[event]] is
    there too, and is no array: [push] and [indexOf] are not functions.
    For any other event name [on] and [off] do nothing. *)

Definition inherited (event : string) : bool :=
  existsb (String.eqb event)
          ["constructor"; "toString"; "toLocaleString"; "valueOf";
           "hasOwnProperty"; "isPrototypeOf"; "propertyIsEnumerable";
           "__proto__"; "__defineGetter__"; "__defineSetter__";
           "__lookupGetter__"; "__lookupSetter__"].

Definition on (event : string) (cb : option callback) : M unit :=
  match cb with
  | None => ret tt
  | Some f =>
      if inherited event then throw TypeError else
      assign (fun r =>
        let l := listeners r in
        if String.eqb event "beforeRoute"
        then with_listeners (mkListeners (beforeRoute l ++ [f]) (afterRoute l) (routeError l)) r
        else if String.eqb event "afterRoute"
        then with_listeners (mkListeners (beforeRoute l) (afterRoute l ++ [f]) (routeError l)) r
        else if String.eqb event "routeError"
        then with_listeners (mkListeners (beforeRoute l) (afterRoute l) (routeError l ++ [f])) r
        else r)
  end.

(** [indexOf] and [splice(index, 1)]: the first occurrence goes. *)
Fixpoint remove_first (f : callback) (l : list callback) : list callback :=
  match l with
  | [] => []
  | g :: r => if Nat.eqb g f then r else g :: remove_first f r
  end.

Definition off (event : string) (f : callback) : M unit :=
  if inherited event then throw TypeError else
  assign (fun r =>
    let l := listeners r in
    if String.eqb event "beforeRoute"
    then with_listeners (mkListeners (remove_first f (beforeRoute l)) (afterRoute l) (routeError l)) r
    else if String.eqb event "afterRoute"
    then with_listeners (mkListeners (beforeRoute l) (remove_first f (afterRoute l)) (routeError l)) r
    else if String.eqb event "routeError"
    then with_listeners (mkListeners (beforeRoute l) (afterRoute l) (remove_first f (routeError l))) r
    else r).

(** *** Errors *)

Fixpoint runErrorListeners (ls : list callback) (a : callArgs) : M unit :=
  match ls with
  | [] => ret tt
  | l :: rest =>
      try_catch (invoke E l a ;; ret tt)
                (fun err => console (ErrErrorListener err)) ;;
      runErrorListeners rest a
  end.

(** The default of a parameter declared [context = null]: it stands in for
    [undefined], and for nothing else. *)
Definition or_null (context : pathArg) : pathArg :=
  match context with
  | PUndefined => PNull
  | _ => context
  end.

Definition handleError (type : string) (error : exn) (context : pathArg) : M unit :=
  now E ;;
  ls <- this (fun r => routeError (listeners r)) ;;
  runErrorListeners ls (ErrorArgs type error (or_null context)) ;;
  dispatchEvent "router:error" (ErrorData type error (or_null context)).

(** *** The steps of a navigation *)

Fixpoint runBeforeLoop (ls : list callback) (p : string) (route : Route) : M value :=
  match ls with
  | [] => ret VTrue
  | l :: rest =>
      current <- this currentRoute ;;
      result <- try_catch
                  (result <- invoke E l (ListenerArgs p route current) ;;
                   ret (is_false result))
                  (fun error => console (ErrBeforeListener error) ;; ret false) ;;
      if result then ret VFalse else runBeforeLoop rest p route
  end.

Definition runBeforeListeners (p : string) (route : Route) : M value :=
  ls <- this (fun r => beforeRoute (listeners r)) ;;
  runBeforeLoop ls p route.

Fixpoint runAfterLoop (ls : list callback) (p : string) (route : Route) : M unit :=
  match ls with
  | [] => ret tt
  | l :: rest =>
      previous <- this previousRoute ;;
      try_catch (invoke E l (ListenerArgs p route previous) ;; ret tt)
                (fun error => console (ErrAfterListener error)) ;;
      runAfterLoop rest p route
  end.

Definition runAfterListeners (p : string) (route : Route) : M unit :=
  ls <- this (fun r => afterRoute (listeners r)) ;;
  runAfterLoop ls p route.

Definition runGuard (guard : callback) (route : Route) : M value :=
  try_catch (invoke E guard (GuardArgs route))
            (fun error => console (ErrGuard error) ;; ret VFalse).

(** After [pushState] the address has the fragment the URL parser makes
    of the path, and the length of the browser history is the browser's to
    say. *)
Definition updateURL (p : string) : M unit :=
  l <- read location ;;
  let newURL := pathname l ++ search l ++ "#" ++ p in
  if String.eqb (href l) newURL then ret tt
  else
    perform E (PushState p newURL) ;;
    update (fun s =>
      mkState (router s)
              (mkLocation (origin l) (pathname l) (search l)
                          (Url.hashOf (Url.fragmentOf p)))
              (lengthAfterPush E (ticks s) (entries s)) (ticks s) (trace s)).

(** [h[h.length - 1]], or nothing for an empty list. *)
Definition newest (h : list HistoryEntry) : option HistoryEntry :=
  nth_error h (List.length h - 1).

Definition addToHistory (p : string) (route : Route) : M unit :=
  h <- this history ;;
  if match newest h with
     | Some newest => String.eqb (h_path newest) p
     | None => false
     end
  then ret tt
  else
    timestamp <- now E ;;
    assign (fun r => with_history (history r ++ [mkEntry p (title route) timestamp]) r) ;;
    h <- this history ;;
    limit <- this maxHistoryLength ;;
    when (limit <? List.length h) (assign (fun r => with_history (tl (history r)) r)).

Definition handleTransition (route : Route) : M unit :=
  duration <- this (fun r => animationDuration (config r)) ;;
  perform E (Transition (if truthy (transition route) then transition route else "fade")
                        duration).

Definition executeRoute (route : Route) : M unit :=
  try_catch (invoke E (handler route) (HandlerArgs route) ;; ret tt)
            (fun error =>
               console (ErrHandler error) ;;
               handleError "handler" error (PString (path route))).

Definition updatePageMeta (route : Route) : M unit := perform E (PageMeta route).

Definition updateNavigationState (p : string) : M unit :=
  perform E (NavigationState p).

Definition scrollToSection (p : string) : M unit :=
  offset <- this (fun r => scrollOffset (config r)) ;;
  perform E (ScrollToSection p offset).

Definition trackNavigation (p : string) (duration : Z) : M unit :=
  timestamp <- now E ;;
  assign (fun r =>
    let count := match StrMap.get (navigationMetrics r) p with
                 | Some m => m_count m
                 | None => 0
                 end in
    with_navigationMetrics
      (StrMap.set (navigationMetrics r) p (mkMetric duration timestamp (count + 1))) r) ;;
  console (LogMetric p duration).

Definition trackPageView (p : string) (route : Route) : M unit :=
  when (gtagDefined E) (perform E (Gtag (title route))) ;;
  dispatchEvent "router:pageview" (PageView p (title route)).

(** *** Routes that are not found *)

Definition findSimilarRoute (p : pathArg) : M (option string) :=
  keys <- this (fun r => StrMap.keys (routes r)) ;;
  match p with
  | PString s => ret (Fuzzy.findSimilarRouteIn keys s)
  | PNull | PUndefined =>
      (* [str1.length] on the first key throws *)
      match keys with
      | [] => ret None
      | _ :: _ => throw TypeError
      end
  end.

(** [navigate] is the method [handleNotFound] calls back. *)
Definition handleNotFound (navigate : pathArg -> M value) (p : pathArg) : M value :=
  console (WarnNotFoundRedirect p) ;;
  similarRoute <- findSimilarRoute p ;;
  match similarRoute with
  | Some similar =>
      if truthy similar
      then console (LogSimilar similar) ;; navigate (PString similar)
      else fallback <- this (fun r => defaultRoute (config r)) ;;
           navigate (PString fallback)
  | None =>
      fallback <- this (fun r => defaultRoute (config r)) ;;
      navigate (PString fallback)
  end.

Definition same_route (current : option string) (p : string) : bool :=
  match current with
  | Some c => String.eqb c p
  | None => false
  end.

(** *** navigate

    The body of [navigate] is given in three parts, in the order of the
    source: the steps that follow the guards, the [try] block, and the
    method with its re-entrancy check and its [catch] and [finally]. *)

(** From "Add to history" to [return true]. *)
Definition navigateSteps (startTime : Z) (normalizedPath : string) (route : Route)
  (options : NavOptions) : M value :=
  addToHistory normalizedPath route ;;
  enabled <- this (fun r => enableTransitions (config r)) ;;
  when (enabled && negb (skipTransition options)) (handleTransition route) ;;
  executeRoute route ;;
  updatePageMeta route ;;
  updateNavigationState normalizedPath ;;
  when (negb (skipScroll options)) (scrollToSection normalizedPath) ;;
  runAfterListeners normalizedPath route ;;
  match afterEnter route with
  | Some hook => runGuard hook route ;; ret tt
  | None => ret tt
  end ;;
  endTime <- now E ;;
  trackNavigation normalizedPath (endTime - startTime)%Z ;;
  analytics <- this (fun r => enableAnalytics (config r)) ;;
  when analytics (trackPageView normalizedPath route) ;;
  console (LogCompleted normalizedPath) ;;
  previous <- this previousRoute ;;
  dispatchEvent "router:navigated" (Navigated previous normalizedPath) ;;
  ret VTrue.

(** The [try] block. [navigate] is the method itself, for [handleNotFound]. *)
Definition navigateTry (navigate : pathArg -> M value) (startTime : Z)
  (p : pathArg) (options : NavOptions) : M value :=
  cfg <- this config ;;
  let normalizedPath := normalizePath cfg p in
  found <- this (fun r => StrMap.get (routes r) normalizedPath) ;;
  match found with
  | None =>
      console (WarnNotFound p) ;;
      handleNotFound navigate p
  | Some route =>
      current <- this currentRoute ;;
      if same_route current normalizedPath && negb (force options)
      then
        console LogAlreadyOnTarget ;;
        assign (with_isNavigating false) ;;
        ret VTrue
      else
        assign (with_previousRoute current) ;;
        beforeResult <- runBeforeListeners normalizedPath route ;;
        if is_false beforeResult
        then assign (with_isNavigating false) ;; ret VFalse
        else
          guardResult <- match beforeEnter route with
                         | Some guard => runGuard guard route
                         | None => ret VUndefined
                         end ;;
          if is_false guardResult
          then assign (with_isNavigating false) ;; ret VFalse
          else
            when (negb (fromHashChange options)) (updateURL normalizedPath) ;;
            assign (with_currentRoute (Some normalizedPath)) ;;
            navigateSteps startTime normalizedPath route options
  end.

Definition navigateCall (navigate : pathArg -> M value)
  (p : pathArg) (options : NavOptions) : M value :=
  busy <- this isNavigating ;;
  if busy then console WarnInProgress ;; ret VFalse
  else
    startTime <- now E ;;
    assign (with_isNavigating true) ;;
    try_finally
      (try_catch
         (navigateTry navigate startTime p options)
         (fun error =>
            console (ErrNavigation error) ;;
            handleError "navigation" error p ;;
            ret VFalse))
      (assign (with_isNavigating false)).

(** [depth] is the room left on the call stack: [navigate] calls
    [handleNotFound], which calls [navigate]. *)
Fixpoint navigate (depth : nat) (p : pathArg) (options : NavOptions) : M value :=
  match depth with
  | 0 => throw RangeError
  | S depth' => navigateCall (fun q => navigate depth' q noOptions) p options
  end.

(** *** Moving through the history

    [navigate] reads neither [skipHistory] nor [replace], the options that
    [back] and [replace] pass. *)

Definition back (depth : nat) : M value :=
  h <- this history ;;
  let browser_or_default :=
    n <- read entries ;;
    if 1 <? n then perform E HistoryBack ;; ret VTrue
    else fallback <- this (fun r => defaultRoute (config r)) ;;
         navigate depth (PString fallback) noOptions in
  if 1 <? List.length h
  then
    assign (fun r => with_history (removelast (history r)) r) ;;
    h <- this history ;;
    match newest h with
    | Some previousRoute => navigate depth (PString (h_path previousRoute)) noOptions
    | None => browser_or_default
    end
  else browser_or_default.

Definition forward : M value := perform E HistoryForward ;; ret VTrue.

Definition replace (depth : nat) (p : pathArg) : M value :=
  navigate depth p noOptions.

Definition clearHistory : M unit :=
  assign (fun r => with_navigationMetrics [] (with_history [] r)).

Definition cleanup : M unit :=
  assign (fun r =>
    with_listeners (mkListeners [] [] [])
      (with_navigationMetrics [] (with_history [] (with_routes [] r)))) ;;
  console LogCleanup.

(** *** Browser events *)

Definition handleHashChange (depth : nat) : M unit :=
  l <- read location ;;
  cfg <- this config ;;
  current <- this currentRoute ;;
  let p := if truthy (hash l) then substring1 (hash l) else defaultRoute cfg in
  when (differs (PString p) current)
       (detached (navigate depth (PString p) (mkNavOptions false true false false))).

Definition handlePopState (depth : nat) : M unit :=
  l <- read location ;;
  current <- this currentRoute ;;
  when (differs (getPathFromURL l) current)
       (detached (navigate depth (getPathFromURL l) noOptions)).

Definition validateCurrentRoute (depth : nat) : M unit :=
  l <- read location ;;
  cfg <- this config ;;
  current <- this currentRoute ;;
  when (differs (getPathFromURL l) current)
       (detached (navigate depth (or_default cfg (getPathFromURL l)) noOptions)).

Definition loadInitialRoute (depth : nat) : M unit :=
  l <- read location ;;
  cfg <- this config ;;
  detached (navigate depth (or_default cfg (getPathFromURL l)) noOptions).

(** A click on a link with the attribute [href]. [internal] is what
    [extractRouteFromURL] makes of a link to this site that is not a bare
    fragment: its fragment, if it has one. *)
Definition handleLinkClick (depth : nat) (href : string) (internal : option string)
  : M unit :=
  if truthy href
  then
    if String.prefix "#" href
    then
      let p := substring1 href in
      known <- this (fun r => hasRoute r (PString p)) ;;
      when (truthy p && known) (detached (navigate depth (PString p) noOptions))
    else
      match internal with
      | Some route =>
          known <- this (fun r => hasRoute r (PString route)) ;;
          when (truthy route && known)
               (detached (navigate depth (PString route) noOptions))
      | None => ret tt
      end
  else ret tt.

(** [loadInitialRoute] does not await the navigation it starts.  By the
    convention on [async] calls the navigation is run here, where it is
    started; in the browser its steps from the first [await] on come after
    the log line and "router:ready".  The router is the same once all of
    it has run. *)
Definition init (depth : nat) : M unit :=
  console LogInit ;;
  try_catch
    (perform E SetupListeners ;;
     loadInitialRoute depth ;;
     console LogReady ;;
     dispatchEvent "router:ready" NoDetail)
    (fun error =>
       console (ErrInit error) ;;
       handleError "initialization" error PUndefined).

(** *** What can happen to a router, one after the other *)

Inductive operation :=
| AddRoute (p : pathArg) (h : option callback) (options : RouteOptions)
| RemoveRoute (p : string)
| Navigate (p : pathArg) (options : NavOptions)
| Back
| Forward
| Replace (p : pathArg)
| On (event : string) (cb : option callback)
| Off (event : string) (cb : callback)
| ClearHistory
| Cleanup
| Init
| HashChange (fragment : string)     (* the user edits the fragment *)
| PopState (fragment : string)       (* a browser back or forward lands here *)
| LinkClick (href : string) (internal : option string)
| PageVisible.                       (* visibilitychange, document shown *)

Definition set_hash (fragment : string) : M unit :=
  update (fun s =>
    mkState (router s)
            (mkLocation (origin (location s)) (pathname (location s))
                        (search (location s)) fragment)
            (entries s) (ticks s) (trace s)).

Definition operate (depth : nat) (o : operation) : M unit :=
  match o with
  | AddRoute p h options => addRoute p h options
  | RemoveRoute p => detached (removeRoute p)
  | Navigate p options => detached (navigate depth p options)
  | Back => detached (back depth)
  | Forward => detached forward
  | Replace p => detached (replace depth p)
  | On event cb => on event cb
  | Off event cb => off event cb
  | ClearHistory => clearHistory
  | Cleanup => cleanup
  | Init => init depth
  | HashChange fragment => set_hash fragment ;; handleHashChange depth
  | PopState fragment => set_hash fragment ;; handlePopState depth
  | LinkClick href internal => handleLinkClick depth href internal
  | PageVisible =>
      current <- this currentRoute ;;
      match current with
      | Some c => when (truthy c) (validateCurrentRoute depth)
      | None => ret tt
      end
  end.

(** The state an operation leaves, whatever it returns or throws. *)
Definition apply (depth : nat) (o : operation) (s : State) : State :=
  snd (operate depth o s).

Definition run (depth : nat) (ops : list operation) (s : State) : State :=
  fold_left (fun s o => apply depth o s) ops s.

End Methods.

(** ** Vocabulary of the statements *)

(** A computation keeps a relation between the state it starts in and the
    state it leaves, however it completes. *)
Definition keeps (R : State -> State -> Prop) {A} (c : M A) : Prop :=
  forall s, R s (snd (c s)).

Definition handler_call (e : event) : bool :=
  match e with Called _ (HandlerArgs _) => true | _ => false end.

Definition url_change (e : event) : bool :=
  match e with Did (PushState _ _) => true | _ => false end.

Definition calm (e : event) : bool := negb (handler_call e) && negb (url_change e).

(** Between [s] and [s'] the router, the address and the browser history
    are untouched, no route handler ran and no URL was pushed. *)
Definition quiet (s s' : State) : Prop :=
  router s' = router s /\ location s' = location s /\ entries s' = entries s /\
  exists new, trace s' = (new ++ trace s)%list /\ forallb calm new = true.

(** The route table, the configuration and the listeners are the same. *)
Definition table_fixed (s s' : State) : Prop :=
  routes (router s') = routes (router s) /\
  config (router s') = config (router s) /\
  listeners (router s') = listeners (router s) /\
  maxHistoryLength (router s') = maxHistoryLength (router s).

(** The router is on the same route. *)
Definition position_fixed (s s' : State) : Prop :=
  currentRoute (router s') = currentRoute (router s).

(** The history list is within its bound. *)
Definition bounded (r : Router) : Prop :=
  maxHistoryLength r = 50 /\ List.length (history r) <= 50.

Definition stays_bounded (s s' : State) : Prop :=
  bounded (router s) -> bounded (router s').

(** An environment in which nothing goes wrong: no browser operation fails
    and no callback throws or answers [false]. *)
Definition benevolent (E : Env) : Prop :=
  (forall op, fails E op = None)
  /\ (forall f a, exists v, call E f a = Normal v /\ is_false v = false).

(** A computation that completes normally from every state, with a value
    in [P]. *)
Definition yields {A} (c : M A) (P : A -> Prop) : Prop :=
  forall s, exists a, fst (c s) = Normal a /\ P a.

(** [null], [undefined] and the empty string. *)
Definition falsy (p : pathArg) : Prop :=
  p = PNull \/ p = PUndefined \/ p = PString "".

(** A path [trim] leaves alone. *)
Definition trimmed (p : string) : Prop := trim p = p.

(** The route [handleNotFound] turns to for a string that names no route. *)
Definition fallbackTarget (r : Router) (x : string) : string :=
  match Fuzzy.findSimilarRouteIn (StrMap.keys (routes r)) x with
  | Some similar => if truthy similar then similar else defaultRoute (config r)
  | None => defaultRoute (config r)
  end.

(** A before-listener or the route's own guard answers [false]. *)
Definition vetoed (E : Env) (r : Router) (p : string) (route : Route) : Prop :=
  (exists l, In l (beforeRoute (listeners r))
             /\ call E l (ListenerArgs p route (currentRoute r)) = Normal VFalse)
  \/ (exists guard, beforeEnter route = Some guard
                    /\ call E guard (GuardArgs route) = Normal VFalse).

(** ** Sample sites *)

Module Sample.

(** Callbacks that return [undefined], a browser in which nothing fails. *)
Definition benign : Env :=
  mkEnv (fun _ _ => Normal VUndefined) (fun _ => None) (fun n => Z.of_nat n) false
        (fun _ n => S n).

Definition page : Location := mkLocation "https://example.org" "/" "" "".

Definition blank : State := initialState defaultConfig page 1.

(** [addRoute] for home, about and contact on a new router. *)
Definition site : State :=
  run benign 2
      [AddRoute (PString "home") (Some 1) noRouteOptions;
       AddRoute (PString "about") (Some 2) noRouteOptions;
       AddRoute (PString "contact") (Some 3) noRouteOptions]
      blank.

(** Callback 9 answers [false] when asked about the route "about". *)
Definition strict : Env :=
  mkEnv (fun f a =>
           match a with
           | ListenerArgs p _ _ =>
               if (Nat.eqb f 9 && String.eqb p "about")%bool
               then Normal VFalse else Normal VUndefined
           | _ => Normal VUndefined
           end)
        (fun _ => None) (fun n => Z.of_nat n) false
        (fun _ n => S n).

(** The site with callback 9 as a before-listener, at home. *)
Definition guarded_site : State :=
  run strict 2
      [On "beforeRoute" (Some 9); Navigate (PString "contact") noOptions;
       Navigate (PString "home") noOptions]
      site.

(** The site while a navigation is in flight. *)
Definition in_flight : State := on_router (with_isNavigating true) site.

(** The site after fifty visits, to home and about in turn. *)
Definition well_travelled : State :=
  run benign 2
      (flat_map (fun _ => [Navigate (PString "home") noOptions;
                           Navigate (PString "about") noOptions])
                (seq 0 25))
      site.

Definition contact_route : Route :=
  mkRoute "contact" 3 "Contact" [] None None [] true "fade".

Definition about_route : Route :=
  mkRoute "about" 2 "About" [] None None [] true "fade".

End Sample.

(** ** Further vocabulary *)

(** A string of white space only (the empty string included). *)
Fixpoint only_spaces (s : string) : bool :=
  match s with
  | EmptyString => true
  | String c r => is_space c && only_spaces r
  end.

(** A string that does not begin with white space. *)
Definition starts_clean (s : string) : Prop :=
  match s with
  | EmptyString => True
  | String c _ => is_space c = false
  end.

(** No two neighbours of the history name the same path. *)
Fixpoint alternating (h : list HistoryEntry) : Prop :=
  match h with
  | a :: t => match t with
              | b :: _ => h_path a <> h_path b
              | [] => True
              end /\ alternating t
  | [] => True
  end.

(** The route table as a [Map] has it: one entry per key; and as
    [addRoute] fills it: each route filed under its own path, in lower
    case. *)
Definition registry_ok (r : Router) : Prop :=
  NoDup (StrMap.keys (routes r))
  /\ forall k route, In (k, route) (routes r) ->
                     path route = k /\ toLowerCase k = k.

(** The accumulators of the scan after the keys [seen]: nothing found and
    no key above the Fuzzy.threshold, or the first of the best keys above it. *)
Definition scanned (p : string) (seen : list string) (acc : option string * Q)
  : Prop :=
  match fst acc with
  | None =>
      snd acc = 0%Q
      /\ forall k, In k seen -> (Fuzzy.calculateSimilarity p k <= Fuzzy.threshold)%Q
  | Some r =>
      snd acc = Fuzzy.calculateSimilarity p r
      /\ (Fuzzy.threshold < Fuzzy.calculateSimilarity p r)%Q
      /\ exists before after,
           seen = (before ++ r :: after)%list
           /\ (forall k, In k before ->
                 (Fuzzy.calculateSimilarity p k < Fuzzy.calculateSimilarity p r)%Q)
           /\ (forall k, In k after ->
                 (Fuzzy.calculateSimilarity p k <= Fuzzy.calculateSimilarity p r)%Q)
  end.

(** [this.listeners[event]] for the three events the constructor sets up. *)
Definition listenersOf (event : string) (l : Listeners) : list callback :=
  if String.eqb event "beforeRoute" then beforeRoute l
  else if String.eqb event "afterRoute" then afterRoute l
  else if String.eqb event "routeError" then routeError l
  else [].

Definition known_event (event : string) : Prop :=
  event = "beforeRoute" \/ event = "afterRoute" \/ event = "routeError".

(** The callbacks called in a stretch of the trace, first call first. *)
Fixpoint calls (new : list event) : list callback :=
  match new with
  | Called f _ :: older => (calls older ++ [f])%list
  | _ :: older => calls older
  | [] => []
  end.

(** The address of a page on the web: the origin begins with the scheme,
    the path with a slash. *)
Definition web_address (l : Location) : Prop :=
  (exists c rest, origin l = String c rest /\ c <> "/"%char)
  /\ exists rest, pathname l = String "/" rest.

(** A path that the URL parser takes into the fragment as it is: printable
    ASCII without the space, the double quote, the back quote and the angle
    brackets. *)
Fixpoint plain (s : string) : bool :=
  match s with
  | EmptyString => true
  | String c r => negb (Url.in_fragment_set (nat_of_ascii c)) && plain r
  end.

(** The state after [pushState] to the path [p]. *)
Definition pushed (E : Env) (p : string) (s : State) : State :=
  mkState (router s)
          (mkLocation (origin (location s)) (pathname (location s))
                      (search (location s)) (Url.hashOf (Url.fragmentOf p)))
          (lengthAfterPush E (ticks s) (entries s)) (ticks s)
          (Did (PushState p (pathname (location s) ++ search (location s) ++ "#" ++ p))
             :: trace s).

(** [c], run from [s], completes normally, with a value and a state in
    [Q]. *)
Definition after {A} (c : M A) (s : State) (Q : A -> State -> Prop) : Prop :=
  exists a s', c s = (Normal a, s') /\ Q a s'.

(** A browser in which no operation throws. *)
Definition reliable (E : Env) : Prop := forall op, fails E op = None.

(** Nobody refuses the navigation to [route]: no before-listener answers
    [false] (one that throws does not refuse), and the route's guard, if it
    has one, returns something other than [false]. *)
Definition admitted (E : Env) (r : Router) (p : string) (route : Route) : Prop :=
  (forall l, In l (beforeRoute (listeners r)) ->
             call E l (ListenerArgs p route (currentRoute r)) <> Normal VFalse)
  /\ (forall guard, beforeEnter route = Some guard ->
                    exists v, call E guard (GuardArgs route) = Normal v
                              /\ is_false v = false).

(** The history list after [addToHistory] of the entry [e], with [limit]
    the longest list allowed. *)
Definition recorded (h : list HistoryEntry) (limit : nat) (e : HistoryEntry)
  : list HistoryEntry :=
  if match newest h with
     | Some last => String.eqb (h_path last) (h_path e)
     | None => false
     end
  then h
  else let h' := (h ++ [e])%list in
       if limit <? List.length h' then tl h' else h'.

(** Between [s] and [s'] the router has changed in its navigation metrics
    at most, the address and the browser history not at all, no URL was
    pushed, and the route handlers called are [hs] (newest first). *)
Definition wake (hs : list event) (s s' : State) : Prop :=
  router s' = with_navigationMetrics (navigationMetrics (router s')) (router s)
  /\ location s' = location s /\ entries s' = entries s
  /\ exists new, trace s' = (new ++ trace s)%list
                 /\ filter handler_call new = hs
                 /\ filter url_change new = [].

(** A call of an error listener. *)
Definition error_call (e : event) : bool :=
  match e with Called _ (ErrorArgs _ _ _) => true | _ => false end.

(** ** Further sample sites *)

Module Scene.

(** Every callback throws; no browser operation does. *)
Definition rough : Env :=
  mkEnv (fun f _ => Throw (Raised f)) (fun _ => None) (fun n => Z.of_nat n) false
        (fun _ n => S n).

(** The guards throw, the other callbacks return [undefined]. *)
Definition failing_guard : Env :=
  mkEnv (fun f a =>
           match a with
           | GuardArgs _ => Throw (Raised f)
           | _ => Normal VUndefined
           end)
        (fun _ => None) (fun n => Z.of_nat n) false
        (fun _ n => S n).

(** The site with a listener of each kind. *)
Definition wired : State :=
  run Sample.benign 2
      [On "beforeRoute" (Some 8); On "afterRoute" (Some 10);
       On "routeError" (Some 11); On "routeError" (Some 12)]
      Sample.site.

(** The site after a visit to home and then to about. *)
Definition at_about : State :=
  run Sample.benign 2
      [Navigate (PString "home") noOptions; Navigate (PString "about") noOptions]
      Sample.site.

(** The site with a route "admin" behind a guard, callback 7. *)
Definition gated : State :=
  run Sample.benign 2
      [AddRoute (PString "admin") (Some 4)
                (mkRouteOptions None None (Some 7) None None None None)]
      Sample.site.

Definition admin_route : Route :=
  mkRoute "admin" 4 "Admin" [] (Some 7) None [] true "fade".

Definition home_route : Route :=
  mkRoute "home" 1 "Home" [] None None [] true "fade".

(** The site without its home route. *)
Definition homeless : State :=
  run Sample.benign 2 [RemoveRoute "home"] Sample.site.

(** The site at about, once the route "about" has been removed. *)
Definition orphaned : State := snd (removeRoute "about" at_about).

(** The site with the fragment "#contact" in the address. *)
Definition at_fragment : State := snd (set_hash "#contact" Sample.site).

End Scene.

(** * Properties *)

Local Open Scope list_scope.

(** ** Arrays and the edit-distance table *)

Module ArrayFacts.

Lemma set_at_end {A} (hole : A) (a : list A) (i : nat) (v : A) :
  List.length a = i -> JsArray.set hole a i v = a ++ [v].
Proof.
  intros <-. induction a as [|x a IH]; simpl; [reflexivity|].
  now rewrite IH.
Qed.

Lemma set_in_middle {A} (hole : A) (l1 l2 : list A) (i : nat) (x y : A) :
  List.length l1 = i ->
  JsArray.set hole (l1 ++ x :: l2) i y = l1 ++ y :: l2.
Proof.
  intros <-. induction l1 as [|z l1 IH]; simpl; [reflexivity|].
  now rewrite IH.
Qed.

Lemma nth_in_middle {A} (l1 l2 : list A) (i : nat) (x d : A) :
  List.length l1 = i -> nth i (l1 ++ x :: l2) d = x.
Proof. intros <-. apply nth_middle. Qed.

Lemma fold_seq_step {S} (f : S -> nat -> S) (a k : nat) (init : S) :
  fold_left f (seq a (Datatypes.S k)) init = f (fold_left f (seq a k) init) (a + k).
Proof.
  rewrite seq_S, fold_left_app. reflexivity.
Qed.

End ArrayFacts.

Module FuzzyFacts.
Import Fuzzy ArrayFacts.

Section Table.

Variables str1 str2 : string.

Local Notation "'n1'" := (String.length str1).
Local Notation "'n2'" := (String.length str2).
Local Notation "'D'" := (lev str1 str2).
Local Notation "'filled'" := (filled str1 str2).
Local Notation "'shape'" := (shape str1 str2).

Lemma lev_row0 j : D 0 j = j.
Proof. reflexivity. Qed.

Lemma lev_col0 i : D i 0 = i.
Proof. destruct i; reflexivity. Qed.

Lemma lev_step i j :
  D (S i) (S j) =
  if String.eqb (charAt str2 i) (charAt str1 j)
  then D i j
  else min3 (D i j + 1) (D (S i) j + 1) (D i (S j) + 1).
Proof. reflexivity. Qed.

Lemma filled_length r k : List.length (filled r k) = k.
Proof. unfold Fuzzy.filled. now rewrite length_map, length_seq. Qed.

Lemma filled_nth r k c : c < k -> nth c (filled r k) 0 = D r c.
Proof.
  intros H. unfold Fuzzy.filled.
  rewrite (nth_indep _ 0 (D r 0)) by now rewrite length_map, length_seq.
  rewrite map_nth, seq_nth by assumption. reflexivity.
Qed.

Lemma filled_grow r k : filled r (S k) = filled r k ++ [D r k].
Proof. unfold Fuzzy.filled. now rewrite seq_S, map_app. Qed.

Lemma done_length i :
  List.length (map (fun r => filled r (S n1)) (seq 0 i)) = i.
Proof. now rewrite length_map, length_seq. Qed.

(** Row [i] of the matrix is the row being filled. *)
Lemma shape_current i k : nth i (shape i k) [] = filled i k.
Proof.
  unfold Fuzzy.shape. apply nth_in_middle, done_length.
Qed.

(** The rows above are complete. *)
Lemma shape_above i k r : r < i -> nth r (shape i k) [] = filled r (S n1).
Proof.
  intros H. unfold Fuzzy.shape.
  rewrite app_nth1 by now rewrite done_length.
  rewrite (nth_indep _ [] (filled 0 (S n1))) by now rewrite done_length.
  rewrite (map_nth (fun r => filled r (S n1))), seq_nth by assumption.
  reflexivity.
Qed.

Lemma mget_current i k c : c < k -> mget (shape i k) i c = D i c.
Proof.
  intros H. unfold mget. rewrite shape_current. now apply filled_nth.
Qed.

Lemma mget_above i k r c : r < i -> c <= n1 -> mget (shape i k) r c = D r c.
Proof.
  intros Hr Hc. unfold mget. rewrite shape_above by assumption.
  apply filled_nth. lia.
Qed.

(** Writing the next cell of the current row. *)
Lemma mset_next i k : mset (shape i k) i k (D i k) = shape i (S k).
Proof.
  unfold mset. rewrite shape_current.
  rewrite (set_at_end 0 (filled i k) k) by apply filled_length.
  rewrite <- filled_grow.
  unfold Fuzzy.shape. apply set_in_middle, done_length.
Qed.

(** A complete row and the untouched row below: the next row's start. *)
Lemma shape_next_row i : i < n2 -> shape i (S n1) = shape (S i) 1.
Proof.
  intros H. unfold Fuzzy.shape.
  replace (n2 - i) with (S (n2 - S i)) by lia.
  rewrite (seq_S i 0), map_app, <- app_assoc. reflexivity.
Qed.

Lemma cell_next i j :
  1 <= i -> 1 <= j <= n1 -> cell str1 str2 i (shape i j) j = shape i (S j).
Proof.
  intros Hi Hj. unfold cell.
  destruct i as [|i]; [lia|]. destruct j as [|j]; [lia|].
  replace (S i - 1) with i by lia. replace (S j - 1) with j by lia.
  rewrite (mget_above (S i) (S j) i j), (mget_above (S i) (S j) i (S j)),
    mget_current by lia.
  generalize (lev_step i j).
  destruct (String.eqb (charAt str2 i) (charAt str1 j));
    intros <-; apply mset_next.
Qed.

(** The inner loop completes the row. *)
Lemma inner_loop i k :
  1 <= i -> k <= n1 ->
  fold_left (cell str1 str2 i) (seq 1 k) (shape i 1) = shape i (S k).
Proof.
  intros Hi. induction k as [|k IH]; intros Hk; [reflexivity|].
  rewrite fold_seq_step, IH by lia. apply cell_next; lia.
Qed.

(** The outer loop completes the rows one after the other. *)
Lemma outer_loop k :
  k <= n2 ->
  fold_left (fun m i => JsArray.for_range 1 n1 (cell str1 str2 i) m)
            (seq 1 k) (shape 0 (S n1))
  = shape k (S n1).
Proof.
  induction k as [|k IH]; intros Hk; [reflexivity|].
  rewrite fold_seq_step, IH by lia.
  rewrite shape_next_row by lia.
  unfold JsArray.for_range, JsArray.range.
  replace (S n1 - 1) with n1 by lia.
  apply inner_loop; lia.
Qed.

(** The first loop: one row [[i]] per character of [str2], and one more. *)
Lemma first_loop k :
  fold_left (fun (m : matrix) i => JsArray.set [] m i [i]) (seq 0 k) []
  = map (fun r => [r]) (seq 0 k).
Proof.
  induction k as [|k IH]; [reflexivity|].
  rewrite fold_seq_step, IH, seq_S, map_app. simpl.
  apply set_at_end. now rewrite length_map, length_seq.
Qed.

(** The second loop: row 0 becomes [0, 1, ..., n1]. *)
Lemma second_loop k :
  fold_left (fun m j => mset m 0 j j) (seq 0 (S k)) (shape 0 1) = shape 0 (S k).
Proof.
  induction k as [|k IH]; [reflexivity|].
  rewrite fold_seq_step, IH. simpl.
  rewrite <- (lev_row0 (S k)) at 2. apply mset_next.
Qed.

(** The loops of [calculateEditDistance] compute the recurrence. *)
Theorem calculateEditDistance_lev :
  calculateEditDistance str1 str2 = D n2 n1.
Proof.
  unfold calculateEditDistance, JsArray.for_range, JsArray.range.
  rewrite !Nat.sub_0_r. replace (S n2 - 1) with n2 by lia.
  rewrite first_loop.
  change (map (fun r => [r]) (seq 0 (S n2))) with ([0] :: map (fun r => [r]) (seq 1 n2)).
  replace ([0] :: map (fun r => [r]) (seq 1 n2)) with (shape 0 1)
    by (unfold Fuzzy.shape; simpl; now rewrite Nat.sub_0_r).
  rewrite second_loop, outer_loop by lia.
  apply mget_current. lia.
Qed.

(** The distance is at most the longer of the two lengths. *)
Lemma lev_bound i j : D i j <= Nat.max i j.
Proof.
  revert j. induction i as [|i IHi]; intros j; [rewrite lev_row0; lia|].
  induction j as [|j IHj]; [rewrite lev_col0; lia|].
  rewrite lev_step. specialize (IHi j).
  destruct (String.eqb _ _); unfold min3; lia.
Qed.

End Table.

(** Swapping the two strings transposes the table. *)
Lemma lev_transpose str1 str2 i j : lev str1 str2 i j = lev str2 str1 j i.
Proof.
  revert j. induction i as [|i IHi]; intros j.
  - now rewrite lev_row0, lev_col0.
  - induction j as [|j IHj]; [now rewrite lev_row0, lev_col0|].
    rewrite !lev_step, String.eqb_sym.
    rewrite (IHi j), (IHi (S j)), IHj.
    destruct (String.eqb _ _); unfold min3; lia.
Qed.

Lemma calculateEditDistance_sym a b :
  calculateEditDistance a b = calculateEditDistance b a.
Proof. rewrite !calculateEditDistance_lev. apply lev_transpose. Qed.

Lemma calculateEditDistance_bound a b :
  calculateEditDistance a b <= Nat.max (String.length a) (String.length b).
Proof. rewrite calculateEditDistance_lev, Nat.max_comm. apply lev_bound. Qed.

End FuzzyFacts.

(** ** Relations that the methods keep *)

Module Keeping.

Section Combinators.

Variable R : State -> State -> Prop.
Hypothesis R_refl : forall s, R s s.
Hypothesis R_trans : forall a b c, R a b -> R b c -> R a c.

Lemma keeps_ret {A} (a : A) : keeps R (ret a).
Proof. intros s. apply R_refl. Qed.

Lemma keeps_throw {A} (e : exn) : keeps R (@throw A e).
Proof. intros s. apply R_refl. Qed.

Lemma keeps_read {A} (f : State -> A) : keeps R (read f).
Proof. intros s. apply R_refl. Qed.

Lemma keeps_this {A} (f : Router -> A) : keeps R (this f).
Proof. intros s. apply R_refl. Qed.

Lemma keeps_bind {A B} (c : M A) (k : A -> M B) :
  keeps R c -> (forall a, keeps R (k a)) -> keeps R (bind c k).
Proof.
  intros Hc Hk s. unfold bind. specialize (Hc s).
  destruct (c s) as [[a|e] s1]; simpl in *; [|assumption].
  eapply R_trans; [eassumption|apply Hk].
Qed.

Lemma keeps_try_catch {A} (c : M A) (h : exn -> M A) :
  keeps R c -> (forall e, keeps R (h e)) -> keeps R (try_catch c h).
Proof.
  intros Hc Hh s. unfold try_catch. specialize (Hc s).
  destruct (c s) as [[a|e] s1]; simpl in *; [assumption|].
  eapply R_trans; [eassumption|apply Hh].
Qed.

Lemma keeps_try_finally {A} (c : M A) (f : M unit) :
  keeps R c -> keeps R f -> keeps R (try_finally c f).
Proof.
  intros Hc Hf s. unfold try_finally. specialize (Hc s).
  destruct (c s) as [r s1]; simpl in *. specialize (Hf s1).
  destruct (f s1) as [[u|e] s2]; simpl in *; eapply R_trans; eassumption.
Qed.

Lemma keeps_detached {A} (c : M A) : keeps R c -> keeps R (detached c).
Proof. intros Hc s. apply Hc. Qed.

Lemma keeps_when (b : bool) (c : M unit) : keeps R c -> keeps R (when b c).
Proof. intros Hc. destruct b; [assumption|apply keeps_ret]. Qed.

Lemma keeps_update (f : State -> State) :
  (forall s, R s (f s)) -> keeps R (update f).
Proof. intros H s. apply H. Qed.

Lemma keeps_assign (f : Router -> Router) :
  (forall s, R s (on_router f s)) -> keeps R (assign f).
Proof. intros H s. apply H. Qed.

End Combinators.

Create HintDb keeping.

Ltac keeping_step :=
  match goal with
  | |- forall _, _ => intro
  | |- keeps _ (ret _) => apply keeps_ret
  | |- keeps _ (throw _) => apply keeps_throw
  | |- keeps _ (this _) => apply keeps_this
  | |- keeps _ (read _) => apply keeps_read
  | |- keeps _ (bind _ _) => apply keeps_bind
  | |- keeps _ (try_catch _ _) => apply keeps_try_catch
  | |- keeps _ (try_finally _ _) => apply keeps_try_finally
  | |- keeps _ (detached _) => apply keeps_detached
  | |- keeps _ (when _ _) => apply keeps_when
  | |- keeps _ (assign _) => apply keeps_assign
  | |- keeps _ (update _) => apply keeps_update
  | |- keeps _ (match ?x with _ => _ end) => destruct x
  | |- keeps _ _ => progress cbv beta zeta
  end.

Ltac keeping := repeat first [ solve [auto with keeping] | keeping_step ].

Section OfMethods.

Variable E : Env.
Variable R : State -> State -> Prop.

Hypothesis R_refl : forall s, R s s.
Hypothesis R_trans : forall a b c, R a b -> R b c -> R a c.

(** What the environment may do. *)
Hypothesis R_console : forall m s, R s (emit (Console m) s).
Hypothesis R_listener : forall f p r o s, R s (emit (Called f (ListenerArgs p r o)) s).
Hypothesis R_guard : forall f r s, R s (emit (Called f (GuardArgs r)) s).
Hypothesis R_handler : forall f r s, R s (emit (Called f (HandlerArgs r)) s).
Hypothesis R_error : forall f t e c s, R s (emit (Called f (ErrorArgs t e c)) s).
Hypothesis R_did : forall op s, R s (emit (Did op) s).
Hypothesis R_tick :
  forall s, R s (mkState (router s) (location s) (entries s) (S (ticks s)) (trace s)).
Hypothesis R_address :
  forall l n s, R s (mkState (router s) l n (ticks s) (trace s)).

(** What the router may write. *)
Hypothesis R_flag : forall b s, R s (on_router (with_isNavigating b) s).
Hypothesis R_previous : forall v s, R s (on_router (with_previousRoute v) s).
Hypothesis R_current : forall v s, R s (on_router (with_currentRoute v) s).
Hypothesis R_history :
  forall (f : Router -> list HistoryEntry) s,
    R s (on_router (fun r => with_history (f r) r) s).
Hypothesis R_metrics :
  forall (f : Router -> StrMap.t Metric) s,
    R s (on_router (fun r => with_navigationMetrics (f r) r) s).
Hypothesis R_addToHistory : forall p route, keeps R (addToHistory E p route).

Lemma keeps_console m : keeps R (console m).
Proof. intros s. apply R_console. Qed.

Lemma keeps_perform op : keeps R (perform E op).
Proof.
  intros s. unfold perform. destruct (fails E op); simpl; auto.
Qed.

Lemma keeps_now : keeps R (now E).
Proof. intros s. apply R_tick. Qed.

Lemma keeps_invoke f a :
  (forall s, R s (emit (Called f a) s)) -> keeps R (invoke E f a).
Proof. intros H s. apply H. Qed.

#[local] Hint Resolve keeps_console keeps_perform keeps_now keeps_invoke : keeping.

Lemma keeps_dispatchEvent name d : keeps R (dispatchEvent E name d).
Proof. unfold dispatchEvent. keeping. Qed.

#[local] Hint Resolve keeps_dispatchEvent : keeping.

Lemma keeps_runErrorListeners ls a :
  (forall f s, R s (emit (Called f a) s)) -> keeps R (runErrorListeners E ls a).
Proof. intros H. induction ls as [|l ls IH]; simpl; keeping. Qed.

Lemma keeps_handleError type error context :
  keeps R (handleError E type error context).
Proof.
  unfold handleError. keeping. apply keeps_runErrorListeners. auto.
Qed.

#[local] Hint Resolve keeps_handleError : keeping.

Lemma keeps_runBeforeLoop ls p route : keeps R (runBeforeLoop E ls p route).
Proof. induction ls as [|l ls IH]; simpl; keeping. Qed.

Lemma keeps_runBeforeListeners p route : keeps R (runBeforeListeners E p route).
Proof. unfold runBeforeListeners. keeping. apply keeps_runBeforeLoop. Qed.

Lemma keeps_runAfterLoop ls p route : keeps R (runAfterLoop E ls p route).
Proof. induction ls as [|l ls IH]; simpl; keeping. Qed.

Lemma keeps_runAfterListeners p route : keeps R (runAfterListeners E p route).
Proof. unfold runAfterListeners. keeping. apply keeps_runAfterLoop. Qed.

Lemma keeps_runGuard guard route : keeps R (runGuard E guard route).
Proof. unfold runGuard. keeping. Qed.

Lemma keeps_updateURL p : keeps R (updateURL E p).
Proof. unfold updateURL. keeping. Qed.

Lemma keeps_addToHistory p route : keeps R (addToHistory E p route).
Proof. clear R_addToHistory. unfold addToHistory. keeping. Qed.

Lemma keeps_handleTransition route : keeps R (handleTransition E route).
Proof. unfold handleTransition. keeping. Qed.

Lemma keeps_executeRoute route : keeps R (executeRoute E route).
Proof. unfold executeRoute. keeping. Qed.

Lemma keeps_updatePageMeta route : keeps R (updatePageMeta E route).
Proof. unfold updatePageMeta. keeping. Qed.

Lemma keeps_updateNavigationState p : keeps R (updateNavigationState E p).
Proof. unfold updateNavigationState. keeping. Qed.

Lemma keeps_scrollToSection p : keeps R (scrollToSection E p).
Proof. unfold scrollToSection. keeping. Qed.

Lemma keeps_trackNavigation p duration : keeps R (trackNavigation E p duration).
Proof. unfold trackNavigation. keeping. Qed.

Lemma keeps_trackPageView p route : keeps R (trackPageView E p route).
Proof. unfold trackPageView. keeping. Qed.

Lemma keeps_findSimilarRoute p : keeps R (findSimilarRoute p).
Proof. unfold findSimilarRoute. keeping. Qed.

#[local] Hint Resolve keeps_runBeforeListeners keeps_runAfterListeners
  keeps_runGuard keeps_updateURL keeps_handleTransition keeps_executeRoute
  keeps_updatePageMeta keeps_updateNavigationState keeps_scrollToSection
  keeps_trackNavigation keeps_trackPageView keeps_findSimilarRoute : keeping.

Lemma keeps_handleNotFound navigate p :
  (forall q, keeps R (navigate q)) -> keeps R (handleNotFound navigate p).
Proof. intros H. unfold handleNotFound. keeping. Qed.

(** The steps after the guards, with [addToHistory] taken as a whole. *)
Lemma keeps_navigateSteps startTime p route options :
  keeps R (navigateSteps E startTime p route options).
Proof. unfold navigateSteps. keeping. Qed.

#[local] Hint Resolve keeps_handleNotFound keeps_navigateSteps : keeping.

Lemma keeps_navigateTry navigate startTime p options :
  (forall q, keeps R (navigate q)) ->
  keeps R (navigateTry E navigate startTime p options).
Proof. intros H. unfold navigateTry. keeping. Qed.

#[local] Hint Resolve keeps_navigateTry : keeping.

Lemma keeps_navigateCall navigate p options :
  (forall q, keeps R (navigate q)) ->
  keeps R (navigateCall E navigate p options).
Proof. intros H. unfold navigateCall. keeping. Qed.

Lemma keeps_navigate depth p options : keeps R (navigate E depth p options).
Proof.
  revert p options. induction depth as [|depth IH]; intros p options; simpl.
  - apply keeps_throw, R_refl.
  - apply keeps_navigateCall. intros q. apply IH.
Qed.

End OfMethods.

End Keeping.

(** ** The similarity score *)

Module SimilarityFacts.
Import Fuzzy FuzzyFacts.

Lemma ratio_bounds (len dist : nat) :
  0 < len -> dist <= len ->
  (0 <= (inject_Z (Z.of_nat len) - inject_Z (Z.of_nat dist))
        / inject_Z (Z.of_nat len) <= 1)%Q.
Proof.
  intros Hlen Hdist.
  assert (Hpos : (0 < inject_Z (Z.of_nat len))%Q)
    by (rewrite <- (Zlt_Qlt 0); lia).
  split.
  - apply Qle_shift_div_l; [assumption|].
    rewrite Qmult_0_l.
    unfold Qminus. rewrite <- inject_Z_opp, <- inject_Z_plus.
    rewrite <- (Zle_Qle 0). lia.
  - apply Qle_shift_div_r; [assumption|].
    rewrite Qmult_1_l.
    unfold Qminus. rewrite <- inject_Z_opp, <- inject_Z_plus.
    rewrite <- Zle_Qle. lia.
Qed.

Lemma calculateSimilarity_sym a b :
  calculateSimilarity a b = calculateSimilarity b a.
Proof.
  unfold calculateSimilarity.
  destruct (Nat.ltb_spec (String.length b) (String.length a)) as [Hba|Hba];
    destruct (Nat.ltb_spec (String.length a) (String.length b)) as [Hab|Hab];
    try lia; try reflexivity.
  assert (Heq : String.length a = String.length b) by lia.
  rewrite Heq, (calculateEditDistance_sym a b). reflexivity.
Qed.

Lemma calculateSimilarity_bounds a b :
  (0 <= calculateSimilarity a b <= 1)%Q.
Proof.
  unfold calculateSimilarity.
  set (longer := if String.length b <? String.length a then a else b).
  set (shorter := if String.length b <? String.length a then b else a).
  destruct (Nat.eqb_spec (String.length longer) 0) as [Hz|Hnz].
  - split; discriminate.
  - apply ratio_bounds; [lia|].
    pose proof (calculateEditDistance_bound longer shorter) as Hb.
    assert (String.length shorter <= String.length longer).
    { subst longer shorter.
      destruct (Nat.ltb_spec (String.length b) (String.length a)); lia. }
    lia.
Qed.

(** C10. [calculateSimilarity] gives the same score whichever way round the
    two strings are passed, and the score lies between 0 and 1 inclusive. *)
Theorem calculateSimilarity_symmetric_in_unit_interval (a b : string) :
  calculateSimilarity a b = calculateSimilarity b a
  /\ (0 <= calculateSimilarity a b)%Q
  /\ (calculateSimilarity a b <= 1)%Q.
Proof.
  split; [apply calculateSimilarity_sym|apply calculateSimilarity_bounds].
Qed.

(** No key scores above the threshold: the scan finds nothing. *)
Lemma findSimilarRouteIn_none keys p :
  (forall k, In k keys -> Qgtb (calculateSimilarity p k) threshold = false) ->
  findSimilarRouteIn keys p = None.
Proof.
  unfold findSimilarRouteIn. generalize 0%Q as best.
  induction keys as [|k keys IH]; intros best H; [reflexivity|].
  simpl. rewrite (H k) by now left.
  rewrite andb_false_r. apply IH. intros k' Hk'. apply H. now right.
Qed.

(** What the scan returns is one of the keys, and scores above the
    threshold. *)
Lemma better_sound all p acc k :
  In k all ->
  (forall r, fst acc = Some r ->
             In r all /\ Qgtb (calculateSimilarity p r) threshold = true) ->
  forall r, fst (better p acc k) = Some r ->
            In r all /\ Qgtb (calculateSimilarity p r) threshold = true.
Proof.
  intros Hk Hacc r. destruct acc as [bestMatch bestScore]. unfold better.
  destruct (Qgtb (calculateSimilarity p k) bestScore); simpl;
    [|apply Hacc].
  destruct (Qgtb (calculateSimilarity p k) threshold) eqn:Hs; simpl;
    [|apply Hacc].
  intros [= <-]. now split.
Qed.

Lemma findSimilarRouteIn_some keys p r :
  findSimilarRouteIn keys p = Some r ->
  In r keys /\ Qgtb (calculateSimilarity p r) threshold = true.
Proof.
  unfold findSimilarRouteIn.
  assert (G : forall ks acc,
             (forall k, In k ks -> In k keys) ->
             (forall r, fst acc = Some r ->
                In r keys /\ Qgtb (calculateSimilarity p r) threshold = true) ->
             forall r, fst (fold_left (better p) ks acc) = Some r ->
                In r keys /\ Qgtb (calculateSimilarity p r) threshold = true).
  { induction ks as [|k ks IH]; intros acc Hks Hacc; [exact Hacc|].
    simpl. apply IH.
    - intros k' Hk'. apply Hks. now right.
    - apply better_sound; [apply Hks; now left|exact Hacc]. }
  apply (G keys (None, 0%Q)); [auto|discriminate].
Qed.

End SimilarityFacts.

(** ** The navigation controller *)

Module NavigationFacts.

(** Setting the flag and clearing it again gives back an idle router. *)
Lemma flag_round_trip (r : Router) (b : bool) :
  isNavigating r = false ->
  with_isNavigating false (with_isNavigating b r) = r.
Proof. destruct r; simpl; intros ->; reflexivity. Qed.

Section Calls.

Variable E : Env.

(** A call that finds a navigation in flight. *)
Lemma navigate_busy depth p options s :
  isNavigating (router s) = true ->
  navigate E (S depth) p options s
  = (Normal VFalse, emit (Console WarnInProgress) s).
Proof.
  intros H. simpl. unfold navigateCall, bind, this, read. simpl.
  rewrite H. reflexivity.
Qed.

(** A call that finds the router idle: clock read, flag set, then the
    [try] with its [catch] and [finally]. *)
Lemma navigate_idle depth p options s :
  isNavigating (router s) = false ->
  navigate E (S depth) p options s
  = try_finally
      (try_catch
         (navigateTry E (fun q => navigate E depth q noOptions)
                      (clock E (ticks s)) p options)
         (fun error =>
            console (ErrNavigation error) ;;
            handleError E "navigation" error p ;;
            ret VFalse))
      (assign (with_isNavigating false))
      (on_router (with_isNavigating true)
         (mkState (router s) (location s) (entries s) (S (ticks s)) (trace s))).
Proof.
  intros H. simpl. unfold navigateCall, bind at 1, this, read. simpl.
  rewrite H. reflexivity.
Qed.

(** C3. While a navigation is in flight, [navigate] returns [false] and the
    controller (current and previous route, history, route table and every
    other field) is exactly as it was; the call only logs a warning. *)
Theorem navigate_rejected_while_navigating depth p options s :
  isNavigating (router s) = true ->
  navigate E (S depth) p options s
  = (Normal VFalse, emit (Console WarnInProgress) s)
  /\ router (snd (navigate E (S depth) p options s)) = router s.
Proof.
  intros H. rewrite navigate_busy by assumption. split; reflexivity.
Qed.

(** The [finally] block clears the flag on every way out. *)
Lemma navigate_clears_flag depth p options s :
  isNavigating (router s) = false ->
  isNavigating (router (snd (navigate E depth p options s))) = false.
Proof.
  intros H. destruct depth as [|depth]; [exact H|].
  rewrite navigate_idle by assumption.
  unfold try_finally.
  destruct (try_catch _ _ _) as [r s']. reflexivity.
Qed.

(** C2. A call to [navigate] that starts a navigation leaves the flag
    [isNavigating] false when it completes, whatever the callbacks return or
    throw and whichever browser operation fails. *)
Theorem navigate_leaves_idle depth p options s :
  isNavigating (router s) = false ->
  isNavigating (router (snd (navigate E depth p options s))) = false.
Proof. apply navigate_clears_flag. Qed.

(** The shortcut of the same-route check. *)
Lemma same_route_shortcut depth p options s route :
  isNavigating (router s) = false ->
  StrMap.get (routes (router s)) (normalizePath (config (router s)) p) = Some route ->
  currentRoute (router s) = Some (normalizePath (config (router s)) p) ->
  force options = false ->
  navigate E (S depth) p options s
  = (Normal VTrue,
     mkState (router s) (location s) (entries s) (S (ticks s))
             (Console LogAlreadyOnTarget :: trace s)).
Proof.
  intros Hidle Hfound Hcur Hforce.
  rewrite navigate_idle by assumption.
  destruct s as [r l n t tr]; destruct r; simpl in *; subst.
  unfold try_finally, try_catch, navigateTry, bind, this, read, console,
    assign, update, ret, on_router, emit. simpl.
  rewrite Hfound, Hforce. simpl. rewrite String.eqb_refl. reflexivity.
Qed.

(** C5 (amended). An idle router asked for the registered route it is
    already on, without [force], answers [true] and changes nothing: the
    controller (current and previous route, history and the rest), the
    address and the browser history are as before, and the trace only gains
    the log line. *)
Theorem navigate_same_route_noop depth p options s route :
  isNavigating (router s) = false ->
  StrMap.get (routes (router s)) (normalizePath (config (router s)) p) = Some route ->
  currentRoute (router s) = Some (normalizePath (config (router s)) p) ->
  force options = false ->
  fst (navigate E (S depth) p options s) = Normal VTrue
  /\ router (snd (navigate E (S depth) p options s)) = router s
  /\ List.length (history (router (snd (navigate E (S depth) p options s))))
     = List.length (history (router s))
  /\ location (snd (navigate E (S depth) p options s)) = location s
  /\ entries (snd (navigate E (S depth) p options s)) = entries s
  /\ trace (snd (navigate E (S depth) p options s))
     = Console LogAlreadyOnTarget :: trace s.
Proof.
  intros Hidle Hfound Hcur Hforce.
  rewrite (same_route_shortcut depth p options s route) by assumption.
  repeat split; reflexivity.
Qed.

End Calls.

(** C5 (as stated) fails: the route is looked up before the current route
    is compared.  The router is at "about" and idle, and the route "about"
    has been removed; [navigate("about")], without [force], names the
    current route and answers [false]. *)
Lemma current_route_once_removed_is_refused :
  isNavigating (router Scene.orphaned) = false
  /\ currentRoute (router Scene.orphaned)
     = Some (normalizePath (config (router Scene.orphaned)) (PString "about"))
  /\ force noOptions = false
  /\ fst (navigate Sample.benign 2 (PString "about") noOptions Scene.orphaned)
     <> Normal VTrue
  /\ fst (navigate Sample.benign 2 (PString "about") noOptions Scene.orphaned)
     = Normal VFalse.
Proof. vm_compute. repeat split; discriminate. Qed.

(** *** The relations of the vocabulary are kept *)

Ltac relation_facts R :=
  intros; unfold keeps, R, bounded in *; simpl in *;
  try solve [intuition congruence].

Section Relations.

Variable E : Env.

Lemma position_navigateSteps startTime p route options :
  keeps position_fixed (navigateSteps E startTime p route options).
Proof.
  apply Keeping.keeps_navigateSteps;
    try apply Keeping.keeps_addToHistory;
    relation_facts position_fixed.
Qed.

Lemma table_navigate depth p options :
  keeps table_fixed (navigate E depth p options).
Proof.
  apply Keeping.keeps_navigate;
    try apply Keeping.keeps_addToHistory;
    relation_facts table_fixed.
Qed.

Lemma quiet_refl s : quiet s s.
Proof. unfold quiet. intuition. exists []. split; reflexivity. Qed.

Lemma quiet_trans a b c : quiet a b -> quiet b c -> quiet a c.
Proof.
  unfold quiet.
  intros (H1 & H2 & H3 & n1 & H4 & H5) (G1 & G2 & G3 & n2 & G4 & G5).
  repeat split; try congruence.
  exists (n2 ++ n1). rewrite G4, H4, app_assoc, forallb_app, G5, H5.
  split; reflexivity.
Qed.

Lemma quiet_emit e s : calm e = true -> quiet s (emit e s).
Proof.
  intros H. unfold quiet. simpl. repeat split.
  exists [e]. simpl. rewrite H. split; reflexivity.
Qed.

Lemma quiet_runBeforeListeners p route :
  keeps quiet (runBeforeListeners E p route).
Proof.
  apply Keeping.keeps_runBeforeListeners; intros;
    first [ apply quiet_refl
          | eapply quiet_trans; eassumption
          | apply quiet_emit; reflexivity ].
Qed.

End Relations.

(** *** Where a call that answers [true] leaves the router *)

Lemma bind_normal {A B} (c : M A) (k : A -> M B) s v s' :
  bind c k s = (Normal v, s') ->
  exists a s1, c s = (Normal a, s1) /\ k a s1 = (Normal v, s').
Proof.
  unfold bind. destruct (c s) as [[a|e] s1]; [eauto|discriminate].
Qed.

Lemma same_route_true current p :
  same_route current p = true -> current = Some p.
Proof.
  destruct current as [c|]; simpl; [|discriminate].
  intros H. apply String.eqb_eq in H. now subst.
Qed.

Tactic Notation "open_bind" hyp(H) "as" ident(a) ident(s1) ident(Hc) :=
  apply bind_normal in H as (a & s1 & Hc & H).

(** A bind whose first computation is a read, a log or an assignment. *)
Ltac prim_bind H :=
  let a := fresh "a" in
  let s1 := fresh "s" in
  let Hc := fresh "Hc" in
  apply bind_normal in H as (a & s1 & Hc & H);
  unfold this, read, console, assign, update, ret in Hc;
  injection Hc as <- <-.

Section Landing.

Variable E : Env.

Lemma findSimilarRoute_pure p s : snd (findSimilarRoute p s) = s.
Proof.
  unfold findSimilarRoute, bind, this, read. simpl.
  destruct p; try reflexivity;
    destruct (StrMap.keys (routes (router s))); reflexivity.
Qed.

(** [handleNotFound] reaches the method it is given with the flag as it
    found it. *)
Lemma handleNotFound_calls nested p s v s' :
  handleNotFound nested p s = (Normal v, s') ->
  exists q s0,
    nested q s0 = (Normal v, s') /\ router s0 = router s.
Proof.
  unfold handleNotFound. intros H.
  prim_bind H.
  open_bind H as similarRoute s1 Hfind.
  pose proof (findSimilarRoute_pure p (emit (Console (WarnNotFoundRedirect p)) s)) as Hp.
  rewrite Hfind in Hp. simpl in Hp. subst s1.
  destruct similarRoute as [similar|].
  - destruct (truthy similar); prim_bind H; eauto.
  - prim_bind H. eauto.
Qed.

Lemma navigateTry_true nested startTime p options s s' :
  (forall q s0 s1, isNavigating (router s0) = true ->
                   nested q s0 <> (Normal VTrue, s1)) ->
  isNavigating (router s) = true ->
  navigateTry E nested startTime p options s = (Normal VTrue, s') ->
  currentRoute (router s') = Some (normalizePath (config (router s)) p)
  /\ exists route,
       StrMap.get (routes (router s)) (normalizePath (config (router s)) p)
       = Some route.
Proof.
  intros Hnested Hbusy H. unfold navigateTry in H.
  prim_bind H. cbv zeta in H. prim_bind H.
  destruct (StrMap.get _ _) as [route|].
  - split; [|now exists route].
    prim_bind H.
    destruct (same_route _ _ && negb _) eqn:Hsame.
    + prim_bind H. prim_bind H. injection H as <-.
      simpl. apply andb_prop in Hsame as [Hsame _].
      now apply same_route_true.
    + prim_bind H.
      open_bind H as beforeResult s1 Hbefore.
      destruct (is_false beforeResult).
      { prim_bind H. discriminate H. }
      open_bind H as guardResult s2 Hguard.
      destruct (is_false guardResult).
      { prim_bind H. discriminate H. }
      open_bind H as u s3 Hurl. prim_bind H.
      pose proof (position_navigateSteps E startTime
                    (normalizePath (config (router s)) p) route options
                    (on_router (with_currentRoute
                                  (Some (normalizePath (config (router s)) p))) s3))
        as Hpos.
      rewrite H in Hpos. exact Hpos.
  - prim_bind H.
    apply handleNotFound_calls in H as (q & s0 & H & Hr).
    exfalso. apply (Hnested q s0 s'); [|exact H].
    rewrite Hr. exact Hbusy.
Qed.

(** A call of [navigate] that answers [true] found the normalized path in
    the route table and leaves the router on it. *)
Lemma navigate_true_lands depth p options s :
  fst (navigate E depth p options s) = Normal VTrue ->
  currentRoute (router (snd (navigate E depth p options s)))
  = Some (normalizePath (config (router s)) p)
  /\ exists route,
       StrMap.get (routes (router s)) (normalizePath (config (router s)) p)
       = Some route.
Proof.
  destruct depth as [|depth]; [discriminate|].
  destruct (isNavigating (router s)) eqn:Hflag.
  - rewrite navigate_busy by assumption. discriminate.
  - rewrite navigate_idle by assumption.
    unfold try_finally, try_catch.
    destruct (navigateTry _ _ _ _ _ _) as [[v|e] s1] eqn:Htry.
    + simpl. intros [= ->].
      apply navigateTry_true in Htry; [exact Htry| |reflexivity].
      intros q s0 s2 Hb. destruct depth as [|depth]; [discriminate|].
      rewrite navigate_busy by assumption. discriminate.
    + unfold bind.
      destruct (console _ _) as [[u|e1] s2]; [|discriminate].
      destruct (handleError _ _ _ _ _) as [[u'|e2] s3]; discriminate.
Qed.

(** The example of the specification: the same path twice in a row.  When
    the first call answers [true], the second, without [force], answers
    [true] and leaves the controller as the first left it. *)
Lemma navigate_twice depth depth' p options options' s :
  isNavigating (router s) = false ->
  fst (navigate E depth p options s) = Normal VTrue ->
  force options' = false ->
  let s1 := snd (navigate E depth p options s) in
  fst (navigate E (S depth') p options' s1) = Normal VTrue
  /\ router (snd (navigate E (S depth') p options' s1)) = router s1.
Proof.
  intros Hidle Htrue Hforce s1.
  destruct (navigate_true_lands depth p options s Htrue) as (Hcur & route & Hroute).
  destruct (table_navigate E depth p options s) as (Hroutes & Hconfig & _).
  fold s1 in Hcur, Hroutes, Hconfig.
  rewrite (same_route_shortcut E depth' p options' s1 route).
  - split; reflexivity.
  - apply navigate_clears_flag, Hidle.
  - now rewrite Hroutes, Hconfig.
  - now rewrite Hconfig.
  - exact Hforce.
Qed.

End Landing.

(** *** Paths that name no route *)

Lemma bind_this {A B} (f : Router -> A) (k : A -> M B) s :
  bind (this f) k s = k (f (router s)) s.
Proof. reflexivity. Qed.

Lemma bind_console {B} (m : message) (k : unit -> M B) s :
  bind (console m) k s = k tt (emit (Console m) s).
Proof. reflexivity. Qed.

Lemma bind_assign {B} (f : Router -> Router) (k : unit -> M B) s :
  bind (assign f) k s = k tt (on_router f s).
Proof. reflexivity. Qed.

Section NotFound.

Variable E : Env.

(** For a string, [handleNotFound] calls [navigate] back on the fallback
    target, having touched nothing but the console. *)
Lemma handleNotFound_string nested x s :
  exists s0,
    handleNotFound nested (PString x) s
    = nested (PString (fallbackTarget (router s) x)) s0
    /\ quiet s s0 /\ ticks s0 = ticks s.
Proof.
  unfold handleNotFound, findSimilarRoute, fallbackTarget, bind, this, read,
    console, update, ret. simpl.
  destruct (Fuzzy.findSimilarRouteIn _ x) as [similar|];
    [destruct (truthy similar)|];
    eexists; (split; [reflexivity|]); split; try reflexivity.
  - eapply quiet_trans; apply quiet_emit; reflexivity.
  - apply quiet_emit; reflexivity.
  - apply quiet_emit; reflexivity.
Qed.

Lemma navigateTry_unregistered nested startTime x options s :
  StrMap.get (routes (router s)) (normalizePath (config (router s)) (PString x)) = None ->
  exists s0,
    navigateTry E nested startTime (PString x) options s
    = nested (PString (fallbackTarget (router s) x)) s0
    /\ quiet s s0.
Proof.
  intros Hnone. unfold navigateTry.
  rewrite bind_this. cbv beta zeta. rewrite bind_this, Hnone, bind_console.
  destruct (handleNotFound_string nested x
              (emit (Console (WarnNotFound (PString x))) s))
    as (s0 & -> & Hq & _).
  exists s0. split; [reflexivity|].
  eapply quiet_trans; [|exact Hq]. apply quiet_emit; reflexivity.
Qed.

(** A string that names no route: the call back to [navigate] finds the
    flag set, so the call answers [false] and the router stays where it
    was. *)
Lemma navigate_unregistered depth x options s :
  isNavigating (router s) = false ->
  StrMap.get (routes (router s)) (normalizePath (config (router s)) (PString x)) = None ->
  fst (navigate E (S (S depth)) (PString x) options s) = Normal VFalse
  /\ router (snd (navigate E (S (S depth)) (PString x) options s)) = router s
  /\ location (snd (navigate E (S (S depth)) (PString x) options s)) = location s.
Proof.
  intros Hidle Hnone.
  rewrite navigate_idle by assumption.
  unfold try_finally, try_catch.
  match goal with
  | |- context [navigateTry E ?n ?t (PString x) options ?s1] =>
      destruct (navigateTry_unregistered n t x options s1 Hnone)
        as (s0 & -> & Hr & Hl & He & _)
  end.
  rewrite navigate_busy by (rewrite Hr; reflexivity).
  simpl. rewrite Hr, Hl. simpl.
  rewrite flag_round_trip by assumption. repeat split; reflexivity.
Qed.

End NotFound.

(** C1 (as the code has it). On the site with home, about and contact,
    [navigate("abot")] finds the similar route "about" and
    [navigate("zzz")] finds none and turns to the default route "home"; in
    both cases the second [navigate] is refused because the first is in
    flight: the call answers [false] and the router is on no route. *)
Theorem fallback_navigation_is_refused :
  fallbackTarget (router Sample.site) "abot" = "about"
  /\ fst (navigate Sample.benign 2 (PString "abot") noOptions Sample.site) = Normal VFalse
  /\ currentRoute (router (snd (navigate Sample.benign 2 (PString "abot") noOptions Sample.site))) = None
  /\ fallbackTarget (router Sample.site) "zzz" = "home"
  /\ fst (navigate Sample.benign 2 (PString "zzz") noOptions Sample.site) = Normal VFalse
  /\ currentRoute (router (snd (navigate Sample.benign 2 (PString "zzz") noOptions Sample.site))) = None.
Proof. vm_compute. repeat split; reflexivity. Qed.

(** *** Guards *)

Section Guards.

Variable E : Env.

(** The before-listeners answer [false] or [true], never throw, and answer
    [false] as soon as one of them does. *)
Lemma runBeforeLoop_result ls p route s :
  (fst (runBeforeLoop E ls p route s) = Normal VFalse
   \/ fst (runBeforeLoop E ls p route s) = Normal VTrue)
  /\ ((exists l, In l ls
                 /\ call E l (ListenerArgs p route (currentRoute (router s)))
                    = Normal VFalse) ->
      fst (runBeforeLoop E ls p route s) = Normal VFalse).
Proof.
  revert s. induction ls as [|l ls IH]; intros s.
  - split; [now right|]. intros (l & [] & _).
  - simpl. rewrite bind_this.
    unfold bind at 1, try_catch, bind at 1, invoke.
    destruct (call E l (ListenerArgs p route (currentRoute (router s))))
      as [v|e] eqn:Hcall.
    + destruct v; simpl.
      * split; [now left|reflexivity].
      * destruct (IH (emit (Called l (ListenerArgs p route (currentRoute (router s)))) s))
          as [H1 H2].
        split; [exact H1|].
        intros (l' & [<-|Hin] & Hl'); [congruence|].
        apply H2. exists l'. split; assumption.
      * destruct (IH (emit (Called l (ListenerArgs p route (currentRoute (router s)))) s))
          as [H1 H2].
        split; [exact H1|].
        intros (l' & [<-|Hin] & Hl'); [congruence|].
        apply H2. exists l'. split; assumption.
    + simpl.
      match goal with
      | |- context [runBeforeLoop E ls p route ?s1] =>
          destruct (IH s1) as [H1 H2]
      end.
      split; [exact H1|].
      intros (l' & [<-|Hin] & Hl'); [congruence|].
      apply H2. exists l'. split; assumption.
Qed.

Lemma runGuard_false guard route s :
  call E guard (GuardArgs route) = Normal VFalse ->
  runGuard E guard route s
  = (Normal VFalse, emit (Called guard (GuardArgs route)) s).
Proof.
  intros H. unfold runGuard, try_catch, invoke. rewrite H. reflexivity.
Qed.

(** The [try] block when a listener or the guard answers [false]: the
    previous route has been overwritten, nothing else. *)
Lemma navigateTry_vetoed nested startTime p options s route :
  let normalizedPath := normalizePath (config (router s)) p in
  StrMap.get (routes (router s)) normalizedPath = Some route ->
  same_route (currentRoute (router s)) normalizedPath && negb (force options) = false ->
  vetoed E (router s) normalizedPath route ->
  exists s',
    navigateTry E nested startTime p options s
    = (Normal VFalse, on_router (with_isNavigating false) s')
    /\ quiet (on_router (with_previousRoute (currentRoute (router s))) s) s'.
Proof.
  intros np Hfound Hsame Hveto. unfold navigateTry.
  rewrite bind_this. cbv beta zeta. fold np.
  rewrite bind_this, Hfound, bind_this, Hsame, bind_assign.
  set (s2 := on_router (with_previousRoute (currentRoute (router s))) s).
  pose proof (quiet_runBeforeListeners E np route s2) as Hq.
  destruct (runBeforeLoop_result (beforeRoute (listeners (router s2))) np route s2)
    as [Hres Hstop].
  change (runBeforeLoop E (beforeRoute (listeners (router s2))) np route s2)
    with (runBeforeListeners E np route s2) in Hres, Hstop.
  unfold bind at 1.
  destruct (runBeforeListeners E np route s2) as [beforeResult s3].
  simpl in Hres, Hstop, Hq.
  destruct Hres as [-> | ->].
  - simpl. rewrite bind_assign. exists s3. split; [reflexivity|exact Hq].
  - destruct Hveto as [Hl|(guard & Hg & Hcall)];
      [specialize (Hstop Hl); discriminate|].
    simpl. rewrite Hg. unfold bind at 1.
    rewrite (runGuard_false _ _ _ Hcall). simpl. rewrite bind_assign.
    eexists. split; [reflexivity|].
    eapply quiet_trans; [exact Hq|]. apply quiet_emit. reflexivity.
Qed.

(** A navigation that a before-listener or the route's guard refuses: the
    call answers [false]; the current route, the history, the route table,
    the address and the browser history are as before, no handler ran and
    no URL was pushed.  The previous route, though, now names the current
    one. *)
Lemma navigate_vetoed depth p options s route :
  let normalizedPath := normalizePath (config (router s)) p in
  isNavigating (router s) = false ->
  StrMap.get (routes (router s)) normalizedPath = Some route ->
  same_route (currentRoute (router s)) normalizedPath && negb (force options) = false ->
  vetoed E (router s) normalizedPath route ->
  fst (navigate E (S depth) p options s) = Normal VFalse
  /\ router (snd (navigate E (S depth) p options s))
     = with_previousRoute (currentRoute (router s)) (router s)
  /\ location (snd (navigate E (S depth) p options s)) = location s
  /\ entries (snd (navigate E (S depth) p options s)) = entries s
  /\ exists new,
       trace (snd (navigate E (S depth) p options s)) = new ++ trace s
       /\ forallb calm new = true.
Proof.
  intros np Hidle Hfound Hsame Hveto.
  rewrite navigate_idle by assumption.
  unfold try_finally, try_catch.
  match goal with
  | |- context [navigateTry E ?n ?t p options ?s1] =>
      destruct (navigateTry_vetoed n t p options s1 route Hfound Hsame Hveto)
        as (s' & -> & Hr & Hl & He & new & Ht & Hcalm)
  end.
  simpl in *. rewrite Hr, Hl, He, Ht.
  destruct s as [r l n t tr]; destruct r; simpl in *; subst.
  repeat split. exists new. split; [reflexivity|assumption].
Qed.

End Guards.

(** C4 (as the code has it). The site has a before-listener that answers
    [false] for "about"; the router is at home, having come from contact.
    [navigate("about")] answers [false]; the current route, the history and
    the address are as before, but the previous route has changed from
    "contact" to "home". *)
Theorem vetoed_navigation_overwrites_previous_route :
  let before := Sample.guarded_site in
  let after := snd (navigate Sample.strict 2 (PString "about") noOptions before) in
  fst (navigate Sample.strict 2 (PString "about") noOptions before) = Normal VFalse
  /\ currentRoute (router after) = currentRoute (router before)
  /\ history (router after) = history (router before)
  /\ location after = location before
  /\ previousRoute (router before) = Some "contact"
  /\ previousRoute (router after) = Some "home"
  /\ router after <> router before.
Proof.
  vm_compute. repeat split; try reflexivity. discriminate.
Qed.

End NavigationFacts.

(** ** Navigations that go through *)

Module Succeeding.
Import NavigationFacts.

Lemma yields_ret {A} (a : A) (P : A -> Prop) : P a -> yields (ret a) P.
Proof. intros H s. exists a. split; [reflexivity|exact H]. Qed.

Lemma yields_bind {A B} (c : M A) (k : A -> M B) (Q : A -> Prop) (P : B -> Prop) :
  yields c Q -> (forall a, Q a -> yields (k a) P) -> yields (bind c k) P.
Proof.
  intros Hc Hk s. unfold bind. destruct (Hc s) as (a & Ha & HQ).
  destruct (c s) as [r s1]. simpl in Ha. subst r. apply (Hk a HQ).
Qed.

Lemma yields_try_catch {A} (c : M A) (h : exn -> M A) (P : A -> Prop) :
  yields c P -> yields (try_catch c h) P.
Proof.
  intros Hc s. unfold try_catch. destruct (Hc s) as (a & Ha & HP).
  destruct (c s) as [r s1]. simpl in Ha. subst r. exists a. split; [reflexivity|exact HP].
Qed.

Lemma yields_when (b : bool) (c : M unit) :
  yields c (fun _ => True) -> yields (when b c) (fun _ => True).
Proof. intros Hc. destruct b; [exact Hc|]. now apply yields_ret. Qed.

Lemma yields_this {A} (f : Router -> A) : yields (this f) (fun _ => True).
Proof. intros s. eexists. split; [reflexivity|exact I]. Qed.

Lemma yields_read {A} (f : State -> A) : yields (read f) (fun _ => True).
Proof. intros s. eexists. split; [reflexivity|exact I]. Qed.

Lemma yields_update (f : State -> State) : yields (update f) (fun _ => True).
Proof. intros s. exists tt. split; [reflexivity|exact I]. Qed.

Lemma yields_assign (f : Router -> Router) : yields (assign f) (fun _ => True).
Proof. apply yields_update. Qed.

Lemma yields_console (m : message) : yields (console m) (fun _ => True).
Proof. apply yields_update. Qed.

Create HintDb yielding.

#[export] Hint Resolve yields_this yields_read yields_update yields_assign
  yields_console : yielding.

Ltac yielding_step :=
  match goal with
  | H : _ |- _ => progress cbv beta in H
  | H : is_false ?a = false |- context [is_false ?a] => rewrite H
  | |- yields (bind _ _) _ => eapply yields_bind; [|intros ? ?]
  | |- yields (try_catch _ _) _ => apply yields_try_catch
  | |- yields (when _ _) _ => apply yields_when
  | |- yields (ret _) _ => apply yields_ret; first [reflexivity | exact I]
  | |- yields (match ?x with _ => _ end) _ => destruct x
  | |- yields _ _ => progress cbv beta zeta
  end.

Ltac yielding := repeat first [ solve [eauto with yielding] | yielding_step ].

Section Benevolent.

Variable E : Env.
Hypothesis kind : benevolent E.

Lemma yields_perform op : yields (perform E op) (fun _ => True).
Proof.
  intros s. unfold perform. rewrite (proj1 kind op).
  exists tt. split; [reflexivity|exact I].
Qed.

Lemma yields_invoke f a : yields (invoke E f a) (fun v => is_false v = false).
Proof.
  intros s. unfold invoke. destruct (proj2 kind f a) as (v & -> & Hv).
  exists v. split; [reflexivity|exact Hv].
Qed.

Lemma yields_now : yields (now E) (fun _ => True).
Proof. intros s. eexists. split; [reflexivity|exact I]. Qed.

#[local] Hint Resolve yields_perform yields_invoke yields_now : yielding.

Lemma yields_runBeforeLoop ls p route :
  yields (runBeforeLoop E ls p route) (fun v => is_false v = false).
Proof.
  induction ls as [|l ls IH]; simpl; [now apply yields_ret|].
  eapply yields_bind; [apply yields_this|]. intros current _.
  eapply (yields_bind _ _ (fun b => b = false)).
  - apply yields_try_catch.
    eapply yields_bind; [apply yields_invoke|].
    intros v Hv. now apply yields_ret.
  - intros b ->. exact IH.
Qed.

Lemma yields_runBeforeListeners p route :
  yields (runBeforeListeners E p route) (fun v => is_false v = false).
Proof.
  unfold runBeforeListeners. eapply yields_bind; [apply yields_this|].
  intros ls _. apply yields_runBeforeLoop.
Qed.

Lemma yields_runAfterLoop ls p route :
  yields (runAfterLoop E ls p route) (fun _ => True).
Proof. induction ls as [|l ls IH]; simpl; yielding. Qed.

Lemma yields_runAfterListeners p route :
  yields (runAfterListeners E p route) (fun _ => True).
Proof.
  unfold runAfterListeners. eapply yields_bind; [apply yields_this|].
  intros ls _. apply yields_runAfterLoop.
Qed.

Lemma yields_runGuard guard route :
  yields (runGuard E guard route) (fun v => is_false v = false).
Proof. unfold runGuard. yielding. Qed.

Lemma yields_updateURL p : yields (updateURL E p) (fun _ => True).
Proof. unfold updateURL. yielding. Qed.

Lemma yields_addToHistory p route : yields (addToHistory E p route) (fun _ => True).
Proof. unfold addToHistory. yielding. Qed.

Lemma yields_handleTransition route : yields (handleTransition E route) (fun _ => True).
Proof. unfold handleTransition. yielding. Qed.

Lemma yields_executeRoute route : yields (executeRoute E route) (fun _ => True).
Proof. unfold executeRoute. yielding. Qed.

Lemma yields_scrollToSection p : yields (scrollToSection E p) (fun _ => True).
Proof. unfold scrollToSection. yielding. Qed.

Lemma yields_trackNavigation p d : yields (trackNavigation E p d) (fun _ => True).
Proof. unfold trackNavigation. yielding. Qed.

Lemma yields_trackPageView p route : yields (trackPageView E p route) (fun _ => True).
Proof. unfold trackPageView, dispatchEvent. yielding. Qed.

#[local] Hint Resolve yields_runBeforeListeners yields_runAfterListeners
  yields_runGuard yields_updateURL yields_addToHistory yields_handleTransition
  yields_executeRoute yields_scrollToSection yields_trackNavigation
  yields_trackPageView : yielding.

Lemma yields_navigateSteps startTime p route options :
  yields (navigateSteps E startTime p route options) (fun v => v = VTrue).
Proof.
  unfold navigateSteps, updatePageMeta, updateNavigationState, dispatchEvent.
  yielding.
Qed.

(** The [try] block for a registered route, in a benevolent environment. *)
Lemma navigateTry_succeeds nested startTime p options s route :
  StrMap.get (routes (router s)) (normalizePath (config (router s)) p) = Some route ->
  fst (navigateTry E nested startTime p options s) = Normal VTrue.
Proof.
  intros Hfound. unfold navigateTry.
  rewrite bind_this. cbv beta zeta. rewrite bind_this, Hfound, bind_this.
  match goal with
  | |- fst (?c s) = _ =>
      assert (Hy : yields c (fun v => v = VTrue));
        [|destruct (Hy s) as (v & Hv & ->); exact Hv]
  end.
  pose proof yields_navigateSteps.
  yielding.
Qed.

(** In a benevolent environment an idle router asked for a registered route
    answers [true]. *)
Lemma navigate_succeeds depth p options s route :
  isNavigating (router s) = false ->
  StrMap.get (routes (router s)) (normalizePath (config (router s)) p) = Some route ->
  fst (navigate E (S depth) p options s) = Normal VTrue.
Proof.
  intros Hidle Hfound. rewrite navigate_idle by assumption.
  unfold try_finally, try_catch.
  match goal with
  | |- context [navigateTry E ?n ?t p options ?s1] =>
      pose proof (navigateTry_succeeds n t p options s1 route Hfound) as Htry;
      destruct (navigateTry E n t p options s1) as [r s2]
  end.
  simpl in Htry. subst r. reflexivity.
Qed.

End Benevolent.

End Succeeding.

(** ** Calls without a path *)

Module DefaultRouteFacts.
Import NavigationFacts Succeeding.


End DefaultRouteFacts.

(** ** The history list *)

Module HistoryFacts.
Import NavigationFacts.

Lemma sb_refl s : stays_bounded s s.
Proof. unfold stays_bounded. auto. Qed.

Lemma sb_trans a b c : stays_bounded a b -> stays_bounded b c -> stays_bounded a c.
Proof. unfold stays_bounded. auto. Qed.

(** Writes that leave the history and its limit alone. *)
Lemma sb_same s s' :
  history (router s') = history (router s) ->
  maxHistoryLength (router s') = maxHistoryLength (router s) ->
  stays_bounded s s'.
Proof. unfold stays_bounded, bounded. intros -> ->. auto. Qed.

Lemma sb_shorter s (f : Router -> list HistoryEntry) :
  (forall r, List.length (f r) <= List.length (history r)) ->
  stays_bounded s (on_router (fun r => with_history (f r) r) s).
Proof.
  intros H. unfold stays_bounded, bounded. simpl.
  intros [Hmax Hlen]. specialize (H (router s)). split; [assumption|lia].
Qed.

Lemma removelast_length {A} (l : list A) :
  List.length (removelast l) <= List.length l.
Proof.
  induction l as [|x l IH]; [auto|].
  simpl. destruct l; simpl in *; lia.
Qed.

Section Bound.

Variable E : Env.

(** What [addToHistory] does, case by case. *)
Lemma addToHistory_duplicate p route s e :
  newest (history (router s)) = Some e ->
  h_path e = p ->
  addToHistory E p route s = (Normal tt, s).
Proof.
  intros Hlast Hp. unfold addToHistory. rewrite bind_this, Hlast, Hp.
  rewrite String.eqb_refl. reflexivity.
Qed.

Lemma addToHistory_appends p route s :
  match newest (history (router s)) with
  | Some e => String.eqb (h_path e) p
  | None => false
  end = false ->
  history (router (snd (addToHistory E p route s)))
  = let h := history (router s) ++ [mkEntry p (title route) (clock E (ticks s))] in
    if maxHistoryLength (router s) <? List.length h then tl h else h.
Proof.
  intros Hnew. unfold addToHistory. rewrite bind_this, Hnew.
  unfold bind, now, assign, update, when, this, read, ret. simpl.
  destruct (maxHistoryLength (router s) <? _); reflexivity.
Qed.

Lemma stays_addToHistory p route : keeps stays_bounded (addToHistory E p route).
Proof.
  intros s [Hmax Hlen].
  assert (Hlimit : maxHistoryLength (router (snd (addToHistory E p route s)))
                   = maxHistoryLength (router s)).
  { apply (Keeping.keeps_addToHistory E
             (fun a b => maxHistoryLength (router b) = maxHistoryLength (router a)));
      intros; simpl; congruence. }
  split; [congruence|].
  destruct (match newest (history (router s)) with
            | Some e => String.eqb (h_path e) p
            | None => false
            end) eqn:Hnew.
  - unfold addToHistory. rewrite bind_this, Hnew. exact Hlen.
  - rewrite addToHistory_appends by assumption. cbv zeta.
    rewrite Hmax, length_app. simpl.
    destruct (Nat.ltb_spec 50 (List.length (history (router s)) + 1)).
    + destruct (history (router s)); simpl in *; [lia|].
      rewrite length_app. simpl. lia.
    + rewrite length_app. simpl. lia.
Qed.

Lemma stays_navigate depth p options :
  keeps stays_bounded (navigate E depth p options).
Proof.
  apply Keeping.keeps_navigate;
    try apply stays_addToHistory;
    try exact sb_refl; try exact sb_trans;
    intros; apply sb_same; reflexivity.
Qed.

#[local] Hint Resolve sb_refl sb_trans stays_navigate : keeping.

Ltac bounded_step :=
  first [ exact sb_refl | exact sb_trans
        | match goal with |- forall _, _ => intro end
        | apply stays_navigate
        | apply sb_same; reflexivity
        | solve [auto with keeping]
        | apply Keeping.keeps_console
        | apply Keeping.keeps_perform
        | apply Keeping.keeps_handleError
        | apply Keeping.keeps_dispatchEvent
        | Keeping.keeping_step ].

Lemma stays_back depth : keeps stays_bounded (back E depth).
Proof.
  unfold back. repeat bounded_step.
  apply sb_shorter. intros r. apply removelast_length.
Qed.

(** Every operation on the router keeps the history within its bound. *)
Lemma stays_operate depth o : keeps stays_bounded (operate E depth o).
Proof.
  destruct o; simpl.
  - unfold addRoute. repeat bounded_step.
  - unfold removeRoute. repeat bounded_step.
  - repeat bounded_step.
  - apply Keeping.keeps_detached, stays_back.
  - unfold forward. repeat bounded_step.
  - unfold replace. repeat bounded_step.
  - unfold on. repeat bounded_step.
    apply sb_same; simpl; repeat destruct (String.eqb _ _); reflexivity.
  - unfold off. repeat bounded_step.
    apply sb_same; simpl; repeat destruct (String.eqb _ _); reflexivity.
  - unfold clearHistory. apply Keeping.keeps_assign. intros s [Hmax _].
    split; [exact Hmax|simpl; lia].
  - unfold cleanup. repeat bounded_step.
    intros [Hmax _]. split; [exact Hmax|simpl; lia].
  - unfold init, loadInitialRoute. repeat bounded_step.
  - unfold set_hash, handleHashChange. repeat bounded_step.
  - unfold set_hash, handlePopState. repeat bounded_step.
  - unfold handleLinkClick. repeat bounded_step.
  - unfold validateCurrentRoute. repeat bounded_step.
Qed.

Lemma stays_apply depth o s :
  bounded (router s) -> bounded (router (apply E depth o s)).
Proof. apply (stays_operate depth o s). Qed.

Lemma stays_run depth ops s :
  bounded (router s) -> bounded (router (run E depth ops s)).
Proof.
  revert s. induction ops as [|o ops IH]; intros s Hs; [exact Hs|].
  simpl. apply IH, stays_apply, Hs.
Qed.

End Bound.

(** C6. After any sequence of operations on a new router the history holds
    at most 50 entries; appending to a history of 50 drops the oldest entry
    and puts the new one last; and a path equal to that of the newest entry
    is not appended. *)
Theorem history_bounded_fifo_without_repeats :
  (forall E depth cfg loc n ops,
      List.length (history (router (run E depth ops (initialState cfg loc n)))) <= 50)
  /\ (forall E p route s,
        maxHistoryLength (router s) = 50 ->
        List.length (history (router s)) = 50 ->
        (forall e, newest (history (router s)) = Some e -> h_path e <> p) ->
        history (router (snd (addToHistory E p route s)))
        = tl (history (router s)) ++ [mkEntry p (title route) (clock E (ticks s))])
  /\ (forall E p route s e,
        newest (history (router s)) = Some e ->
        h_path e = p ->
        snd (addToHistory E p route s) = s).
Proof.
  split; [|split].
  - intros E depth cfg loc n ops.
    apply (stays_run E depth ops (initialState cfg loc n)).
    split; [reflexivity|simpl; lia].
  - intros E p route s Hmax Hfull Hnew.
    rewrite addToHistory_appends.
    + cbv zeta. rewrite Hmax, length_app, Hfull. simpl.
      destruct (history (router s)); [discriminate|reflexivity].
    + destruct (newest (history (router s))) as [e|]; [|reflexivity].
      apply String.eqb_neq. now apply Hnew.
  - intros E p route s e Hlast Hp.
    now rewrite (addToHistory_duplicate E p route s e).
Qed.

End HistoryFacts.

(** ** The route table *)

Module TableFacts.

Lemma get_set_same {V} (m : StrMap.t V) k v :
  StrMap.get (StrMap.set m k v) k = Some v.
Proof.
  induction m as [|[k' v'] m IH]; simpl.
  - now rewrite String.eqb_refl.
  - destruct (String.eqb k' k) eqn:Hk; simpl; rewrite Hk; [reflexivity|exact IH].
Qed.

(** [addRoute] files the route under the lower-cased path. *)
Lemma addRoute_registers x h options s :
  fst (addRoute (PString x) (Some h) options s) = Normal tt
  /\ exists route,
       StrMap.get (routes (router (snd (addRoute (PString x) (Some h) options s))))
                  (toLowerCase x) = Some route
       /\ path route = toLowerCase x /\ handler route = h.
Proof.
  unfold addRoute, bind, assign, update, console. simpl.
  split; [reflexivity|]. eexists. rewrite get_set_same.
  split; [reflexivity|]. split; reflexivity.
Qed.

(** For a path that is not empty and that [trim] leaves alone once in lower
    case, [hasRoute] finds the route right after [addRoute]. *)
Lemma addRoute_then_hasRoute x h options s :
  truthy x = true ->
  trimmed (toLowerCase x) ->
  hasRoute (router (snd (addRoute (PString x) (Some h) options s))) (PString x)
  = true.
Proof.
  intros Hx Htrim. unfold hasRoute, StrMap.has, normalizePath. rewrite Hx, Htrim.
  destruct (addRoute_registers x h options s) as (_ & route & -> & _).
  reflexivity.
Qed.

(** C7 (as the code has it). [addRoute(" about", handler)] succeeds and files
    the route under " about"; [hasRoute(" about")] trims the path, looks for
    "about" and answers [false].  Likewise for the empty path, which
    [hasRoute] replaces by the default route. *)
Theorem padded_path_is_not_found_after_addRoute :
  let added := addRoute (PString " about") (Some 1) noRouteOptions Sample.blank in
  let empty := addRoute (PString "") (Some 1) noRouteOptions Sample.blank in
  fst added = Normal tt
  /\ StrMap.keys (routes (router (snd added))) = [" about"]
  /\ hasRoute (router (snd added)) (PString " about") = false
  /\ fst empty = Normal tt
  /\ hasRoute (router (snd empty)) (PString "") = false.
Proof. vm_compute. repeat split; reflexivity. Qed.

End TableFacts.

(** ** The example of the misspelt path *)

Module TypoFacts.
Import Fuzzy SimilarityFacts NavigationFacts.

Lemma abuot_scores :
  calculateEditDistance "abuot" "about" = 2
  /\ calculateSimilarity "abuot" "about" = (3 # 5)%Q
  /\ Qgtb (calculateSimilarity "abuot" "about") threshold = false
  /\ Qgtb (calculateSimilarity "abuot" "home") threshold = false
  /\ Qgtb (calculateSimilarity "abuot" "contact") threshold = false.
Proof. vm_compute. repeat split; reflexivity. Qed.

(** C8 (as stated) fails: with home, about and contact registered, the edit
    distance between "abuot" and "about" is not 1, the similarity does not
    exceed the threshold, and the route that [handleNotFound] turns to is
    not "about". *)
Lemma abuot_is_not_redirected_to_about :
  calculateEditDistance "abuot" "about" <> 1
  /\ Qgtb (calculateSimilarity "abuot" "about") threshold <> true
  /\ findSimilarRouteIn (StrMap.keys (routes (router Sample.site))) "abuot"
     <> Some "about"
  /\ fallbackTarget (router Sample.site) "abuot" <> "about".
Proof. vm_compute. repeat split; discriminate. Qed.

(** C8 (amended). With exactly the routes home, about and contact
    registered, the edit distance between "abuot" and "about" is 2, the
    similarity is 3/5, which equals the threshold and so does not exceed it;
    [findSimilarRoute] finds no route and [handleNotFound] turns to the
    configured default route. *)
Theorem abuot_falls_back_to_default_route
  (E : Env) (nested : pathArg -> M value) (s : State) :
  (forall k, In k (StrMap.keys (routes (router s)))
             <-> k = "home" \/ k = "about" \/ k = "contact") ->
  calculateEditDistance "abuot" "about" = 2
  /\ (calculateSimilarity "abuot" "about" == threshold)%Q
  /\ Qgtb (calculateSimilarity "abuot" "about") threshold = false
  /\ findSimilarRoute (PString "abuot") s = (Normal None, s)
  /\ fallbackTarget (router s) "abuot" = defaultRoute (config (router s))
  /\ exists s0,
       handleNotFound nested (PString "abuot") s
       = nested (PString (defaultRoute (config (router s)))) s0
       /\ quiet s s0.
Proof.
  intros Hkeys.
  destruct abuot_scores as (Hd & Hs & Habout & Hhome & Hcontact).
  assert (Hnone : findSimilarRouteIn (StrMap.keys (routes (router s))) "abuot" = None).
  { apply findSimilarRouteIn_none. intros k Hk.
    apply Hkeys in Hk as [->|[->| ->]]; assumption. }
  assert (Htarget : fallbackTarget (router s) "abuot" = defaultRoute (config (router s)))
    by (unfold fallbackTarget; now rewrite Hnone).
  split; [exact Hd|]. split; [rewrite Hs; reflexivity|].
  split; [exact Habout|].
  split; [unfold findSimilarRoute, bind, this, read, ret; simpl; now rewrite Hnone|].
  split; [exact Htarget|].
  destruct (handleNotFound_string nested "abuot" s) as (s0 & H0 & Hq & _).
  exists s0. rewrite <- Htarget. split; assumption.
Qed.

End TypoFacts.

(** ** The statements at work on the sample sites *)

Module Witnesses.
Import Fuzzy NavigationFacts HistoryFacts TypoFacts.

Example edit_distance_kitten : calculateEditDistance "kitten" "sitting" = 3.
Proof. reflexivity. Qed.

Example edit_distance_transposition : calculateEditDistance "abuot" "about" = 2.
Proof. reflexivity. Qed.

Example similarity_one_missing_letter :
  calculateSimilarity "abot" "about" = (4 # 5)%Q.
Proof. reflexivity. Qed.

Example normalizePath_trims_and_lowers :
  normalizePath defaultConfig (PString "  About ") = "about".
Proof. reflexivity. Qed.

Example well_travelled_is_full :
  List.length (history (router Sample.well_travelled)) = 50.
Proof. vm_compute. reflexivity. Qed.

Lemma navigate_leaves_idle_witness :
  isNavigating (router Sample.site) = false
  /\ isNavigating
       (router (snd (navigate Sample.benign 2 (PString "about") noOptions Sample.site)))
     = false.
Proof.
  split; [reflexivity|].
  apply (navigate_leaves_idle Sample.benign 2 (PString "about") noOptions Sample.site).
  reflexivity.
Defined.

Lemma navigate_rejected_while_navigating_witness :
  isNavigating (router Sample.in_flight) = true
  /\ navigate Sample.benign 1 (PString "about") noOptions Sample.in_flight
     = (Normal VFalse, emit (Console WarnInProgress) Sample.in_flight)
  /\ router (snd (navigate Sample.benign 1 (PString "about") noOptions Sample.in_flight))
     = router Sample.in_flight.
Proof.
  split; [reflexivity|].
  apply (navigate_rejected_while_navigating Sample.benign 0 (PString "about")
           noOptions Sample.in_flight).
  reflexivity.
Defined.

Lemma navigate_same_route_noop_witness :
  currentRoute (router Sample.guarded_site) = Some "home"
  /\ fst (navigate Sample.strict 1 (PString "Home") noOptions Sample.guarded_site)
     = Normal VTrue
  /\ router (snd (navigate Sample.strict 1 (PString "Home") noOptions Sample.guarded_site))
     = router Sample.guarded_site.
Proof.
  split; [reflexivity|].
  destruct (navigate_same_route_noop Sample.strict 0 (PString "Home") noOptions
              Sample.guarded_site
              (mkRoute "home" 1 "Home" [] None None [] true "fade")
              eq_refl eq_refl eq_refl eq_refl)
    as (H1 & H2 & _).
  split; assumption.
Defined.

Lemma history_bounded_fifo_without_repeats_witness :
  List.length (history (router
     (run Sample.benign 2
          [AddRoute (PString "home") (Some 1) noRouteOptions;
           Navigate (PString "home") noOptions; Back]
          (initialState defaultConfig Sample.page 1)))) <= 50
  /\ history (router (snd (addToHistory Sample.benign "contact" Sample.contact_route
                                        Sample.well_travelled)))
     = tl (history (router Sample.well_travelled))
       ++ [mkEntry "contact" "Contact"
                   (clock Sample.benign (ticks Sample.well_travelled))]
  /\ snd (addToHistory Sample.benign "about" Sample.about_route Sample.well_travelled)
     = Sample.well_travelled.
Proof.
  destruct history_bounded_fifo_without_repeats as (Hbound & Hfifo & Hrepeat).
  split; [apply Hbound|]. split.
  - apply (Hfifo Sample.benign "contact" Sample.contact_route Sample.well_travelled).
    + vm_compute. reflexivity.
    + vm_compute. reflexivity.
    + intros e He. vm_compute in He. injection He as <-. discriminate.
  - apply (Hrepeat Sample.benign "about" Sample.about_route Sample.well_travelled
             (mkEntry "about" "About" 197)).
    + vm_compute. reflexivity.
    + reflexivity.
Defined.

Lemma abuot_falls_back_to_default_route_witness :
  findSimilarRoute (PString "abuot") Sample.site = (Normal None, Sample.site)
  /\ fallbackTarget (router Sample.site) "abuot" = "home".
Proof.
  destruct (abuot_falls_back_to_default_route Sample.benign
              (fun q => navigate Sample.benign 1 q noOptions) Sample.site)
    as (_ & _ & _ & Hfind & Htarget & _).
  - intros k. change (StrMap.keys (routes (router Sample.site)))
      with ["home"; "about"; "contact"]. simpl. intuition.
  - split; [exact Hfind|exact Htarget].
Defined.

Lemma benign_is_benevolent : benevolent Sample.benign.
Proof.
  split; [reflexivity|].
  intros f a. exists VUndefined. split; reflexivity.
Qed.


End Witnesses.

(** * Further properties *)

(** ** Case and white space *)

Module StringFacts.

Lemma lower_char_idem c : lower_char (lower_char c) = lower_char c.
Proof. destruct c as [[] [] [] [] [] [] [] []]; reflexivity. Qed.

Lemma is_space_lower c : is_space (lower_char c) = is_space c.
Proof. destruct c as [[] [] [] [] [] [] [] []]; reflexivity. Qed.

Lemma toLowerCase_idem s : toLowerCase (toLowerCase s) = toLowerCase s.
Proof.
  induction s as [|c s IH]; simpl; [reflexivity|].
  now rewrite lower_char_idem, IH.
Qed.

Lemma toLowerCase_empty s : toLowerCase s = "" -> s = "".
Proof. destruct s; [reflexivity|discriminate]. Qed.

Lemma trimStart_lower s : trimStart (toLowerCase s) = toLowerCase (trimStart s).
Proof.
  induction s as [|c s IH]; simpl; [reflexivity|].
  rewrite is_space_lower. destruct (is_space c); [exact IH|reflexivity].
Qed.

Lemma trimEnd_lower s : trimEnd (toLowerCase s) = toLowerCase (trimEnd s).
Proof.
  induction s as [|c s IH]; simpl; [reflexivity|].
  rewrite IH, is_space_lower.
  destruct (trimEnd s) as [|c' r'] eqn:Hr; simpl.
  - destruct (is_space c); reflexivity.
  - reflexivity.
Qed.

Lemma trim_lower s : trim (toLowerCase s) = toLowerCase (trim s).
Proof. unfold trim. now rewrite trimStart_lower, trimEnd_lower. Qed.

Lemma trimStart_clean s : starts_clean (trimStart s).
Proof.
  induction s as [|c s IH]; simpl; [exact I|].
  destruct (is_space c) eqn:Hc; [exact IH|exact Hc].
Qed.

Lemma trimStart_id s : starts_clean s -> trimStart s = s.
Proof. destruct s as [|c s]; simpl; [reflexivity|]. now intros ->. Qed.

Lemma trimEnd_clean s : starts_clean s -> starts_clean (trimEnd s).
Proof.
  destruct s as [|c s]; simpl; [exact id|]. intros Hc.
  destruct (trimEnd s); simpl; [rewrite Hc; exact Hc|exact Hc].
Qed.

Lemma trimEnd_cons c r :
  trimEnd (String c r)
  = match trimEnd r with
    | EmptyString => if is_space c then EmptyString else String c EmptyString
    | r' => String c r'
    end.
Proof. reflexivity. Qed.

Lemma trimEnd_idem s : trimEnd (trimEnd s) = trimEnd s.
Proof.
  induction s as [|c s IH]; simpl; [reflexivity|].
  destruct (trimEnd s) as [|c' r'] eqn:Hr.
  - destruct (is_space c) eqn:Hc; simpl; [reflexivity|now rewrite Hc].
  - rewrite trimEnd_cons, IH. reflexivity.
Qed.

Lemma trim_idem s : trim (trim s) = trim s.
Proof.
  unfold trim.
  rewrite (trimStart_id (trimEnd (trimStart s)))
    by apply trimEnd_clean, trimStart_clean.
  apply trimEnd_idem.
Qed.

Lemma trimStart_only_spaces s : only_spaces s = true -> trimStart s = "".
Proof.
  induction s as [|c s IH]; simpl; [reflexivity|].
  intros H. apply andb_prop in H as [-> Hs]. now apply IH.
Qed.

Lemma only_spaces_lower s : only_spaces (toLowerCase s) = only_spaces s.
Proof.
  induction s as [|c s IH]; simpl; [reflexivity|].
  now rewrite is_space_lower, IH.
Qed.

End StringFacts.

(** ** What [normalizePath] returns *)

Module NormalFormFacts.
Import StringFacts.

(** X1. For a non-empty string [normalizePath] returns a normal form: lower
    case and trimmed; and, unless that form is empty, normalising it again
    changes nothing. *)
Theorem normalizePath_normal_form (cfg : Config) (s : string) :
  s <> "" ->
  toLowerCase (normalizePath cfg (PString s)) = normalizePath cfg (PString s)
  /\ trim (normalizePath cfg (PString s)) = normalizePath cfg (PString s)
  /\ (normalizePath cfg (PString s) <> "" ->
      normalizePath cfg (PString (normalizePath cfg (PString s)))
      = normalizePath cfg (PString s)).
Proof.
  intros Hs. destruct s as [|c s]; [contradiction|].
  change (normalizePath cfg (PString (String c s)))
    with (trim (toLowerCase (String c s))).
  set (n := trim (toLowerCase (String c s))).
  assert (Hlow : toLowerCase n = n)
    by (unfold n; now rewrite <- trim_lower, toLowerCase_idem).
  assert (Htrim : trim n = n) by (unfold n; apply trim_idem).
  split; [exact Hlow|]. split; [exact Htrim|].
  intros Hn. unfold normalizePath.
  destruct n as [|c' n']; [contradiction|]. cbn [truthy].
  rewrite Hlow. exact Htrim.
Qed.

(** X2. A non-empty path of white space only is not replaced by the default
    route: it normalises to the empty string, so [hasRoute] looks for a
    route filed under the empty path. *)
Theorem blank_path_is_not_defaulted (r : Router) (s : string) :
  s <> "" ->
  only_spaces s = true ->
  normalizePath (config r) (PString s) = ""
  /\ hasRoute r (PString s) = StrMap.has (routes r) "".
Proof.
  intros Hs Hblank.
  assert (Hn : normalizePath (config r) (PString s) = "").
  { unfold normalizePath. destruct s as [|c s]; [contradiction|]. cbn [truthy].
    unfold trim. rewrite trimStart_only_spaces; [reflexivity|].
    now rewrite only_spaces_lower. }
  split; [exact Hn|]. unfold hasRoute. now rewrite Hn.
Qed.

End NormalFormFacts.

(** ** The edit distance as a distance *)

Module MetricFacts.
Import Fuzzy FuzzyFacts.

(** The distance is at least the difference of the lengths. *)
Lemma lev_lower str1 str2 i j :
  i - j <= lev str1 str2 i j /\ j - i <= lev str1 str2 i j.
Proof.
  revert j. induction i as [|i IHi]; intros j; [rewrite lev_row0; lia|].
  induction j as [|j IHj]; [rewrite lev_col0; lia|].
  rewrite lev_step.
  pose proof (IHi j). pose proof (IHi (S j)).
  destruct (String.eqb _ _); unfold min3; lia.
Qed.

Lemma lev_same s i : lev s s i i = 0.
Proof.
  induction i as [|i IH]; [reflexivity|].
  now rewrite lev_step, String.eqb_refl.
Qed.

(** A distance of zero: the two prefixes have one length and agree. *)
Lemma lev_zero str1 str2 i j :
  lev str1 str2 i j = 0 ->
  i = j /\ forall k, k < i -> charAt str2 k = charAt str1 k.
Proof.
  revert j. induction i as [|i IHi]; intros j.
  - rewrite lev_row0. intros ->. split; [reflexivity|]. intros k Hk. lia.
  - destruct j as [|j]; [rewrite lev_col0; discriminate|].
    rewrite lev_step.
    destruct (String.eqb_spec (charAt str2 i) (charAt str1 j)) as [Heq|_];
      [|unfold min3; lia].
    intros H0. destruct (IHi j H0) as [-> Hk].
    split; [reflexivity|]. intros k Hlt.
    destruct (Nat.eq_dec k j) as [->|Hne]; [exact Heq|]. apply Hk. lia.
Qed.

Lemma charAt_0 c r : charAt (String c r) 0 = String c EmptyString.
Proof. reflexivity. Qed.

Lemma charAt_S c r k : charAt (String c r) (S k) = charAt r k.
Proof. reflexivity. Qed.

Lemma same_characters a b :
  String.length a = String.length b ->
  (forall k, k < String.length a -> charAt a k = charAt b k) ->
  a = b.
Proof.
  revert b. induction a as [|c a IH]; intros [|d b] Hlen Hk;
    try discriminate; [reflexivity|].
  simpl in Hlen.
  pose proof (Hk 0 ltac:(simpl; lia)) as H0. rewrite !charAt_0 in H0.
  injection H0 as ->. f_equal. apply IH; [lia|].
  intros k Hlt. specialize (Hk (S k) ltac:(simpl; lia)).
  now rewrite !charAt_S in Hk.
Qed.

Lemma calculateEditDistance_same a : calculateEditDistance a a = 0.
Proof. rewrite calculateEditDistance_lev. apply lev_same. Qed.

Lemma calculateEditDistance_zero a b :
  calculateEditDistance a b = 0 -> a = b.
Proof.
  rewrite calculateEditDistance_lev. intros H.
  destruct (lev_zero _ _ _ _ H) as [Hlen Hk].
  apply same_characters; [now symmetry|].
  intros k Hlt. symmetry. apply Hk. lia.
Qed.

(** X3. [calculateEditDistance] behaves as a distance on strings: it is zero
    exactly between a string and itself, it does not depend on the order of
    its arguments, and it lies between the difference of the two lengths
    and the longer of them. *)
Theorem calculateEditDistance_is_a_distance (a b : string) :
  (calculateEditDistance a b = 0 <-> a = b)
  /\ calculateEditDistance a b = calculateEditDistance b a
  /\ String.length a - String.length b <= calculateEditDistance a b
  /\ String.length b - String.length a <= calculateEditDistance a b
  /\ calculateEditDistance a b <= Nat.max (String.length a) (String.length b).
Proof.
  split; [split; [apply calculateEditDistance_zero|]|].
  - intros ->. apply calculateEditDistance_same.
  - split; [apply calculateEditDistance_sym|].
    pose proof (lev_lower a b (String.length b) (String.length a)) as [H1 H2].
    rewrite <- calculateEditDistance_lev in H1, H2.
    repeat split; [exact H2|exact H1|apply calculateEditDistance_bound].
Qed.

End MetricFacts.

(** ** The best match *)

Module BestMatchFacts.
Import Fuzzy FuzzyFacts SimilarityFacts MetricFacts.

Lemma ratio_one (len dist : nat) :
  0 < len ->
  ((inject_Z (Z.of_nat len) - inject_Z (Z.of_nat dist))
   / inject_Z (Z.of_nat len) == 1)%Q
  <-> dist = 0.
Proof.
  intros Hlen.
  assert (Hnz : ~ (inject_Z (Z.of_nat len) == 0)%Q).
  { intros H. change 0%Q with (inject_Z 0) in H.
    rewrite inject_Z_injective in H. lia. }
  unfold Qminus. rewrite <- inject_Z_opp, <- inject_Z_plus. split.
  - intros H.
    assert (H1 : (inject_Z (Z.of_nat len + - Z.of_nat dist)
                  == inject_Z (Z.of_nat len))%Q).
    { rewrite <- (Qmult_div_r (inject_Z (Z.of_nat len + - Z.of_nat dist))
                              (inject_Z (Z.of_nat len))) by assumption.
      rewrite H. apply Qmult_1_r. }
    rewrite inject_Z_injective in H1. lia.
  - intros ->. simpl. rewrite Z.add_0_r.
    apply Qmult_inv_r. assumption.
Qed.

(** X4. Only a string itself scores 1 against it. *)
Theorem calculateSimilarity_one_iff_equal (a b : string) :
  (calculateSimilarity a b == 1)%Q <-> a = b.
Proof.
  unfold calculateSimilarity.
  destruct (Nat.ltb_spec (String.length b) (String.length a)) as [Hlt|Hge].
  - destruct (Nat.eqb_spec (String.length a) 0) as [Hz|Hnz]; [lia|].
    rewrite ratio_one by lia.
    pose proof (calculateEditDistance_zero a b).
    pose proof (calculateEditDistance_same a).
    split; [auto|]. intros <-. lia.
  - destruct (Nat.eqb_spec (String.length b) 0) as [Hz|Hnz].
    + split; [|reflexivity]. intros _.
      destruct a; destruct b; simpl in *; try lia. reflexivity.
    + rewrite ratio_one by lia.
      pose proof (calculateEditDistance_zero b a).
      pose proof (calculateEditDistance_same b).
      split; [intros H1; symmetry; auto|]. intros ->. assumption.
Qed.

Lemma Qgtb_lt x y : Qgtb x y = true <-> (y < x)%Q.
Proof.
  unfold Qgtb. rewrite negb_true_iff. split.
  - intros H. apply Qnot_le_lt. intros Hle.
    apply Qle_bool_iff in Hle. congruence.
  - intros H. destruct (Qle_bool x y) eqn:Hb; [|reflexivity].
    apply Qle_bool_iff in Hb. exfalso. now apply (Qlt_not_le y x).
Qed.

Lemma Qgtb_le x y : Qgtb x y = false <-> (x <= y)%Q.
Proof.
  unfold Qgtb. rewrite negb_false_iff. apply Qle_bool_iff.
Qed.

Lemma threshold_positive : (0 <= threshold)%Q.
Proof. discriminate. Qed.

Lemma scanned_start p : scanned p [] (None, 0%Q).
Proof. split; [reflexivity|]. intros k []. Qed.

Lemma scanned_step p seen acc k :
  scanned p seen acc -> scanned p (seen ++ [k]) (better p acc k).
Proof.
  destruct acc as [[r|] bestScore]; unfold scanned, better; simpl.
  - intros (-> & Hthr & before & after & -> & Hbefore & Hafter).
    destruct (Qgtb (calculateSimilarity p k) (calculateSimilarity p r)) eqn:Hbest;
      [destruct (Qgtb (calculateSimilarity p k) threshold) eqn:Hk|]; simpl.
    + apply Qgtb_lt in Hbest. apply Qgtb_lt in Hk.
      split; [reflexivity|]. split; [exact Hk|].
      exists (before ++ r :: after), []. split; [reflexivity|].
      split; [|intros k' []].
      intros k' Hin. apply in_app_or in Hin as [Hin|[<-|Hin]].
      * eapply Qlt_trans; [apply Hbefore, Hin|exact Hbest].
      * exact Hbest.
      * eapply Qle_lt_trans; [apply Hafter, Hin|exact Hbest].
    + apply Qgtb_le in Hk.
      split; [reflexivity|]. split; [exact Hthr|].
      exists before, (after ++ [k]). rewrite <- app_assoc. split; [reflexivity|].
      split; [exact Hbefore|].
      intros k' Hin. apply in_app_or in Hin as [Hin|[<-|[]]]; [now apply Hafter|].
      apply Qlt_le_weak. eapply Qle_lt_trans; eassumption.
    + apply Qgtb_le in Hbest.
      split; [reflexivity|]. split; [exact Hthr|].
      exists before, (after ++ [k]). rewrite <- app_assoc. split; [reflexivity|].
      split; [exact Hbefore|].
      intros k' Hin. apply in_app_or in Hin as [Hin|[<-|[]]]; [now apply Hafter|].
      exact Hbest.
  - intros (-> & Hseen).
    destruct (Qgtb (calculateSimilarity p k) 0) eqn:Hpos;
      [destruct (Qgtb (calculateSimilarity p k) threshold) eqn:Hk|]; simpl.
    + apply Qgtb_lt in Hk.
      split; [reflexivity|]. split; [exact Hk|].
      exists seen, []. split; [reflexivity|]. split; [|intros k' []].
      intros k' Hin. eapply Qle_lt_trans; [apply Hseen, Hin|exact Hk].
    + apply Qgtb_le in Hk. split; [reflexivity|].
      intros k' Hin. apply in_app_or in Hin as [Hin|[<-|[]]]; [now apply Hseen|].
      exact Hk.
    + apply Qgtb_le in Hpos. split; [reflexivity|].
      intros k' Hin. apply in_app_or in Hin as [Hin|[<-|[]]]; [now apply Hseen|].
      eapply Qle_trans; [exact Hpos|apply threshold_positive].
Qed.

Lemma scanned_fold p rest seen acc :
  scanned p seen acc ->
  scanned p (seen ++ rest) (fold_left (better p) rest acc).
Proof.
  revert seen acc. induction rest as [|k rest IH]; intros seen acc H.
  - now rewrite app_nil_r.
  - simpl. replace (seen ++ k :: rest) with ((seen ++ [k]) ++ rest)
      by now rewrite <- app_assoc.
    apply IH, scanned_step, H.
Qed.

(** X5. [findSimilarRoute] returns the best match among the registered
    paths that score above 0.6: it scores above the threshold, every path
    registered before it scores strictly less and every path registered after
    it scores no more.  It returns [null] exactly when no registered path
    scores above 0.6.  It changes nothing. *)
Theorem findSimilarRoute_best_match (x : string) (s : State) :
  exists found,
    findSimilarRoute (PString x) s = (Normal found, s)
    /\ match found with
       | Some r =>
           (threshold < calculateSimilarity x r)%Q
           /\ exists before after,
                StrMap.keys (routes (router s)) = before ++ r :: after
                /\ (forall k, In k before ->
                      (calculateSimilarity x k < calculateSimilarity x r)%Q)
                /\ (forall k, In k after ->
                      (calculateSimilarity x k <= calculateSimilarity x r)%Q)
       | None =>
           forall k, In k (StrMap.keys (routes (router s))) ->
                     (calculateSimilarity x k <= threshold)%Q
       end.
Proof.
  exists (findSimilarRouteIn (StrMap.keys (routes (router s))) x).
  split; [reflexivity|].
  pose proof (scanned_fold x (StrMap.keys (routes (router s))) [] (None, 0%Q)
                (scanned_start x)) as H.
  unfold scanned in H. unfold findSimilarRouteIn. simpl in H.
  destruct (fst (fold_left (better x) (StrMap.keys (routes (router s))) (None, 0%Q)))
    as [r|]; [|exact (proj2 H)].
  exact (proj2 H).
Qed.

End BestMatchFacts.

(** ** Relations kept by every operation *)

Module Operations.

Section OfOperations.

Variable E : Env.
Variable R : State -> State -> Prop.

Hypothesis R_refl : forall s, R s s.
Hypothesis R_trans : forall a b c, R a b -> R b c -> R a c.

(** The environment touches the world, not the router. *)
Hypothesis R_world : forall s s', router s' = router s -> R s s'.

Hypothesis R_flag : forall b s, R s (on_router (with_isNavigating b) s).
Hypothesis R_previous : forall v s, R s (on_router (with_previousRoute v) s).
Hypothesis R_current : forall v s, R s (on_router (with_currentRoute v) s).
Hypothesis R_metrics :
  forall (f : Router -> StrMap.t Metric) s,
    R s (on_router (fun r => with_navigationMetrics (f r) r) s).
Hypothesis R_addToHistory : forall p route, keeps R (addToHistory E p route).
Hypothesis R_pop :
  forall s, R s (on_router (fun r => with_history (removelast (history r)) r) s).
Hypothesis R_addRoute : forall p h options, keeps R (addRoute p h options).
Hypothesis R_removeRoute : forall p, keeps R (removeRoute p).
Hypothesis R_on : forall event cb, keeps R (on event cb).
Hypothesis R_off : forall event cb, keeps R (off event cb).
Hypothesis R_clearHistory : keeps R clearHistory.
Hypothesis R_cleanup : keeps R cleanup.

Lemma navigate_kept depth p options : keeps R (navigate E depth p options).
Proof.
  apply Keeping.keeps_navigate; auto; intros; apply R_world; reflexivity.
Qed.

Ltac kept_step :=
  first [ exact R_refl | exact R_trans
        | match goal with |- forall _, _ => intro end
        | apply navigate_kept
        | apply R_world; reflexivity
        | solve [auto]
        | apply Keeping.keeps_console
        | apply Keeping.keeps_perform
        | apply Keeping.keeps_handleError
        | apply Keeping.keeps_dispatchEvent
        | Keeping.keeping_step ].

Lemma back_kept depth : keeps R (back E depth).
Proof. unfold back. repeat kept_step. Qed.

Lemma operate_kept depth o : keeps R (operate E depth o).
Proof.
  destruct o; simpl; try solve [auto].
  - apply Keeping.keeps_detached, R_removeRoute.
  - repeat kept_step.
  - apply Keeping.keeps_detached, back_kept.
  - unfold forward. repeat kept_step.
  - unfold replace. repeat kept_step.
  - unfold init, loadInitialRoute. repeat kept_step.
  - unfold set_hash, handleHashChange. repeat kept_step.
  - unfold set_hash, handlePopState. repeat kept_step.
  - unfold handleLinkClick. repeat kept_step.
  - unfold validateCurrentRoute. repeat kept_step.
Qed.

Lemma run_kept depth ops s : R s (run E depth ops s).
Proof.
  revert s. induction ops as [|o ops IH]; intros s; [apply R_refl|].
  simpl. eapply R_trans; [apply (operate_kept depth o s)|apply IH].
Qed.

End OfOperations.

End Operations.

(** ** The route table as a map *)

Module RegistryFacts.
Import StringFacts NavigationFacts TableFacts.

Lemma has_keys {V} (m : StrMap.t V) k :
  StrMap.has m k = true <-> In k (StrMap.keys m).
Proof.
  unfold StrMap.has. induction m as [|[k' v'] m IH]; simpl.
  - split; [discriminate|contradiction].
  - destruct (String.eqb_spec k' k) as [->|Hne].
    + split; [now left|reflexivity].
    + rewrite IH. split; [now right|]. intros [H|H]; [contradiction|exact H].
Qed.

Lemma get_none_keys {V} (m : StrMap.t V) k :
  StrMap.get m k = None <-> ~ In k (StrMap.keys m).
Proof.
  rewrite <- has_keys. unfold StrMap.has.
  destruct (StrMap.get m k); split; congruence.
Qed.

Lemma get_set_other {V} (m : StrMap.t V) k k' v :
  k <> k' -> StrMap.get (StrMap.set m k v) k' = StrMap.get m k'.
Proof.
  intros Hne. induction m as [|[k0 v0] m IH]; simpl.
  - destruct (String.eqb_spec k k'); [contradiction|reflexivity].
  - destruct (String.eqb_spec k0 k) as [->|Hk]; simpl.
    + destruct (String.eqb_spec k k'); [contradiction|reflexivity].
    + destruct (String.eqb k0 k'); [reflexivity|exact IH].
Qed.

Lemma keys_set {V} (m : StrMap.t V) k v :
  StrMap.keys (StrMap.set m k v)
  = if StrMap.has m k then StrMap.keys m else StrMap.keys m ++ [k].
Proof.
  unfold StrMap.has. induction m as [|[k' v'] m IH]; simpl; [reflexivity|].
  destruct (String.eqb k' k); simpl; [reflexivity|].
  rewrite IH. destruct (StrMap.get m k); reflexivity.
Qed.

Lemma In_set {V} (m : StrMap.t V) k v k' v' :
  In (k', v') (StrMap.set m k v) -> (k' = k /\ v' = v) \/ In (k', v') m.
Proof.
  induction m as [|[k0 v0] m IH]; simpl.
  - intros [[= <- <-]|[]]. now left.
  - destruct (String.eqb_spec k0 k) as [->|Hne]; simpl.
    + intros [[= <- <-]|H]; [now left|right; now right].
    + intros [H|H]; [right; now left|].
      destruct (IH H) as [H'|H']; [now left|right; now right].
Qed.

Lemma NoDup_set {V} (m : StrMap.t V) k v :
  NoDup (StrMap.keys m) -> NoDup (StrMap.keys (StrMap.set m k v)).
Proof.
  intros H. rewrite keys_set. destruct (StrMap.has m k) eqn:Hk; [exact H|].
  apply NoDup_app; [exact H|repeat constructor; intros []|].
  intros x Hx [<-|[]]. apply has_keys in Hx. congruence.
Qed.

Lemma In_delete {V} (m : StrMap.t V) k k' v' :
  In (k', v') (StrMap.delete m k) -> In (k', v') m.
Proof.
  induction m as [|[k0 v0] m IH]; simpl; [exact id|].
  destruct (String.eqb k0 k); simpl; [now right|].
  intros [H|H]; [now left|right; now apply IH].
Qed.

Lemma In_keys_delete {V} (m : StrMap.t V) k k' :
  In k' (StrMap.keys (StrMap.delete m k)) -> In k' (StrMap.keys m).
Proof.
  induction m as [|[k0 v0] m IH]; simpl; [exact id|].
  destruct (String.eqb k0 k); simpl; [now right|].
  intros [H|H]; [now left|right; now apply IH].
Qed.

Lemma NoDup_delete {V} (m : StrMap.t V) k :
  NoDup (StrMap.keys m) -> NoDup (StrMap.keys (StrMap.delete m k)).
Proof.
  induction m as [|[k0 v0] m IH]; simpl; [exact id|].
  intros H. inversion H as [|x l Hnin Hnd]; subst.
  destruct (String.eqb k0 k); simpl; [exact Hnd|].
  constructor; [|now apply IH].
  intros Hin. apply Hnin. now apply In_keys_delete in Hin.
Qed.

Lemma get_delete_same {V} (m : StrMap.t V) k :
  NoDup (StrMap.keys m) -> StrMap.get (StrMap.delete m k) k = None.
Proof.
  induction m as [|[k0 v0] m IH]; simpl; [reflexivity|].
  intros H. inversion H as [|x l Hnin Hnd]; subst.
  destruct (String.eqb_spec k0 k) as [->|Hne]; simpl.
  - now apply get_none_keys.
  - destruct (String.eqb_spec k0 k); [contradiction|]. now apply IH.
Qed.

Lemma get_delete_other {V} (m : StrMap.t V) k k' :
  k <> k' -> StrMap.get (StrMap.delete m k) k' = StrMap.get m k'.
Proof.
  intros Hne. induction m as [|[k0 v0] m IH]; simpl; [reflexivity|].
  destruct (String.eqb_spec k0 k) as [->|Hk]; simpl.
  - destruct (String.eqb_spec k k'); [contradiction|reflexivity].
  - destruct (String.eqb k0 k'); [reflexivity|exact IH].
Qed.

Lemma delete_absent {V} (m : StrMap.t V) k :
  StrMap.get m k = None -> StrMap.delete m k = m.
Proof.
  induction m as [|[k0 v0] m IH]; simpl; [reflexivity|].
  destruct (String.eqb k0 k); [discriminate|]. intros H. now rewrite IH.
Qed.

Lemma delete_set {V} (m : StrMap.t V) k v :
  StrMap.get m k = None -> StrMap.delete (StrMap.set m k v) k = m.
Proof.
  induction m as [|[k0 v0] m IH]; simpl.
  - now rewrite String.eqb_refl.
  - destruct (String.eqb k0 k) eqn:Hk; [discriminate|]. intros H.
    simpl. rewrite Hk. now rewrite IH.
Qed.

(** What [addRoute] and [removeRoute] leave, as equations. *)
Lemma addRoute_run p h options s :
  exists route,
    addRoute (PString p) (Some h) options s
    = (Normal tt,
       emit (Console (LogRouteAdded p))
            (on_router (fun r => with_routes
                                   (StrMap.set (routes r) (toLowerCase p) route) r) s))
    /\ path route = toLowerCase p /\ handler route = h.
Proof. eexists. split; [reflexivity|]. split; reflexivity. Qed.

Lemma removeRoute_run p s :
  removeRoute p s
  = (Normal (StrMap.has (routes (router s)) (toLowerCase p)),
     let s1 := on_router (fun r => with_routes
                                     (StrMap.delete (routes r) (toLowerCase p)) r) s in
     if StrMap.has (routes (router s)) (toLowerCase p)
     then emit (Console (LogRouteRemoved p)) s1 else s1).
Proof.
  unfold removeRoute, bind, this, read, assign, update, when, console, ret.
  simpl. destruct (StrMap.has _ _); reflexivity.
Qed.

Lemma registry_same_routes r r' :
  routes r' = routes r -> registry_ok r -> registry_ok r'.
Proof. unfold registry_ok. now intros ->. Qed.

Lemma registry_addRoute p h options :
  keeps (fun s s' => registry_ok (router s) -> registry_ok (router s'))
        (addRoute p h options).
Proof.
  intros s Hok. destruct p as [| |p]; try exact Hok.
  destruct h as [h|]; [|exact Hok].
  destruct (addRoute_run p h options s) as (route & -> & Hpath & _).
  destruct Hok as [Hnd Hin]. split; simpl.
  - now apply NoDup_set.
  - intros k route' H. apply In_set in H as [[-> ->]|H]; [|now apply Hin].
    split; [exact Hpath|apply toLowerCase_idem].
Qed.

Lemma registry_removeRoute p :
  keeps (fun s s' => registry_ok (router s) -> registry_ok (router s'))
        (removeRoute p).
Proof.
  intros s [Hnd Hin]. rewrite removeRoute_run. cbv zeta.
  assert (Hok : registry_ok
                  (with_routes (StrMap.delete (routes (router s)) (toLowerCase p))
                               (router s))).
  { split; simpl; [now apply NoDup_delete|].
    intros k route H. apply Hin. now apply In_delete in H. }
  destruct (StrMap.has _ _); exact Hok.
Qed.

Lemma registry_on event cb :
  keeps (fun s s' => registry_ok (router s) -> registry_ok (router s'))
        (on event cb).
Proof.
  intros s. destruct cb as [f|]; [|exact id]. apply registry_same_routes.
  unfold on, assign, update. destruct (inherited event); [reflexivity|]. simpl.
  repeat destruct (String.eqb _ _); reflexivity.
Qed.

Lemma registry_off event f :
  keeps (fun s s' => registry_ok (router s) -> registry_ok (router s'))
        (off event f).
Proof.
  intros s. apply registry_same_routes.
  unfold off, assign, update. destruct (inherited event); [reflexivity|]. simpl.
  repeat destruct (String.eqb _ _); reflexivity.
Qed.

Lemma registry_cleanup :
  keeps (fun s s' => registry_ok (router s) -> registry_ok (router s')) cleanup.
Proof. intros s _. split; simpl; [constructor|intros k route []]. Qed.

Lemma registry_addToHistory E p route :
  keeps (fun s s' => registry_ok (router s) -> registry_ok (router s'))
        (addToHistory E p route).
Proof.
  apply Keeping.keeps_addToHistory;
    intros; unfold registry_ok in *; simpl in *; auto.
Qed.

(** X6. After any sequence of operations on a new router the route table
    holds one route per key, and every route is filed under its own [path],
    which is in lower case. *)
Theorem route_table_stays_well_formed
  (E : Env) (depth : nat) (cfg : Config) (loc : Location) (n : nat)
  (ops : list operation) :
  registry_ok (router (run E depth ops (initialState cfg loc n))).
Proof.
  assert (Hnew : registry_ok (router (initialState cfg loc n))).
  { split; simpl; [constructor|intros k route []]. }
  revert Hnew.
  apply (Operations.run_kept E
           (fun s s' => registry_ok (router s) -> registry_ok (router s')));
    first [ apply registry_addRoute | apply registry_removeRoute
          | apply registry_on | apply registry_off | exact registry_cleanup
          | apply registry_addToHistory
          | intros s s' H; now rewrite H
          | intros; unfold keeps, registry_ok in *; simpl in *; now auto ].
Qed.

(** X7. [addRoute] leaves every other key as it was: a path already in the
    table keeps its place in the order of the keys and gets the new route
    (no warning, nothing thrown), a new path goes to the end. *)
Theorem addRoute_replaces_in_place_or_appends
  (p : string) (h : callback) (options : RouteOptions) (s : State) :
  let key := toLowerCase p in
  let before := routes (router s) in
  let after := routes (router (snd (addRoute (PString p) (Some h) options s))) in
  fst (addRoute (PString p) (Some h) options s) = Normal tt
  /\ StrMap.keys after
     = (if StrMap.has before key then StrMap.keys before
        else StrMap.keys before ++ [key])
  /\ (exists route, StrMap.get after key = Some route
                    /\ path route = key /\ handler route = h)
  /\ (forall k, k <> key -> StrMap.get after k = StrMap.get before k).
Proof.
  cbv zeta. destruct (addRoute_run p h options s) as (route & -> & Hp & Hh).
  simpl. split; [reflexivity|]. split; [apply keys_set|]. split.
  - exists route. rewrite get_set_same. auto.
  - intros k Hk. apply get_set_other. congruence.
Qed.

(** X8. Round trip: on a table that has no route under the path,
    [addRoute] followed by [removeRoute] answers [true] and gives back the
    router as it was, whatever the spelling of the path in the second call
    (upper and lower case are the same key). *)
Theorem addRoute_then_removeRoute_restores
  (p q : string) (h : callback) (options : RouteOptions) (s : State) :
  StrMap.get (routes (router s)) (toLowerCase p) = None ->
  toLowerCase q = toLowerCase p ->
  let s1 := snd (addRoute (PString p) (Some h) options s) in
  fst (removeRoute q s1) = Normal true
  /\ router (snd (removeRoute q s1)) = router s.
Proof.
  intros Hnone Hq. cbv zeta.
  destruct (addRoute_run p h options s) as (route & -> & _ & _).
  rewrite removeRoute_run. cbn [fst snd].
  unfold StrMap.has. rewrite Hq. simpl.
  rewrite get_set_same. split; [reflexivity|]. simpl.
  rewrite delete_set by assumption. now destruct (router s).
Qed.

(** X9. [removeRoute] answers whether the table had a route under the
    lower-cased path; afterwards the table has none there and every other
    key is as before; when there was none, nothing changes and nothing is
    logged. *)
Theorem removeRoute_removes_only_that_route (p : string) (s : State) :
  NoDup (StrMap.keys (routes (router s))) ->
  let key := toLowerCase p in
  let before := routes (router s) in
  let after := routes (router (snd (removeRoute p s))) in
  fst (removeRoute p s) = Normal (StrMap.has before key)
  /\ StrMap.get after key = None
  /\ (forall k, k <> key -> StrMap.get after k = StrMap.get before k)
  /\ (StrMap.has before key = false -> snd (removeRoute p s) = s).
Proof.
  intros Hnd. cbv zeta. rewrite removeRoute_run. cbn [fst snd].
  split; [reflexivity|].
  repeat split.
  - destruct (StrMap.has _ _); simpl; now apply get_delete_same.
  - intros k Hk. destruct (StrMap.has _ _); simpl; apply get_delete_other; congruence.
  - intros Hno. rewrite Hno. unfold on_router. simpl.
    rewrite delete_absent.
    + destruct s as [r l n t tr]. now destruct r.
    + unfold StrMap.has in Hno. now destruct (StrMap.get _ _).
Qed.

(** X10. Lookup ignores case and surrounding white space: after
    [addRoute(p, handler)], [hasRoute(q)] is [true] for every non-empty [q]
    whose lower-cased and trimmed form is the lower-cased [p]. *)
Theorem hasRoute_ignores_case_and_padding
  (p q : string) (h : callback) (options : RouteOptions) (s : State) :
  q <> "" ->
  trim (toLowerCase q) = toLowerCase p ->
  hasRoute (router (snd (addRoute (PString p) (Some h) options s))) (PString q)
  = true.
Proof.
  intros Hq Hnorm.
  destruct (addRoute_run p h options s) as (route & -> & _ & _).
  unfold hasRoute, StrMap.has, normalizePath.
  destruct q as [|c q]; [contradiction|].
  change (truthy (String c q)) with true. cbv iota.
  rewrite Hnorm. simpl. now rewrite get_set_same.
Qed.

(** X11. A removed route is gone for [hasRoute] and for [navigate], also
    when it is the route the router is on: the call answers [false] and the
    router stays as [removeRoute] left it. *)
Theorem removed_route_is_unreachable
  (E : Env) (depth : nat) (p q : string) (options : NavOptions) (s : State) :
  NoDup (StrMap.keys (routes (router s))) ->
  isNavigating (router s) = false ->
  normalizePath (config (router s)) (PString q) = toLowerCase p ->
  let s1 := snd (removeRoute p s) in
  hasRoute (router s1) (PString q) = false
  /\ fst (navigate E (S (S depth)) (PString q) options s1) = Normal VFalse
  /\ router (snd (navigate E (S (S depth)) (PString q) options s1)) = router s1.
Proof.
  intros Hnd Hidle Hnorm. cbv zeta.
  assert (Hcfg : config (router (snd (removeRoute p s))) = config (router s)).
  { rewrite removeRoute_run. cbn [snd]. now destruct (StrMap.has _ _). }
  assert (Hflag : isNavigating (router (snd (removeRoute p s))) = false).
  { rewrite removeRoute_run. cbn [snd]. now destruct (StrMap.has _ _). }
  assert (Hgone : StrMap.get (routes (router (snd (removeRoute p s))))
                             (toLowerCase p) = None).
  { rewrite removeRoute_run. cbn [snd].
    destruct (StrMap.has _ _); simpl; now apply get_delete_same. }
  split.
  - unfold hasRoute, StrMap.has. rewrite Hcfg, Hnorm, Hgone. reflexivity.
  - destruct (navigate_unregistered E depth q options (snd (removeRoute p s)))
      as (Hv & Hr & _); [exact Hflag|now rewrite Hcfg, Hnorm|].
    split; assumption.
Qed.

End RegistryFacts.

(** ** The shape of the history *)

Module HistoryShapeFacts.
Import NavigationFacts HistoryFacts.

Lemma newest_cons (a b : HistoryEntry) (t : list HistoryEntry) :
  newest (a :: b :: t) = newest (b :: t).
Proof. unfold newest. simpl. now rewrite Nat.sub_0_r. Qed.

Lemma alternating_app (h : list HistoryEntry) (e : HistoryEntry) :
  alternating h ->
  match newest h with
  | Some last => h_path last <> h_path e
  | None => True
  end ->
  alternating (h ++ [e]).
Proof.
  induction h as [|a t IH]; simpl; [auto|].
  intros [Ha Ht] Hlast. destruct t as [|b t].
  - simpl. split; [exact Hlast|auto].
  - split; [exact Ha|]. apply IH; [exact Ht|].
    now rewrite newest_cons in Hlast.
Qed.

Lemma alternating_tl (h : list HistoryEntry) : alternating h -> alternating (tl h).
Proof. destruct h as [|a t]; simpl; [auto|]. now intros [_ H]. Qed.

Lemma alternating_removelast (h : list HistoryEntry) :
  alternating h -> alternating (removelast h).
Proof.
  induction h as [|a t IH]; [auto|].
  intros [Ha Ht]. destruct t as [|b t]; [exact I|].
  change (removelast (a :: b :: t)) with (a :: removelast (b :: t)).
  split; [|now apply IH].
  destruct t as [|c t]; [exact I|exact Ha].
Qed.

Lemma alternating_addToHistory E p route :
  keeps (fun s s' => alternating (history (router s)) ->
                     alternating (history (router s')))
        (addToHistory E p route).
Proof.
  intros s Halt.
  destruct (match newest (history (router s)) with
            | Some e => String.eqb (h_path e) p
            | None => false
            end) eqn:Hnew.
  - destruct (newest (history (router s))) as [e|] eqn:He; [|discriminate].
    apply String.eqb_eq in Hnew.
    now rewrite (addToHistory_duplicate E p route s e He Hnew).
  - rewrite (addToHistory_appends E p route s Hnew). cbv zeta.
    assert (Happ : alternating
                     (history (router s)
                        ++ [mkEntry p (title route) (clock E (ticks s))])).
    { apply alternating_app; [exact Halt|].
      destruct (newest (history (router s))) as [e|]; [|exact I].
      simpl. now apply String.eqb_neq. }
    destruct (_ <? _); [now apply alternating_tl|exact Happ].
Qed.

(** X12. After any sequence of operations on a new router no two
    neighbours in the history name the same path: [addToHistory] leaves out
    a path equal to the newest entry's, and neither the eviction of the
    oldest entry nor the [pop] of [back] brings two equal paths together. *)
Theorem history_never_repeats_a_path_in_a_row
  (E : Env) (depth : nat) (cfg : Config) (loc : Location) (n : nat)
  (ops : list operation) :
  alternating (history (router (run E depth ops (initialState cfg loc n)))).
Proof.
  assert (Hnew : alternating (history (router (initialState cfg loc n))))
    by exact I.
  revert Hnew.
  apply (Operations.run_kept E
           (fun s s' => alternating (history (router s)) ->
                        alternating (history (router s'))));
    first [ apply alternating_addToHistory
          | intros s s' H; now rewrite H
          | intros s; simpl; apply alternating_removelast
          | intros p h options s;
            destruct p as [| |p]; try exact id;
            destruct h as [h|]; exact id
          | intros p s; rewrite RegistryFacts.removeRoute_run; cbv zeta;
            destruct (StrMap.has _ _); exact id
          | intros event cb s; destruct cb; [|exact id];
            unfold on, assign, update; destruct (inherited event); [exact id|];
            simpl; repeat destruct (String.eqb _ _); exact id
          | intros event f s; unfold off, assign, update;
            destruct (inherited event); [exact id|];
            simpl; repeat destruct (String.eqb _ _); exact id
          | intros; unfold keeps in *; simpl in *; now auto ].
Qed.

End HistoryShapeFacts.

(** ** Listeners *)

Module ListenerFacts.
Import NavigationFacts.

Lemma remove_first_absent (f : callback) (l : list callback) :
  ~ In f l -> remove_first f l = l.
Proof.
  induction l as [|g l IH]; simpl; [reflexivity|]. intros H.
  destruct (Nat.eqb_spec g f) as [->|_]; [exfalso; apply H; now left|].
  rewrite IH; [reflexivity|]. intros Hin. apply H. now right.
Qed.

Lemma remove_first_added (f : callback) (l : list callback) :
  ~ In f l -> remove_first f (l ++ [f]) = l.
Proof.
  induction l as [|g l IH]; simpl.
  - now rewrite Nat.eqb_refl.
  - intros H. destruct (Nat.eqb_spec g f) as [->|_]; [exfalso; apply H; now left|].
    rewrite IH; [reflexivity|]. intros Hin. apply H. now right.
Qed.

(** X13. For each of the three events, [off] of a callback that is not
    registered changes nothing, and [on] followed by [off] of a callback
    that was not registered before gives back the router as it was. *)
Theorem on_then_off_restores (event : string) (f : callback) (s : State) :
  known_event event ->
  ~ In f (listenersOf event (listeners (router s))) ->
  snd (off event f s) = s
  /\ In f (listenersOf event (listeners (router (snd (on event (Some f) s)))))
  /\ snd (off event f (snd (on event (Some f) s))) = s.
Proof.
  intros Hevent Hnew.
  destruct s as [r l n t tr]. destruct r as [rs c p b cfg ls h m nm].
  destruct ls as [bl al el].
  unfold listenersOf, off, on, assign, update, on_router in *.
  destruct Hevent as [-> | [-> | ->]]; simpl in *;
    rewrite remove_first_added, remove_first_absent by assumption;
    (split; [reflexivity|]);
    (split; [apply in_or_app; right; now left|reflexivity]).
Qed.

Lemma calls_app (new old : list event) :
  calls (new ++ old) = calls old ++ calls new.
Proof.
  induction new as [|e new IH]; simpl; [now rewrite app_nil_r|].
  destruct e; try exact IH. now rewrite IH, app_assoc.
Qed.

(** One turn of the loop over the before-listeners: a listener that throws
    is logged and passed over, one that answers [false] ends the loop. *)
Lemma runBeforeLoop_cons E l ls p route s :
  runBeforeLoop E (l :: ls) p route s
  = let args := ListenerArgs p route (currentRoute (router s)) in
    match call E l args with
    | Normal VFalse => (Normal VFalse, emit (Called l args) s)
    | Normal _ => runBeforeLoop E ls p route (emit (Called l args) s)
    | Throw e =>
        runBeforeLoop E ls p route
          (emit (Console (ErrBeforeListener e)) (emit (Called l args) s))
    end.
Proof.
  simpl. rewrite bind_this.
  unfold bind at 1, try_catch, bind at 1, invoke.
  destruct (call E l _) as [[| |]|e]; reflexivity.
Qed.

Lemma runBeforeLoop_passes E ls p route s :
  (forall l, In l ls ->
             call E l (ListenerArgs p route (currentRoute (router s)))
             <> Normal VFalse) ->
  exists new,
    fst (runBeforeLoop E ls p route s) = Normal VTrue
    /\ router (snd (runBeforeLoop E ls p route s)) = router s
    /\ location (snd (runBeforeLoop E ls p route s)) = location s
    /\ entries (snd (runBeforeLoop E ls p route s)) = entries s
    /\ trace (snd (runBeforeLoop E ls p route s)) = new ++ trace s
    /\ calls new = ls
    /\ forallb calm new = true.
Proof.
  revert s. induction ls as [|l ls IH]; intros s Hpass.
  - exists []. repeat split.
  - rewrite runBeforeLoop_cons. cbv zeta.
    assert (Hl := Hpass l (or_introl eq_refl)).
    set (args := ListenerArgs p route (currentRoute (router s))) in *.
    assert (Hrest :
              forall s1 extra,
                router s1 = router s -> location s1 = location s ->
                entries s1 = entries s ->
                trace s1 = extra ++ trace s -> calls extra = [l] ->
                forallb calm extra = true ->
                exists new,
                  fst (runBeforeLoop E ls p route s1) = Normal VTrue
                  /\ router (snd (runBeforeLoop E ls p route s1)) = router s
                  /\ location (snd (runBeforeLoop E ls p route s1)) = location s
                  /\ entries (snd (runBeforeLoop E ls p route s1)) = entries s
                  /\ trace (snd (runBeforeLoop E ls p route s1)) = new ++ trace s
                  /\ calls new = l :: ls
                  /\ forallb calm new = true).
    { intros s1 extra Hr Hloc Hent Ht Hc Hcalm.
      destruct (IH s1) as (new & H1 & H2 & H3 & H4 & H5 & H6 & H7).
      - rewrite Hr. intros g Hg. apply Hpass. now right.
      - exists (new ++ extra). rewrite H2, H3, H4, H5, Hr, Hloc, Hent, Ht.
        repeat split; auto.
        + now rewrite app_assoc.
        + rewrite calls_app, Hc, H6. reflexivity.
        + rewrite forallb_app, H7, Hcalm. reflexivity. }
    destruct (call E l args) as [v|e] eqn:Hcall.
    + destruct v; [congruence| |];
        apply (Hrest _ [Called l args]); reflexivity.
    + apply (Hrest _ [Console (ErrBeforeListener e); Called l args]); reflexivity.
Qed.

Lemma runBeforeLoop_refused E before l after p route s :
  (forall g, In g before ->
             call E g (ListenerArgs p route (currentRoute (router s)))
             <> Normal VFalse) ->
  call E l (ListenerArgs p route (currentRoute (router s))) = Normal VFalse ->
  exists new,
    fst (runBeforeLoop E (before ++ l :: after) p route s) = Normal VFalse
    /\ router (snd (runBeforeLoop E (before ++ l :: after) p route s)) = router s
    /\ trace (snd (runBeforeLoop E (before ++ l :: after) p route s))
       = new ++ trace s
    /\ calls new = before ++ [l].
Proof.
  revert s. induction before as [|g before IH]; intros s Hpass Hl.
  - simpl app. rewrite runBeforeLoop_cons. cbv zeta. rewrite Hl.
    exists [Called l (ListenerArgs p route (currentRoute (router s)))].
    repeat split.
  - simpl app. rewrite runBeforeLoop_cons. cbv zeta.
    assert (Hg := Hpass g (or_introl eq_refl)).
    set (args := ListenerArgs p route (currentRoute (router s))) in *.
    assert (Hrest :
              forall s1 extra,
                router s1 = router s ->
                trace s1 = extra ++ trace s -> calls extra = [g] ->
                exists new,
                  fst (runBeforeLoop E (before ++ l :: after) p route s1)
                  = Normal VFalse
                  /\ router (snd (runBeforeLoop E (before ++ l :: after) p route s1))
                     = router s
                  /\ trace (snd (runBeforeLoop E (before ++ l :: after) p route s1))
                     = new ++ trace s
                  /\ calls new = g :: before ++ [l]).
    { intros s1 extra Hr Ht Hc.
      destruct (IH s1) as (new & H1 & H2 & H3 & H4).
      - rewrite Hr. intros g' Hg'. apply Hpass. now right.
      - now rewrite Hr.
      - exists (new ++ extra). rewrite H2, H3, Hr, Ht.
        repeat split; auto.
        + now rewrite app_assoc.
        + rewrite calls_app, Hc, H4. reflexivity. }
    destruct (call E g args) as [v|e] eqn:Hcall.
    + destruct v; [congruence| |];
        apply (Hrest _ [Called g args]); reflexivity.
    + apply (Hrest _ [Console (ErrBeforeListener e); Called g args]); reflexivity.
Qed.

(** X14. The before-listeners are asked in the order of their
    registration, each with the path, the route and the current route.
    The first that answers [false] ends the round: the answer is [false]
    and the listeners after it are not called.  A listener that throws
    does not refuse: when none answers [false], all have been called and
    the answer is [true].  The router is left as it was. *)
Theorem before_listeners_asked_in_order_until_refusal
  (E : Env) (p : string) (route : Route) (s : State) :
  let ls := beforeRoute (listeners (router s)) in
  let refuses l :=
    call E l (ListenerArgs p route (currentRoute (router s))) = Normal VFalse in
  let result := runBeforeListeners E p route s in
  exists new,
    trace (snd result) = new ++ trace s
    /\ router (snd result) = router s
    /\ ((forall l, In l ls -> ~ refuses l) ->
        fst result = Normal VTrue /\ calls new = ls)
    /\ (forall before l after,
          ls = before ++ l :: after ->
          (forall g, In g before -> ~ refuses g) -> refuses l ->
          fst result = Normal VFalse /\ calls new = before ++ [l]).
Proof.
  cbv zeta. unfold runBeforeListeners. rewrite bind_this.
  set (ls := beforeRoute (listeners (router s))).
  assert (Hgrows : exists new,
             trace (snd (runBeforeLoop E ls p route s)) = new ++ trace s
             /\ router (snd (runBeforeLoop E ls p route s)) = router s).
  { destruct (quiet_runBeforeListeners E p route s) as (Hr & _ & _ & new & Ht & _).
    unfold runBeforeListeners in Hr, Ht. rewrite bind_this in Hr, Ht.
    exists new. split; assumption. }
  destruct Hgrows as (new & Ht & Hr). exists new.
  split; [exact Ht|]. split; [exact Hr|]. split.
  - intros Hpass.
    destruct (runBeforeLoop_passes E ls p route s Hpass)
      as (new' & H1 & _ & _ & _ & H3 & H4 & _).
    split; [exact H1|]. rewrite Ht in H3. apply app_inv_tail in H3. now subst.
  - intros before l after Hls Hpass Hl. rewrite Hls in *.
    destruct (runBeforeLoop_refused E before l after p route s Hpass Hl)
      as (new' & H1 & _ & H3 & H4).
    split; [exact H1|]. rewrite Ht in H3. apply app_inv_tail in H3. now subst.
Qed.

End ListenerFacts.

(** ** Navigations that go through *)

Module CompletionFacts.
Import NavigationFacts Succeeding HistoryFacts ListenerFacts.

(** *** Running a computation step by step *)

Lemma after_ret {A} (a : A) s (Q : A -> State -> Prop) :
  Q a s -> after (ret a) s Q.
Proof. intros H. exists a, s. split; [reflexivity|exact H]. Qed.

Lemma after_bind {A B} (c : M A) (k : A -> M B) s (Q : B -> State -> Prop) :
  after c s (fun a s1 => after (k a) s1 Q) -> after (bind c k) s Q.
Proof.
  intros (a & s1 & Hc & b & s2 & Hk & HQ). exists b, s2.
  unfold bind. rewrite Hc. split; assumption.
Qed.

Lemma after_this {A} (f : Router -> A) s (Q : A -> State -> Prop) :
  Q (f (router s)) s -> after (this f) s Q.
Proof. intros H. eexists _, s. split; [reflexivity|exact H]. Qed.

Lemma after_read {A} (f : State -> A) s (Q : A -> State -> Prop) :
  Q (f s) s -> after (read f) s Q.
Proof. intros H. eexists _, s. split; [reflexivity|exact H]. Qed.

Lemma after_assign (f : Router -> Router) s (Q : unit -> State -> Prop) :
  Q tt (on_router f s) -> after (assign f) s Q.
Proof. intros H. eexists tt, _. split; [reflexivity|exact H]. Qed.

Lemma after_console (m : message) s (Q : unit -> State -> Prop) :
  Q tt (emit (Console m) s) -> after (console m) s Q.
Proof. intros H. eexists tt, _. split; [reflexivity|exact H]. Qed.

Lemma after_perform E op s (Q : unit -> State -> Prop) :
  fails E op = None -> Q tt (emit (Did op) s) -> after (perform E op) s Q.
Proof.
  intros Hok H. exists tt, (emit (Did op) s). split; [|exact H].
  unfold perform. now rewrite Hok.
Qed.

Lemma after_detached {A} (c : M A) s (Q : unit -> State -> Prop) :
  Q tt (snd (c s)) -> after (detached c) s Q.
Proof. intros H. eexists tt, _. split; [reflexivity|exact H]. Qed.

Lemma after_try {A} (c : M A) (h : exn -> M A) s (Q : A -> State -> Prop) :
  after c s Q -> after (try_catch c h) s Q.
Proof.
  intros (a & s' & Hc & HQ). exists a, s'. split; [|exact HQ].
  unfold try_catch. now rewrite Hc.
Qed.

Lemma after_weaken {A} (c : M A) s (Q Q' : A -> State -> Prop) :
  after c s Q -> (forall a s', Q a s' -> Q' a s') -> after c s Q'.
Proof. intros (a & s' & Hc & HQ) H. exists a, s'. split; [exact Hc|now apply H]. Qed.

Lemma after_opaque {A} (c : M A) (R : State -> State -> Prop) (P : A -> Prop) s :
  yields c P -> keeps R c -> after c s (fun a s' => P a /\ R s s').
Proof.
  intros Hy Hk. destruct (Hy s) as (a & Ha & HP). specialize (Hk s).
  destruct (c s) as [r s'] eqn:Hc. simpl in *. subst r.
  exists a, s'. split; [exact Hc|]. split; assumption.
Qed.

(** *** Wakes *)

Lemma calm_filters (new : list event) :
  forallb calm new = true ->
  filter handler_call new = [] /\ filter url_change new = [].
Proof.
  induction new as [|e new IH]; simpl; [auto|].
  intros H. apply andb_prop in H as [He Hnew].
  destruct (IH Hnew) as [-> ->]. unfold calm in He.
  apply andb_prop in He as [H1 H2].
  destruct (handler_call e); [discriminate|].
  destruct (url_change e); [discriminate|]. auto.
Qed.

Lemma same_metrics (r : Router) : r = with_navigationMetrics (navigationMetrics r) r.
Proof. now destruct r. Qed.

Lemma wake_quiet s s' : quiet s s' -> wake [] s s'.
Proof.
  intros (Hr & Hl & He & new & Ht & Hcalm).
  destruct (calm_filters new Hcalm) as [H1 H2].
  split; [rewrite Hr; apply same_metrics|].
  split; [exact Hl|]. split; [exact He|].
  exists new. auto.
Qed.

Lemma wake_trans hs hs' a b c :
  wake hs a b -> wake hs' b c -> wake (hs' ++ hs) a c.
Proof.
  intros (H1 & H2 & H3 & n1 & H4 & H5 & H6) (G1 & G2 & G3 & n2 & G4 & G5 & G6).
  split.
  { rewrite G1, H1. reflexivity. }
  split; [congruence|]. split; [congruence|].
  exists (n2 ++ n1). rewrite G4, H4, app_assoc, !filter_app, G5, G6, H5, H6.
  auto.
Qed.

(** One more step behind a wake. *)
Lemma stride {A B} (c : M A) (k : A -> M B) hs hs' s0 s
  (P : A -> Prop) (Q : B -> State -> Prop) :
  wake hs s0 s ->
  after c s (fun a s' => P a /\ wake hs' s s') ->
  (forall a s', P a -> wake (hs' ++ hs) s0 s' -> after (k a) s' Q) ->
  after (bind c k) s Q.
Proof.
  intros Hacc Hc Hk. apply after_bind.
  eapply after_weaken; [exact Hc|].
  intros a s' [HP Hw]. apply Hk; [exact HP|].
  eapply wake_trans; eassumption.
Qed.

(** *** The steps that leave the router alone *)

Section Quiet.

Variable E : Env.

Lemma quiet_tick s :
  quiet s (mkState (router s) (location s) (entries s) (S (ticks s)) (trace s)).
Proof. unfold quiet. simpl. repeat split. exists []. split; reflexivity. Qed.

Lemma quiet_console m : keeps quiet (console m).
Proof. intros s. apply quiet_emit. reflexivity. Qed.

Lemma quiet_now : keeps quiet (now E).
Proof. intros s. apply quiet_tick. Qed.

Lemma quiet_perform op :
  url_change (Did op) = false -> keeps quiet (perform E op).
Proof.
  intros H s. unfold perform. destruct (fails E op); simpl; [apply quiet_refl|].
  apply quiet_emit. unfold calm. now rewrite H.
Qed.

Lemma quiet_dispatchEvent name d : keeps quiet (dispatchEvent E name d).
Proof. apply quiet_perform. reflexivity. Qed.

Lemma quiet_runErrorListeners ls a :
  (forall f, calm (Called f a) = true) -> keeps quiet (runErrorListeners E ls a).
Proof.
  intros Ha. induction ls as [|l ls IH]; simpl.
  - intros s. apply quiet_refl.
  - apply Keeping.keeps_bind; [exact quiet_trans| |intros _; exact IH].
    apply Keeping.keeps_try_catch; [exact quiet_trans| |intros e; apply quiet_console].
    apply Keeping.keeps_bind; [exact quiet_trans| |intros v s; apply quiet_refl].
    intros s. apply quiet_emit, Ha.
Qed.

Lemma quiet_handleError type error context :
  keeps quiet (handleError E type error context).
Proof.
  unfold handleError.
  apply Keeping.keeps_bind; [exact quiet_trans|apply quiet_now|intros _].
  apply Keeping.keeps_bind; [exact quiet_trans|intros s; apply quiet_refl|intros ls].
  apply Keeping.keeps_bind; [exact quiet_trans| |intros _; apply quiet_dispatchEvent].
  apply quiet_runErrorListeners. reflexivity.
Qed.

Lemma quiet_handleTransition route : keeps quiet (handleTransition E route).
Proof.
  unfold handleTransition.
  apply Keeping.keeps_bind; [exact quiet_trans|intros s; apply quiet_refl|intros d].
  apply quiet_perform. reflexivity.
Qed.

Lemma quiet_updatePageMeta route : keeps quiet (updatePageMeta E route).
Proof. apply quiet_perform. reflexivity. Qed.

Lemma quiet_updateNavigationState p : keeps quiet (updateNavigationState E p).
Proof. apply quiet_perform. reflexivity. Qed.

Lemma quiet_scrollToSection p : keeps quiet (scrollToSection E p).
Proof.
  unfold scrollToSection.
  apply Keeping.keeps_bind; [exact quiet_trans|intros s; apply quiet_refl|intros d].
  apply quiet_perform. reflexivity.
Qed.

Lemma quiet_runAfterLoop ls p route : keeps quiet (runAfterLoop E ls p route).
Proof.
  induction ls as [|l ls IH]; simpl.
  - intros s. apply quiet_refl.
  - apply Keeping.keeps_bind; [exact quiet_trans|intros s; apply quiet_refl|intros prev].
    apply Keeping.keeps_bind; [exact quiet_trans| |intros _; exact IH].
    apply Keeping.keeps_try_catch; [exact quiet_trans| |intros e; apply quiet_console].
    apply Keeping.keeps_bind; [exact quiet_trans| |intros v s; apply quiet_refl].
    intros s. apply quiet_emit. reflexivity.
Qed.

Lemma quiet_runAfterListeners p route : keeps quiet (runAfterListeners E p route).
Proof.
  unfold runAfterListeners.
  apply Keeping.keeps_bind; [exact quiet_trans|intros s; apply quiet_refl|intros ls].
  apply quiet_runAfterLoop.
Qed.

Lemma quiet_runGuard guard route : keeps quiet (runGuard E guard route).
Proof.
  unfold runGuard.
  apply Keeping.keeps_try_catch; [exact quiet_trans| |intros e].
  - intros s. apply quiet_emit. reflexivity.
  - apply Keeping.keeps_bind; [exact quiet_trans|apply quiet_console|].
    intros _ s. apply quiet_refl.
Qed.

Lemma quiet_trackPageView p route : keeps quiet (trackPageView E p route).
Proof.
  unfold trackPageView.
  apply Keeping.keeps_bind; [exact quiet_trans| |intros _; apply quiet_dispatchEvent].
  apply Keeping.keeps_when; [exact quiet_refl|]. apply quiet_perform. reflexivity.
Qed.

End Quiet.

Create HintDb calmly.

(** *** The steps that complete when the browser does *)

Section Reliable.

Variable E : Env.
Hypothesis sound : reliable E.

Lemma completes_perform op : yields (perform E op) (fun _ => True).
Proof.
  intros s. unfold perform. rewrite (sound op).
  exists tt. split; [reflexivity|exact I].
Qed.

Lemma completes_now : yields (now E) (fun _ => True).
Proof. intros s. eexists. split; [reflexivity|exact I]. Qed.

(** What is caught cannot get out. *)
Lemma completes_caught {A} (c : M A) (h : exn -> M A) :
  (forall e, yields (h e) (fun _ => True)) ->
  yields (try_catch c h) (fun _ => True).
Proof.
  intros Hh s. unfold try_catch. destruct (c s) as [[a|e] s1].
  - exists a. split; [reflexivity|exact I].
  - apply Hh.
Qed.

Lemma completes_dispatchEvent name d :
  yields (dispatchEvent E name d) (fun _ => True).
Proof. apply completes_perform. Qed.

Lemma completes_runErrorListeners ls a :
  yields (runErrorListeners E ls a) (fun _ => True).
Proof.
  induction ls as [|l ls IH]; simpl; [now apply yields_ret|].
  eapply yields_bind; [|intros _ _; exact IH].
  apply completes_caught. intros e. apply yields_console.
Qed.

Lemma completes_handleError type error context :
  yields (handleError E type error context) (fun _ => True).
Proof.
  unfold handleError.
  eapply yields_bind; [apply completes_now|intros _ _].
  eapply yields_bind; [apply yields_this|intros ls _].
  eapply yields_bind; [apply completes_runErrorListeners|intros _ _].
  apply completes_dispatchEvent.
Qed.

Lemma completes_handleTransition route :
  yields (handleTransition E route) (fun _ => True).
Proof.
  unfold handleTransition.
  eapply yields_bind; [apply yields_this|intros d _]. apply completes_perform.
Qed.

Lemma completes_scrollToSection p :
  yields (scrollToSection E p) (fun _ => True).
Proof.
  unfold scrollToSection.
  eapply yields_bind; [apply yields_this|intros d _]. apply completes_perform.
Qed.

Lemma completes_runAfterLoop ls p route :
  yields (runAfterLoop E ls p route) (fun _ => True).
Proof.
  induction ls as [|l ls IH]; simpl; [now apply yields_ret|].
  eapply yields_bind; [apply yields_this|intros prev _].
  eapply yields_bind; [|intros _ _; exact IH].
  apply completes_caught. intros e. apply yields_console.
Qed.

Lemma completes_runAfterListeners p route :
  yields (runAfterListeners E p route) (fun _ => True).
Proof.
  unfold runAfterListeners.
  eapply yields_bind; [apply yields_this|intros ls _].
  apply completes_runAfterLoop.
Qed.

Lemma completes_runGuard guard route :
  yields (runGuard E guard route) (fun _ => True).
Proof.
  unfold runGuard. apply completes_caught. intros e.
  eapply yields_bind; [apply yields_console|intros _ _]. now apply yields_ret.
Qed.

Lemma completes_trackPageView p route :
  yields (trackPageView E p route) (fun _ => True).
Proof.
  unfold trackPageView.
  eapply yields_bind; [|intros _ _; apply completes_dispatchEvent].
  apply yields_when, completes_perform.
Qed.

(** A step that completes and is quiet. *)
Lemma calmly {A} (c : M A) s :
  yields c (fun _ => True) -> keeps quiet c ->
  after c s (fun _ s' => True /\ wake [] s s').
Proof.
  intros Hy Hk. eapply after_weaken; [apply (after_opaque c quiet _ s Hy Hk)|].
  intros a s' [_ Hq]. split; [exact I|now apply wake_quiet].
Qed.

(** The handler runs once; what it throws is reported and goes no
    further. *)
Lemma executeRoute_run route s :
  after (executeRoute E route) s
        (fun _ s' => True /\ wake [Called (handler route) (HandlerArgs route)] s s').
Proof.
  assert (Hcall : wake [Called (handler route) (HandlerArgs route)] s
                       (emit (Called (handler route) (HandlerArgs route)) s)).
  { split; [apply same_metrics|]. split; [reflexivity|]. split; [reflexivity|].
    exists [Called (handler route) (HandlerArgs route)]. repeat split. }
  unfold executeRoute.
  destruct (call E (handler route) (HandlerArgs route)) as [v|e] eqn:Hv.
  - exists tt, (emit (Called (handler route) (HandlerArgs route)) s).
    split; [|split; [exact I|exact Hcall]].
    unfold try_catch, bind, invoke. rewrite Hv. reflexivity.
  - destruct (calmly (console (ErrHandler e) ;;
                      handleError E "handler" e (PString (path route)))
                     (emit (Called (handler route) (HandlerArgs route)) s))
      as (u & s' & Hrun & _ & Hw).
    + eapply yields_bind; [apply yields_console|intros _ _].
      apply completes_handleError.
    + apply Keeping.keeps_bind;
        [exact quiet_trans|apply quiet_console|intros _; apply quiet_handleError].
    + exists u, s'. split.
      * unfold try_catch, bind at 1, invoke. rewrite Hv. exact Hrun.
      * split; [exact I|]. apply (wake_trans _ _ _ _ _ Hcall Hw).
Qed.

Lemma trackNavigation_run p duration s :
  after (trackNavigation E p duration) s (fun _ s' => True /\ wake [] s s').
Proof.
  eexists tt, _. split; [reflexivity|]. split; [exact I|].
  split; [reflexivity|]. split; [reflexivity|]. split; [reflexivity|].
  eexists [_]. repeat split.
Qed.

(** [addToHistory] as a function of the list. *)
Lemma addToHistory_run p route s :
  exists s',
    addToHistory E p route s = (Normal tt, s')
    /\ router s'
       = with_history (recorded (history (router s)) (maxHistoryLength (router s))
                                (mkEntry p (title route) (clock E (ticks s))))
                      (router s)
    /\ location s' = location s /\ entries s' = entries s /\ trace s' = trace s.
Proof.
  unfold addToHistory, recorded. rewrite bind_this. simpl h_path.
  destruct (match newest (history (router s)) with
            | Some last => String.eqb (h_path last) p
            | None => false
            end).
  - exists s. split; [reflexivity|]. split; [now destruct (router s)|].
    repeat split.
  - unfold bind, now, assign, update, when, this, read, ret. simpl.
    destruct (maxHistoryLength (router s) <? _); eexists; (split; [reflexivity|]);
      simpl; repeat split.
Qed.

Lemma quiet_when (b : bool) (c : M unit) : keeps quiet c -> keeps quiet (when b c).
Proof. apply Keeping.keeps_when. exact quiet_refl. Qed.

Lemma completes_hook route :
  yields (match afterEnter route with
          | Some hook => runGuard E hook route ;; ret tt
          | None => ret tt
          end) (fun _ => True).
Proof.
  destruct (afterEnter route); [|now apply yields_ret].
  eapply yields_bind; [apply completes_runGuard|intros _ _]. now apply yields_ret.
Qed.

Lemma quiet_hook route :
  keeps quiet (match afterEnter route with
               | Some hook => runGuard E hook route ;; ret tt
               | None => ret tt
               end).
Proof.
  destruct (afterEnter route); [|intros s; apply quiet_refl].
  apply Keeping.keeps_bind; [exact quiet_trans|apply quiet_runGuard|].
  intros _ s. apply quiet_refl.
Qed.

#[local] Hint Resolve yields_when quiet_when completes_perform completes_now
  completes_dispatchEvent completes_handleTransition completes_scrollToSection
  completes_runAfterListeners completes_hook completes_trackPageView
  yields_console quiet_console quiet_now quiet_dispatchEvent
  quiet_handleTransition quiet_updatePageMeta quiet_updateNavigationState
  quiet_scrollToSection quiet_runAfterListeners quiet_hook quiet_trackPageView
  : calmly.

Ltac calm_stride H :=
  eapply (stride _ _ _ _ _ _ _ _ H);
  [ apply calmly;
    [ solve [unfold updatePageMeta, updateNavigationState; auto with calmly]
    | solve [auto with calmly] ]
  | clear H; intros ? ? _ H; simpl app in H ].

(** From "Add to history" to [return true]: the entry is recorded, the
    handler runs once, and the call answers [true]. *)
Lemma navigateSteps_run startTime p route options s :
  after (navigateSteps E startTime p route options) s
    (fun v s' =>
       v = VTrue
       /\ exists s7,
            router s7
            = with_history
                (recorded (history (router s)) (maxHistoryLength (router s))
                          (mkEntry p (title route) (clock E (ticks s))))
                (router s)
            /\ location s7 = location s /\ entries s7 = entries s
            /\ trace s7 = trace s
            /\ wake [Called (handler route) (HandlerArgs route)] s7 s').
Proof.
  destruct (addToHistory_run p route s) as (s7 & Hadd & Hr & Hl & He & Ht).
  unfold navigateSteps. apply after_bind. exists tt, s7. split; [exact Hadd|].
  assert (Hacc : wake [] s7 s7) by apply wake_quiet, quiet_refl.
  apply after_bind, after_this.
  calm_stride Hacc.
  eapply (stride _ _ _ _ _ _ _ _ Hacc); [apply executeRoute_run|].
  clear Hacc; intros ? ? _ Hacc; simpl app in Hacc.
  calm_stride Hacc.
  calm_stride Hacc.
  calm_stride Hacc.
  calm_stride Hacc.
  calm_stride Hacc.
  calm_stride Hacc.
  eapply (stride _ _ _ _ _ _ _ _ Hacc); [apply trackNavigation_run|].
  clear Hacc; intros ? ? _ Hacc; simpl app in Hacc.
  apply after_bind, after_this.
  calm_stride Hacc.
  calm_stride Hacc.
  apply after_bind, after_this.
  calm_stride Hacc.
  apply after_ret. split; [reflexivity|].
  exists s7. auto.
Qed.

(** [updateURL] when [pushState] does not throw. *)
Lemma updateURL_run p s :
  updateURL E p s
  = (Normal tt,
     if String.eqb (href (location s))
                   (pathname (location s) ++ search (location s) ++ "#" ++ p)
     then s else pushed E p s).
Proof.
  unfold updateURL, bind at 1, read.
  destruct (String.eqb _ _); [reflexivity|].
  unfold bind, perform, update. rewrite (sound _). reflexivity.
Qed.

(** The [try] block of a navigation that nobody refuses. *)
Lemma navigateTry_run nested startTime p options s route :
  let np := normalizePath (config (router s)) p in
  let url := (pathname (location s) ++ search (location s) ++ "#" ++ np)%string in
  let stays := fromHashChange options || String.eqb (href (location s)) url in
  StrMap.get (routes (router s)) np = Some route ->
  same_route (currentRoute (router s)) np && negb (force options) = false ->
  admitted E (router s) np route ->
  after (navigateTry E nested startTime p options) s
    (fun v s' =>
       v = VTrue
       /\ (exists t,
             router s'
             = with_navigationMetrics (navigationMetrics (router s'))
                 (with_history
                    (recorded (history (router s)) (maxHistoryLength (router s))
                              (mkEntry np (title route) t))
                    (with_currentRoute (Some np)
                       (with_previousRoute (currentRoute (router s)) (router s)))))
       /\ location s' = location (if stays then s else pushed E np s)
       /\ (stays = true -> entries s' = entries s)
       /\ exists new,
            trace s' = new ++ trace s
            /\ filter handler_call new = [Called (handler route) (HandlerArgs route)]
            /\ filter url_change new
               = if stays then [] else [Did (PushState np url)]).
Proof.
  intros np url stays Hfound Hsame [Hpass Hguard].
  unfold navigateTry. apply after_bind, after_this. cbv zeta. fold np.
  apply after_bind, after_this. rewrite Hfound.
  apply after_bind, after_this. rewrite Hsame.
  apply after_bind, after_assign.
  set (s2 := on_router (with_previousRoute (currentRoute (router s))) s).
  (* the before-listeners *)
  apply after_bind.
  destruct (runBeforeLoop_passes E (beforeRoute (listeners (router s2))) np route s2
              Hpass) as (new3 & H3 & Hr3 & Hl3 & He3 & Ht3 & _ & Hc3).
  exists VTrue, (snd (runBeforeLoop E (beforeRoute (listeners (router s2))) np route s2)).
  split.
  { unfold runBeforeListeners. rewrite bind_this.
    destruct (runBeforeLoop E _ np route s2) as [v s3]. simpl in H3. now subst v. }
  set (s3 := snd (runBeforeLoop E (beforeRoute (listeners (router s2))) np route s2))
    in *.
  cbv iota beta. simpl is_false. cbv iota.
  (* the guard *)
  apply after_bind.
  assert (Hg : after (match beforeEnter route with
                      | Some guard => runGuard E guard route
                      | None => ret VUndefined
                      end) s3
                     (fun v s4 => is_false v = false /\ quiet s3 s4)).
  { destruct (beforeEnter route) as [g|] eqn:Hbe.
    - destruct (Hguard g eq_refl) as (v & Hcall & Hv).
      exists v, (emit (Called g (GuardArgs route)) s3). split.
      + unfold runGuard, try_catch, invoke. rewrite Hcall. reflexivity.
      + split; [exact Hv|]. apply quiet_emit. reflexivity.
    - apply after_ret. split; [reflexivity|apply quiet_refl]. }
  eapply after_weaken; [exact Hg|].
  intros v s4 [Hv (Hr4 & Hl4 & He4 & new4 & Ht4 & Hc4)]. rewrite Hv.
  assert (Hl42 : location s4 = location s) by (rewrite Hl4; fold s3; now rewrite Hl3).
  assert (He42 : entries s4 = entries s) by (rewrite He4; fold s3; now rewrite He3).
  (* the address *)
  apply after_bind.
  exists tt, (if stays then s4 else pushed E np s4). split.
  { unfold stays. destruct (fromHashChange options); [reflexivity|].
    simpl. rewrite updateURL_run, Hl42. reflexivity. }
  set (s5 := if stays then s4 else pushed E np s4).
  assert (Hr5 : router s5 = router s4).
  { unfold s5. destruct stays; reflexivity. }
  assert (Hl5 : location s5 = location (if stays then s else pushed E np s)).
  { unfold s5. destruct stays; [exact Hl42|]. simpl. now rewrite Hl42. }
  assert (He5 : stays = true -> entries s5 = entries s).
  { unfold s5. intros ->. exact He42. }
  assert (Ht5 : exists new5,
             trace s5 = new5 ++ trace s4
             /\ filter handler_call new5 = []
             /\ filter url_change new5
                = if stays then [] else [Did (PushState np url)]).
  { unfold s5. destruct stays; [exists []; repeat split|].
    exists [Did (PushState np url)]. unfold url. simpl. rewrite Hl42.
    repeat split. }
  destruct Ht5 as (new5 & Ht5 & Hc5 & Hu5).
  apply after_bind, after_assign.
  eapply after_weaken; [apply navigateSteps_run|].
  intros v' s' (-> & s7 & Hr7 & Hl7 & He7 & Ht7 & Hw).
  destruct Hw as (Hr' & Hl' & He' & new' & Ht' & Hc' & Hu').
  destruct (calm_filters _ Hc3) as [Hf3 Hu3].
  destruct (calm_filters _ Hc4) as [Hf4 Hu4].
  split; [reflexivity|]. split; [|split; [|split]].
  - eexists. rewrite Hr', Hr7. simpl. rewrite Hr5, Hr4. fold s3. rewrite Hr3.
    unfold s2. simpl. reflexivity.
  - rewrite Hl', Hl7. exact Hl5.
  - intros Hstays. rewrite He', He7. apply He5, Hstays.
  - exists (new' ++ new5 ++ new4 ++ new3).
    rewrite Ht', Ht7. simpl. rewrite Ht5, Ht4. fold s3. rewrite Ht3.
    unfold s2. simpl. rewrite <- !app_assoc. split; [reflexivity|].
    rewrite !filter_app, Hc', Hc5, Hf4, Hf3, Hu', Hu5, Hu4, Hu3.
    split; [reflexivity|]. now rewrite app_nil_r.
Qed.

(** An idle router, a registered route other than the current one (or
    [force]), nobody who refuses, a browser that does not throw: the call
    answers [true] and leaves the router on the route. *)
Lemma navigate_run depth p options s route :
  let np := normalizePath (config (router s)) p in
  let url := (pathname (location s) ++ search (location s) ++ "#" ++ np)%string in
  let stays := fromHashChange options || String.eqb (href (location s)) url in
  isNavigating (router s) = false ->
  StrMap.get (routes (router s)) np = Some route ->
  same_route (currentRoute (router s)) np && negb (force options) = false ->
  admitted E (router s) np route ->
  exists s',
    navigate E (S depth) p options s = (Normal VTrue, s')
    /\ (exists t,
          router s'
          = with_navigationMetrics (navigationMetrics (router s'))
              (with_history
                 (recorded (history (router s)) (maxHistoryLength (router s))
                           (mkEntry np (title route) t))
                 (with_currentRoute (Some np)
                    (with_previousRoute (currentRoute (router s)) (router s)))))
    /\ location s' = location (if stays then s else pushed E np s)
    /\ (stays = true -> entries s' = entries s)
    /\ exists new,
         trace s' = new ++ trace s
         /\ filter handler_call new = [Called (handler route) (HandlerArgs route)]
         /\ filter url_change new
            = if stays then [] else [Did (PushState np url)].
Proof.
  intros np url stays Hidle Hfound Hsame Hadm.
  rewrite navigate_idle by assumption.
  set (s1 := on_router (with_isNavigating true)
               (mkState (router s) (location s) (entries s) (S (ticks s)) (trace s))).
  destruct (navigateTry_run (fun q => navigate E depth q noOptions)
              (clock E (ticks s)) p options s1 route Hfound Hsame Hadm)
    as (v & s' & Htry & -> & (t & Hr) & Hl & He & new & Ht & Hc & Hu).
  change (location s1) with (location s) in Hl, He, Hu.
  change (config (router s1)) with (config (router s)) in Hl, He, Hu.
  fold np in Hl, He, Hu. fold url in Hl, He, Hu. fold stays in Hl, He, Hu.
  exists (on_router (with_isNavigating false) s'). split.
  { unfold try_finally, try_catch. rewrite Htry. reflexivity. }
  split; [|split; [|split]].
  - exists t. simpl. rewrite Hr. simpl.
    destruct (router s); simpl in *; subst; reflexivity.
  - simpl. rewrite Hl. destruct stays; reflexivity.
  - intros Hstays. simpl. apply He. exact Hstays.
  - exists new. split; [exact Ht|]. split; [exact Hc|exact Hu].
Qed.

End Reliable.

Lemma web_address_differs (l : Location) (p : string) :
  web_address l ->
  String.eqb (href l) (pathname l ++ search l ++ "#" ++ p) = false.
Proof.
  intros [(c & o & Ho & Hc) (rest & Hp)].
  apply String.eqb_neq. unfold href. rewrite Ho, Hp. simpl.
  intros [= H _]. contradiction.
Qed.

(** X15. A navigation that goes through.  The router is idle, the
    normalized path names a route other than the current one (or [force]
    is set), no before-listener answers [false] (those that throw are
    passed over), the route's guard, if any, does not answer [false], and
    no browser operation throws.  Then, whatever the handler, the
    after-listeners and the [afterEnter] hook do, [navigate] answers
    [true]; the router is on the route, the previous route is the one it
    was on, the flag is down, the history is the old one with the entry
    recorded, the table, the configuration and the listeners are as
    before; and the handler of the route has been called once, and no
    other handler. *)
Theorem navigation_goes_through
  (E : Env) (depth : nat) (p : pathArg) (options : NavOptions) (s : State)
  (route : Route) :
  let np := normalizePath (config (router s)) p in
  let r := router s in
  let s' := snd (navigate E (S depth) p options s) in
  reliable E ->
  isNavigating r = false ->
  StrMap.get (routes r) np = Some route ->
  same_route (currentRoute r) np && negb (force options) = false ->
  admitted E r np route ->
  fst (navigate E (S depth) p options s) = Normal VTrue
  /\ (exists timestamp,
        router s'
        = mkRouter (routes r) (Some np) (currentRoute r) false (config r)
                   (listeners r)
                   (recorded (history r) (maxHistoryLength r)
                             (mkEntry np (title route) timestamp))
                   (maxHistoryLength r) (navigationMetrics (router s')))
  /\ exists new,
       trace s' = new ++ trace s
       /\ filter handler_call new = [Called (handler route) (HandlerArgs route)].
Proof.
  intros np r s' Hsound Hidle Hfound Hsame Hadm. subst s'.
  destruct (navigate_run E Hsound depth p options s route Hidle Hfound Hsame Hadm)
    as (s' & -> & (t & Hr) & _ & _ & new & Ht & Hc & _).
  split; [reflexivity|]. split; [|exists new; split; [exact Ht|exact Hc]].
  exists t. simpl. rewrite Hr at 1. subst r np.
  destruct (router s); simpl in *; subst; reflexivity.
Qed.

Lemma bind_read {A B} (f : State -> A) (k : A -> M B) s :
  bind (read f) k s = k (f s) s.
Proof. reflexivity. Qed.

(** X16. [updateURL] on a page of the web always calls [pushState]: the
    absolute [location.href] never equals the relative URL it is compared
    with, so the call is made also when the address already shows the
    fragment.  The router is left alone. *)
Theorem updateURL_always_pushes (E : Env) (p : string) (s : State) :
  let url := (pathname (location s) ++ search (location s) ++ "#" ++ p)%string in
  web_address (location s) ->
  fails E (PushState p url) = None ->
  fst (updateURL E p s) = Normal tt
  /\ router (snd (updateURL E p s)) = router s
  /\ trace (snd (updateURL E p s)) = Did (PushState p url) :: trace s.
Proof.
  intros url Hweb Hok. unfold updateURL. rewrite bind_read.
  cbv zeta. rewrite (web_address_differs _ p Hweb).
  unfold bind, perform, update. fold url. rewrite Hok. repeat split.
Qed.

Lemma plain_char_facts (c : ascii) :
  Url.in_fragment_set (nat_of_ascii c) = false ->
  Url.c0_or_space c = false /\ Url.tab_or_newline c = false
  /\ Url.encode_char c = String c EmptyString.
Proof.
  destruct c as [[] [] [] [] [] [] [] []]; intros H;
    first [discriminate H | repeat split].
Qed.

Lemma plain_strip (s : string) : plain s = true -> Url.strip_end s = s.
Proof.
  induction s as [|c r IH]; simpl; [reflexivity|].
  intros H. apply andb_prop in H as [Hc Hr]. apply negb_true_iff in Hc.
  rewrite (IH Hr). destruct r as [|c' r']; [|reflexivity].
  now rewrite (proj1 (plain_char_facts c Hc)).
Qed.

Lemma plain_tabs (s : string) : plain s = true -> Url.remove_tabs s = s.
Proof.
  induction s as [|c r IH]; simpl; [reflexivity|].
  intros H. apply andb_prop in H as [Hc Hr]. apply negb_true_iff in Hc.
  destruct (plain_char_facts c Hc) as (_ & -> & _). now rewrite (IH Hr).
Qed.

Lemma plain_encode (s : string) : plain s = true -> Url.encode s = s.
Proof.
  induction s as [|c r IH]; simpl; [reflexivity|].
  intros H. apply andb_prop in H as [Hc Hr]. apply negb_true_iff in Hc.
  destruct (plain_char_facts c Hc) as (_ & _ & ->). simpl. now rewrite (IH Hr).
Qed.

(** A plain path shows in the address as it is. *)
Lemma plain_hash (p : string) :
  plain p = true -> p <> "" -> Url.hashOf (Url.fragmentOf p) = String "#" p.
Proof.
  intros Hp Hne. unfold Url.fragmentOf.
  rewrite (plain_strip p Hp), (plain_tabs p Hp), (plain_encode p Hp).
  destruct p; [contradiction|reflexivity].
Qed.

(** X17. The address follows the navigation.  After a navigation that
    goes through on a page of the web, to a path of plain characters (which
    the URL parser takes into the fragment as they are), the fragment
    names the route; so the handlers of [hashchange], [popstate] and
    [visibilitychange], which compare the fragment with the current route,
    find nothing to do.  A navigation that comes from a hash change leaves
    the address and the length of the browser history alone. *)
Theorem address_follows_navigation
  (E : Env) (depth depth' : nat) (p : pathArg) (options : NavOptions) (s : State)
  (route : Route) :
  let np := normalizePath (config (router s)) p in
  let r := router s in
  let s' := snd (navigate E (S depth) p options s) in
  reliable E ->
  web_address (location s) ->
  np <> "" ->
  plain np = true ->
  isNavigating r = false ->
  StrMap.get (routes r) np = Some route ->
  same_route (currentRoute r) np && negb (force options) = false ->
  admitted E r np route ->
  (fromHashChange options = true ->
   location s' = location s /\ entries s' = entries s)
  /\ (fromHashChange options = false ->
      location s'
      = mkLocation (origin (location s)) (pathname (location s))
                   (search (location s)) ("#" ++ np)
      /\ snd (handleHashChange E depth' s') = s'
      /\ snd (handlePopState E depth' s') = s'
      /\ snd (validateCurrentRoute E depth' s') = s').
Proof.
  intros np r s' Hsound Hweb Hne Hplain Hidle Hfound Hsame Hadm. subst s'.
  destruct (navigate_run E Hsound depth p options s route Hidle Hfound Hsame Hadm)
    as (s' & -> & (t & Hr) & Hl & He & _).
  fold np in Hl, He, Hr. rewrite (web_address_differs _ np Hweb) in Hl, He.
  cbn [snd]. split; intros Hfrom; rewrite Hfrom in Hl, He; simpl in Hl, He.
  - split; [exact Hl|apply He; reflexivity].
  - rewrite (plain_hash np Hplain Hne) in Hl.
    assert (Hcur : currentRoute (router s') = Some np) by (rewrite Hr; reflexivity).
    split; [exact Hl|].
    unfold handleHashChange, handlePopState, validateCurrentRoute, getPathFromURL,
      bind, read, this, when. simpl.
    rewrite Hl, Hcur. simpl. rewrite String.eqb_refl. simpl. auto.
Qed.

Lemma newest_snoc (h : list HistoryEntry) (e : HistoryEntry) :
  newest (h ++ [e]) = Some e.
Proof.
  unfold newest. rewrite length_app. simpl.
  replace (List.length h + 1 - 1) with (List.length h) by lia.
  rewrite nth_error_app2 by lia. now rewrite Nat.sub_diag.
Qed.

Lemma recorded_again (h : list HistoryEntry) (limit : nat) (e last : HistoryEntry) :
  h_path last = h_path e -> recorded (h ++ [last]) limit e = h ++ [last].
Proof.
  intros H. unfold recorded. rewrite newest_snoc, H, String.eqb_refl. reflexivity.
Qed.

(** X18. [back] with two or more entries in the history: the newest entry
    is dropped and the router navigates to the one before it.  When that
    navigation goes through, the router is on that entry's route and the
    history is the old one without its newest entry (the entry navigated
    to is not recorded a second time). *)
Theorem back_returns_to_the_entry_before
  (E : Env) (depth : nat) (s : State) (older : list HistoryEntry)
  (target current : HistoryEntry) (route : Route) :
  let r := router s in
  let s' := snd (back E (S depth) s) in
  reliable E ->
  isNavigating r = false ->
  history r = older ++ [target; current] ->
  normalizePath (config r) (PString (h_path target)) = h_path target ->
  StrMap.get (routes r) (h_path target) = Some route ->
  same_route (currentRoute r) (h_path target) = false ->
  admitted E r (h_path target) route ->
  fst (back E (S depth) s) = Normal VTrue
  /\ currentRoute (router s') = Some (h_path target)
  /\ previousRoute (router s') = currentRoute r
  /\ history (router s') = older ++ [target].
Proof.
  intros r s' Hsound Hidle Hh Hnorm Hfound Hsame Hadm. subst s' r.
  assert (Hpop : removelast (history (router s)) = older ++ [target]).
  { rewrite Hh. change [target; current] with ([target] ++ [current]).
    rewrite app_assoc. apply removelast_last. }
  unfold back. rewrite bind_this.
  assert (Hlen : (1 <? List.length (history (router s))) = true).
  { apply Nat.ltb_lt. rewrite Hh, length_app. simpl. lia. }
  rewrite Hlen, bind_assign, bind_this.
  set (s1 := on_router (fun r => with_history (removelast (history r)) r) s).
  assert (H1 : history (router s1) = older ++ [target]) by exact Hpop.
  rewrite H1, newest_snoc.
  assert (Hc1 : config (router s1) = config (router s)) by reflexivity.
  destruct (navigate_run E Hsound depth (PString (h_path target)) noOptions s1 route)
    as (s' & -> & (t & Hr) & _).
  - exact Hidle.
  - rewrite Hc1, Hnorm. exact Hfound.
  - rewrite Hc1, Hnorm. change (currentRoute (router s1)) with (currentRoute (router s)).
    rewrite Hsame. reflexivity.
  - rewrite Hc1, Hnorm. exact Hadm.
  - rewrite Hc1, Hnorm, H1 in Hr.
    rewrite recorded_again in Hr by reflexivity.
    cbn [fst snd]. rewrite Hr. simpl. auto.
Qed.

(** X19. [back] while a navigation is in flight: the newest entry of the
    history is dropped all the same, the navigation to the entry before it
    is refused, and [back] answers [false]; the router stays on its route
    with a history that no longer ends with it. *)
Theorem back_in_flight_drops_an_entry
  (E : Env) (depth : nat) (s : State) :
  isNavigating (router s) = true ->
  1 < List.length (history (router s)) ->
  fst (back E (S depth) s) = Normal VFalse
  /\ router (snd (back E (S depth) s))
     = with_history (removelast (history (router s))) (router s)
  /\ location (snd (back E (S depth) s)) = location s
  /\ entries (snd (back E (S depth) s)) = entries s.
Proof.
  intros Hbusy Hlen. unfold back. rewrite bind_this.
  apply Nat.ltb_lt in Hlen as Hlt. rewrite Hlt, bind_assign, bind_this.
  set (s1 := on_router (fun r => with_history (removelast (history r)) r) s).
  change (history (router s1)) with (removelast (history (router s))).
  destruct (newest (removelast (history (router s)))) as [e|] eqn:He.
  - rewrite navigate_busy by exact Hbusy. repeat split.
  - exfalso. unfold newest in He. apply nth_error_None in He.
    destruct (history (router s)) as [|a [|b t]]; simpl in Hlen; try lia.
    change (removelast (a :: b :: t)) with (a :: removelast (b :: t)) in He.
    simpl in He. lia.
Qed.

(** X20. A hash change.  The path is the fragment without its first
    character, or the default route when the fragment is empty; when it
    equals the current route nothing happens; otherwise the router
    navigates there, and when that navigation goes through the router is
    on the route while the address and the browser history are as the hash
    change left them: no state is pushed. *)
Theorem hash_change_navigates_without_pushing
  (E : Env) (depth : nat) (s : State) (route : Route) :
  let r := router s in
  let x := if truthy (hash (location s)) then substring1 (hash (location s))
           else defaultRoute (config r) in
  let np := normalizePath (config r) (PString x) in
  let s' := snd (handleHashChange E (S depth) s) in
  (currentRoute r = Some x -> s' = s)
  /\ (currentRoute r <> Some x ->
      reliable E ->
      isNavigating r = false ->
      StrMap.get (routes r) np = Some route ->
      same_route (currentRoute r) np = false ->
      admitted E r np route ->
      currentRoute (router s') = Some np
      /\ previousRoute (router s') = currentRoute r
      /\ location s' = location s /\ entries s' = entries s).
Proof.
  intros r x np s'. subst s'.
  unfold handleHashChange. rewrite bind_read, bind_this, bind_this.
  fold r x. split.
  - intros Hcur. rewrite Hcur. simpl. now rewrite String.eqb_refl.
  - intros Hcur Hsound Hidle Hfound Hsame Hadm.
    assert (Hd : differs (PString x) (currentRoute r) = true).
    { unfold differs. destruct (currentRoute r) as [c|]; [|reflexivity].
      apply negb_true_iff, String.eqb_neq. congruence. }
    rewrite Hd. unfold when, detached. cbn [snd].
    destruct (navigate_run E Hsound depth (PString x)
                (mkNavOptions false true false false) s route)
      as (s' & -> & (t & Hr) & Hl & He & _); try assumption.
    + fold r np. now rewrite Hsame.
    + cbn [snd]. rewrite Hr. simpl in Hl, He. simpl.
      split; [reflexivity|]. split; [reflexivity|].
      split; [exact Hl|apply He; reflexivity].
Qed.

(** X21. A pop state (the browser's back or forward button).  The path is
    the fragment, or [null] when there is none; the router navigates there
    as for any other call, for [navigate] does not read the option
    [fromPopState]: on a page of the web a navigation that goes through
    calls [pushState] once, with the URL of the route, on top of the entry
    the browser has just moved to. *)
Theorem pop_state_navigation_pushes_a_state
  (E : Env) (depth : nat) (s : State) (route : Route) :
  let r := router s in
  let np := normalizePath (config r) (getPathFromURL (location s)) in
  let url := (pathname (location s) ++ search (location s) ++ "#" ++ np)%string in
  let s' := snd (handlePopState E (S depth) s) in
  reliable E ->
  web_address (location s) ->
  isNavigating r = false ->
  StrMap.get (routes r) np = Some route ->
  same_route (currentRoute r) np = false ->
  admitted E r np route ->
  differs (getPathFromURL (location s)) (currentRoute r) = true ->
  currentRoute (router s') = Some np
  /\ exists new,
       trace s' = new ++ trace s
       /\ filter url_change new = [Did (PushState np url)].
Proof.
  intros r np url s' Hsound Hweb Hidle Hfound Hsame Hadm Hd. subst s' r.
  unfold handlePopState. rewrite bind_read, bind_this.
  rewrite Hd. unfold when, detached. cbn [snd].
  destruct (navigate_run E Hsound depth (getPathFromURL (location s))
              noOptions s route)
    as (s' & -> & (t & Hr) & _ & _ & new & Ht & _ & Hu); try assumption.
  - fold np. now rewrite Hsame.
  - fold np in Hu. rewrite (web_address_differs _ np Hweb) in Hu.
    cbn [snd]. rewrite Hr. split; [reflexivity|].
    exists new. split; [exact Ht|exact Hu].
Qed.

(** X22. [init] on a router whose table has the route of the address (the
    fragment, or the default route when there is none): [init] returns
    without an error, and once the navigation it starts has gone through
    the router is on that route, with the flag down. *)
Theorem init_lands_on_the_route_of_the_address
  (E : Env) (depth : nat) (s : State) (route : Route) :
  let r := router s in
  let np := normalizePath (config r)
              (or_default (config r) (getPathFromURL (location s))) in
  let s' := snd (init E (S depth) s) in
  reliable E ->
  isNavigating r = false ->
  StrMap.get (routes r) np = Some route ->
  same_route (currentRoute r) np = false ->
  admitted E r np route ->
  fst (init E (S depth) s) = Normal tt
  /\ currentRoute (router s') = Some np
  /\ previousRoute (router s') = currentRoute r
  /\ isNavigating (router s') = false.
Proof.
  intros r np s' Hsound Hidle Hfound Hsame Hadm. subst s' r.
  assert (H : after (init E (S depth)) s
                (fun _ s' =>
                   currentRoute (router s') = Some np
                   /\ previousRoute (router s') = currentRoute (router s)
                   /\ isNavigating (router s') = false)).
  { unfold init. apply after_bind, after_console, after_try.
    apply after_bind, after_perform; [apply Hsound|].
    unfold loadInitialRoute.
    apply after_bind, after_bind, after_read, after_bind, after_this, after_detached.
    set (s1 := emit (Did SetupListeners) (emit (Console LogInit) s)).
    destruct (navigate_run E Hsound depth
                (or_default (config (router s1)) (getPathFromURL (location s1)))
                noOptions s1 route)
      as (s' & -> & (t & Hr) & _); try assumption.
    - change (same_route (currentRoute (router s)) np && true = false).
      now rewrite Hsame.
    - cbn [snd]. apply after_bind, after_console.
      apply after_perform; [apply Hsound|].
      simpl. rewrite Hr. simpl. split; [reflexivity|].
      split; [reflexivity|exact Hidle]. }
  destruct H as ([] & s' & -> & H). split; [reflexivity|exact H].
Qed.

End CompletionFacts.

(** ** What goes wrong *)

Module FailureFacts.
Import NavigationFacts ListenerFacts CompletionFacts.

(** The error listeners are called in order, each inside its own [try]. *)
Lemma runErrorListeners_run E ls a s :
  exists s' new,
    runErrorListeners E ls a s = (Normal tt, s')
    /\ router s' = router s /\ location s' = location s
    /\ entries s' = entries s
    /\ trace s' = new ++ trace s
    /\ calls new = ls
    /\ Forall (fun e => (exists f, e = Called f a)
                        \/ exists err, e = Console (ErrErrorListener err)) new.
Proof.
  revert s. induction ls as [|l ls IH]; intros s.
  - exists s, []. repeat split. constructor.
  - simpl.
    assert (Hrest :
              forall s1 extra,
                router s1 = router s -> location s1 = location s ->
                entries s1 = entries s ->
                trace s1 = extra ++ trace s -> calls extra = [l] ->
                Forall (fun e => (exists f, e = Called f a)
                                 \/ exists err, e = Console (ErrErrorListener err))
                       extra ->
                exists s' new,
                  runErrorListeners E ls a s1 = (Normal tt, s')
                  /\ router s' = router s /\ location s' = location s
                  /\ entries s' = entries s
                  /\ trace s' = new ++ trace s
                  /\ calls new = l :: ls
                  /\ Forall (fun e => (exists f, e = Called f a)
                                      \/ exists err,
                                           e = Console (ErrErrorListener err)) new).
    { intros s1 extra Hr Hl He Ht Hc Hall.
      destruct (IH s1) as (s' & new & H1 & H2 & H3 & H4 & H5 & H6 & H7).
      exists s', (new ++ extra). rewrite H2, H3, H4, H5, Hr, Hl, He, Ht.
      repeat split; auto.
      - now rewrite app_assoc.
      - rewrite calls_app, Hc, H6. reflexivity.
      - apply Forall_app. split; assumption. }
    unfold bind at 1, try_catch, bind at 1, invoke.
    destruct (call E l a) as [v|err].
    + apply (Hrest _ [Called l a]); try reflexivity.
      constructor; [left; now exists l|constructor].
    + apply (Hrest _ [Console (ErrErrorListener err); Called l a]); try reflexivity.
      constructor; [right; now exists err|].
      constructor; [left; now exists l|constructor].
Qed.

Lemma handleError_run E type error context s :
  fails E (Dispatch "router:error" (ErrorData type error (or_null context))) = None ->
  after (handleError E type error context) s
    (fun _ s' =>
       router s' = router s /\ location s' = location s /\ entries s' = entries s
       /\ exists new,
            trace s'
            = Did (Dispatch "router:error" (ErrorData type error (or_null context)))
                :: new ++ trace s
            /\ calls new = routeError (listeners (router s))
            /\ Forall (fun e =>
                         (exists f,
                            e = Called f (ErrorArgs type error (or_null context)))
                         \/ exists err, e = Console (ErrErrorListener err)) new).
Proof.
  intros Hok. unfold handleError. apply after_bind.
  set (s1 := mkState (router s) (location s) (entries s) (S (ticks s)) (trace s)).
  exists (clock E (ticks s)), s1. split; [reflexivity|].
  apply after_bind, after_this, after_bind.
  destruct (runErrorListeners_run E (routeError (listeners (router s1)))
              (ErrorArgs type error (or_null context)) s1)
    as (s2 & new & Hrun & Hr & Hl & He & Ht & Hc & Hall).
  exists tt, s2. split; [exact Hrun|].
  apply after_perform; [exact Hok|].
  split; [exact Hr|]. split; [exact Hl|]. split; [exact He|].
  exists new. simpl. rewrite Ht. auto.
Qed.

(** X23. [handleError] calls every error listener, in the order of
    registration and each with the type, the error and the context
    ([null] for a context that is [undefined], by the default of the
    parameter); a listener that throws is logged and does not keep the
    others from being called.  Then "router:error" is dispatched.  The
    router is left as it was. *)
Theorem handleError_reports_to_every_listener
  (E : Env) (type : string) (error : exn) (context : pathArg) (s : State) :
  let s' := snd (handleError E type error context s) in
  let given := or_null context in
  fails E (Dispatch "router:error" (ErrorData type error given)) = None ->
  fst (handleError E type error context s) = Normal tt
  /\ router s' = router s
  /\ exists new,
       trace s'
       = Did (Dispatch "router:error" (ErrorData type error given))
           :: new ++ trace s
       /\ calls new = routeError (listeners (router s))
       /\ Forall (fun e => (exists f, e = Called f (ErrorArgs type error given))
                           \/ exists err, e = Console (ErrErrorListener err)) new.
Proof.
  intros s' given Hok. subst s' given.
  destruct (handleError_run E type error context s Hok)
    as ([] & s' & -> & Hr & _ & _ & Hnew).
  split; [reflexivity|]. split; [exact Hr|exact Hnew].
Qed.

(** The round of the before-listeners, whatever they answer: [true] or
    [false], and nothing but their calls and the log of those that threw. *)
Lemma runBeforeLoop_trace E ls p route s :
  exists v new,
    fst (runBeforeLoop E ls p route s) = Normal v
    /\ (v = VFalse \/ v = VTrue)
    /\ router (snd (runBeforeLoop E ls p route s)) = router s
    /\ location (snd (runBeforeLoop E ls p route s)) = location s
    /\ entries (snd (runBeforeLoop E ls p route s)) = entries s
    /\ trace (snd (runBeforeLoop E ls p route s)) = new ++ trace s
    /\ forallb calm new = true
    /\ forallb (fun e => negb (error_call e)) new = true.
Proof.
  revert s. induction ls as [|l ls IH]; intros s.
  - exists VTrue, []. repeat split. now right.
  - rewrite runBeforeLoop_cons. cbv zeta.
    set (args := ListenerArgs p route (currentRoute (router s))).
    assert (Hrest :
              forall s1 extra,
                router s1 = router s -> location s1 = location s ->
                entries s1 = entries s -> trace s1 = extra ++ trace s ->
                forallb calm extra = true ->
                forallb (fun e => negb (error_call e)) extra = true ->
                exists v new,
                  fst (runBeforeLoop E ls p route s1) = Normal v
                  /\ (v = VFalse \/ v = VTrue)
                  /\ router (snd (runBeforeLoop E ls p route s1)) = router s
                  /\ location (snd (runBeforeLoop E ls p route s1)) = location s
                  /\ entries (snd (runBeforeLoop E ls p route s1)) = entries s
                  /\ trace (snd (runBeforeLoop E ls p route s1)) = new ++ trace s
                  /\ forallb calm new = true
                  /\ forallb (fun e => negb (error_call e)) new = true).
    { intros s1 extra Hr Hl He Ht Hc Hn.
      destruct (IH s1) as (v & new & H1 & H2 & H3 & H4 & H5 & H6 & H7 & H8).
      exists v, (new ++ extra). rewrite H3, H4, H5, H6, Hr, Hl, He, Ht.
      repeat split; auto.
      - now rewrite app_assoc.
      - rewrite forallb_app, H7, Hc. reflexivity.
      - rewrite forallb_app, H8, Hn. reflexivity. }
    destruct (call E l args) as [[| |]|e].
    + exists VFalse, [Called l args]. repeat split. now left.
    + apply (Hrest _ [Called l args]); reflexivity.
    + apply (Hrest _ [Called l args]); reflexivity.
    + apply (Hrest _ [Console (ErrBeforeListener e); Called l args]); reflexivity.
Qed.

(** X24. A [beforeEnter] guard that throws refuses the navigation, as one
    that answers [false] does: [navigate] answers [false], the router
    stays on its route (with the previous route overwritten by it), the
    address and the browser history are untouched, no handler runs and no
    URL is pushed.  The error is logged; it is not reported to the error
    listeners. *)
Theorem throwing_guard_refuses_the_navigation
  (E : Env) (depth : nat) (p : pathArg) (options : NavOptions) (s : State)
  (route : Route) (guard : callback) (error : exn) :
  let r := router s in
  let np := normalizePath (config r) p in
  let s' := snd (navigate E (S depth) p options s) in
  isNavigating r = false ->
  StrMap.get (routes r) np = Some route ->
  same_route (currentRoute r) np && negb (force options) = false ->
  beforeEnter route = Some guard ->
  call E guard (GuardArgs route) = Throw error ->
  fst (navigate E (S depth) p options s) = Normal VFalse
  /\ router s' = with_previousRoute (currentRoute r) r
  /\ location s' = location s
  /\ entries s' = entries s
  /\ exists new,
       trace s' = new ++ trace s
       /\ forallb calm new = true
       /\ forallb (fun e => negb (error_call e)) new = true.
Proof.
  intros r np s' Hidle Hfound Hsame Hguard Hthrow. subst s' r.
  rewrite navigate_idle by assumption.
  set (s1 := on_router (with_isNavigating true)
               (mkState (router s) (location s) (entries s) (S (ticks s)) (trace s))).
  assert (Htry : after (navigateTry E (fun q => navigate E depth q noOptions)
                          (clock E (ticks s)) p options) s1
                   (fun v s' =>
                      v = VFalse
                      /\ router s'
                         = with_isNavigating false
                             (with_previousRoute (currentRoute (router s)) (router s))
                      /\ location s' = location s /\ entries s' = entries s
                      /\ exists new,
                           trace s' = new ++ trace s
                           /\ forallb calm new = true
                           /\ forallb (fun e => negb (error_call e)) new = true)).
  { unfold navigateTry. apply after_bind, after_this. cbv zeta.
    change (config (router s1)) with (config (router s)). fold np.
    apply after_bind, after_this.
    change (routes (router s1)) with (routes (router s)). rewrite Hfound.
    apply after_bind, after_this.
    change (currentRoute (router s1)) with (currentRoute (router s)). rewrite Hsame.
    apply after_bind, after_assign.
    set (s2 := on_router (with_previousRoute (currentRoute (router s))) s1).
    apply after_bind. unfold runBeforeListeners. apply after_bind, after_this.
    destruct (runBeforeLoop_trace E (beforeRoute (listeners (router s2))) np route s2)
      as (v & new & H1 & H2 & H3 & H4 & H5 & H6 & H7 & H8).
    destruct (runBeforeLoop E (beforeRoute (listeners (router s2))) np route s2)
      as [c s3] eqn:Hloop.
    simpl in H1, H3, H4, H5, H6. subst c.
    exists v, s3. split; [exact Hloop|].
    destruct H2 as [-> | ->]; cbn [is_false].
    - apply after_bind, after_assign, after_ret.
      split; [reflexivity|]. simpl. rewrite H3, H4, H5, H6.
      repeat split. exists new. auto.
    - rewrite Hguard. apply after_bind.
      exists VFalse,
        (emit (Console (ErrGuard error)) (emit (Called guard (GuardArgs route)) s3)).
      split.
      { unfold runGuard, try_catch, invoke. rewrite Hthrow. reflexivity. }
      cbn [is_false]. apply after_bind, after_assign, after_ret.
      split; [reflexivity|]. simpl. rewrite H3, H4, H5, H6.
      repeat split.
      exists (Console (ErrGuard error) :: Called guard (GuardArgs route) :: new).
      simpl. rewrite H7, H8. auto. }
  destruct Htry as (v & s' & Heq & -> & Hr & Hl & He & Hnew).
  unfold try_finally, try_catch. rewrite Heq. cbn [fst snd assign update].
  split; [reflexivity|]. simpl. rewrite Hr, Hl, He.
  split; [|auto].
  destruct (router s); simpl in *; subst; reflexivity.
Qed.

(** X25. [navigate(null)] and [navigate(undefined)] on a router whose
    default route is not in the table, while other routes are: the search
    for a similar route reads the length of the path and throws a
    [TypeError], which [navigate] catches.  The call answers [false], the
    router is as before, and the error is reported with the context
    [null], also for [undefined]: the error listeners are called, and no
    other callback, and "router:error" is dispatched. *)
Theorem navigate_without_path_or_default_route
  (E : Env) (depth : nat) (p : pathArg) (options : NavOptions) (s : State) :
  let r := router s in
  let s' := snd (navigate E (S depth) p options s) in
  p = PNull \/ p = PUndefined ->
  isNavigating r = false ->
  StrMap.get (routes r) (defaultRoute (config r)) = None ->
  routes r <> [] ->
  fails E (Dispatch "router:error" (ErrorData "navigation" TypeError PNull)) = None ->
  fst (navigate E (S depth) p options s) = Normal VFalse
  /\ router s' = r
  /\ exists new,
       trace s' = new ++ trace s
       /\ calls new = routeError (listeners r)
       /\ (forall f a, In (Called f a) new ->
                       a = ErrorArgs "navigation" TypeError PNull)
       /\ In (Console (ErrNavigation TypeError)) new
       /\ In (Did (Dispatch "router:error" (ErrorData "navigation" TypeError PNull)))
             new.
Proof.
  intros r s' Hp Hidle Hnone Hroutes Hok. subst s' r.
  assert (Hnull : or_null p = PNull) by (destruct Hp as [-> | ->]; reflexivity).
  rewrite navigate_idle by assumption.
  set (s1 := on_router (with_isNavigating true)
               (mkState (router s) (location s) (entries s) (S (ticks s)) (trace s))).
  assert (Htry : navigateTry E (fun q => navigate E depth q noOptions)
                   (clock E (ticks s)) p options s1
                 = (Throw TypeError,
                    emit (Console (WarnNotFoundRedirect p))
                         (emit (Console (WarnNotFound p)) s1))).
  { unfold navigateTry. rewrite bind_this. cbv zeta. rewrite bind_this.
    replace (normalizePath (config (router s1)) p)
      with (defaultRoute (config (router s))) by (destruct Hp as [-> | ->]; reflexivity).
    change (routes (router s1)) with (routes (router s)). rewrite Hnone.
    rewrite bind_console. unfold handleNotFound. rewrite bind_console.
    unfold bind at 1, findSimilarRoute. rewrite bind_this.
    change (routes (router _)) with (routes (router s)).
    destruct (routes (router s)) as [|[k v] m]; [contradiction|].
    destruct Hp as [-> | ->]; reflexivity. }
  unfold try_finally, try_catch. rewrite Htry.
  set (s2 := emit (Console (WarnNotFoundRedirect p))
                  (emit (Console (WarnNotFound p)) s1)).
  rewrite bind_console.
  rewrite <- Hnull in Hok.
  destruct (handleError_run E "navigation" TypeError p
              (emit (Console (ErrNavigation TypeError)) s2) Hok)
    as ([] & s3 & Hrun & Hr & _ & _ & new & Ht & Hc & Hall).
  rewrite Hnull in Ht, Hall.
  assert (Hcatch : (handleError E "navigation" TypeError p ;; ret VFalse)
                     (emit (Console (ErrNavigation TypeError)) s2)
                   = (Normal VFalse, s3)).
  { unfold bind. rewrite Hrun. reflexivity. }
  rewrite Hcatch. cbn [fst snd ret assign update].
  split; [reflexivity|]. split.
  - simpl. rewrite Hr. simpl. apply flag_round_trip, Hidle.
  - exists (Did (Dispatch "router:error" (ErrorData "navigation" TypeError PNull))
              :: new ++ [Console (ErrNavigation TypeError);
                         Console (WarnNotFoundRedirect p);
                         Console (WarnNotFound p)]).
    simpl. rewrite Ht. simpl. rewrite <- app_assoc. simpl.
    split; [reflexivity|]. split; [|split].
    + rewrite calls_app. simpl. exact Hc.
    + intros f a [Hin|Hin]; [discriminate Hin|].
      apply in_app_or in Hin as [Hin|Hin].
      * rewrite Forall_forall in Hall.
        destruct (Hall _ Hin) as [(f' & Hf)|(err & Herr)]; congruence.
      * simpl in Hin. destruct Hin as [H|[H|[H|[]]]]; discriminate H.
    + split; [right; apply in_or_app; right; now left|now left].
Qed.

End FailureFacts.

(** ** After the navigation, and after the router *)

Module ClosingFacts.
Import NavigationFacts ListenerFacts CompletionFacts.

Lemma runAfterLoop_run E ls p route s :
  exists s' new,
    runAfterLoop E ls p route s = (Normal tt, s')
    /\ router s' = router s
    /\ trace s' = new ++ trace s
    /\ calls new = ls
    /\ Forall (fun e =>
                 (exists f,
                    e = Called f (ListenerArgs p route (previousRoute (router s))))
                 \/ exists err, e = Console (ErrAfterListener err)) new.
Proof.
  revert s. induction ls as [|l ls IH]; intros s.
  - exists s, []. repeat split. constructor.
  - simpl. rewrite bind_this.
    set (a := ListenerArgs p route (previousRoute (router s))).
    assert (Hrest :
              forall s1 extra,
                router s1 = router s ->
                trace s1 = extra ++ trace s -> calls extra = [l] ->
                Forall (fun e => (exists f, e = Called f a)
                                 \/ exists err, e = Console (ErrAfterListener err))
                       extra ->
                exists s' new,
                  runAfterLoop E ls p route s1 = (Normal tt, s')
                  /\ router s' = router s
                  /\ trace s' = new ++ trace s
                  /\ calls new = l :: ls
                  /\ Forall (fun e => (exists f, e = Called f a)
                                      \/ exists err,
                                           e = Console (ErrAfterListener err)) new).
    { intros s1 extra Hr Ht Hc Hall.
      destruct (IH s1) as (s' & new & H1 & H2 & H3 & H4 & H5).
      exists s', (new ++ extra). rewrite H2, H3, Hr, Ht.
      repeat split; auto.
      - now rewrite app_assoc.
      - rewrite calls_app, Hc, H4. reflexivity.
      - apply Forall_app. split; [|exact Hall]. rewrite Hr in H5. exact H5. }
    unfold bind at 1, try_catch, bind at 1, invoke.
    destruct (call E l a) as [v|err].
    + apply (Hrest _ [Called l a]); try reflexivity.
      constructor; [left; now exists l|constructor].
    + apply (Hrest _ [Console (ErrAfterListener err); Called l a]); try reflexivity.
      constructor; [right; now exists err|].
      constructor; [left; now exists l|constructor].
Qed.

(** X26. The after-listeners are all called, in the order of their
    registration, each with the path, the route and the previous route; one
    that throws is logged and does not keep the others from being called,
    and nothing is thrown to the caller.  The router is left as it was. *)
Theorem after_listeners_are_all_called
  (E : Env) (p : string) (route : Route) (s : State) :
  let result := runAfterListeners E p route s in
  fst result = Normal tt
  /\ router (snd result) = router s
  /\ exists new,
       trace (snd result) = new ++ trace s
       /\ calls new = afterRoute (listeners (router s))
       /\ Forall (fun e =>
                    (exists f,
                       e = Called f (ListenerArgs p route (previousRoute (router s))))
                    \/ exists err, e = Console (ErrAfterListener err)) new.
Proof.
  cbv zeta. unfold runAfterListeners. rewrite bind_this.
  destruct (runAfterLoop_run E (afterRoute (listeners (router s))) p route s)
    as (s' & new & -> & Hr & Ht & Hc & Hall).
  split; [reflexivity|]. split; [exact Hr|]. exists new. auto.
Qed.

(** X27. After [cleanup] the table is empty, and so are the history, the
    metrics and the listeners; the current route is left as it was.  On
    an idle router every later [navigate] to a string answers [false] and
    changes nothing, and [hasRoute] answers [false] for every path. *)
Theorem cleanup_leaves_nothing_to_navigate_to
  (E : Env) (depth : nat) (x : string) (options : NavOptions) (s : State) :
  let s1 := snd (cleanup s) in
  isNavigating (router s) = false ->
  router s1
  = mkRouter [] (currentRoute (router s)) (previousRoute (router s)) false
             (config (router s)) (mkListeners [] [] []) []
             (maxHistoryLength (router s)) []
  /\ (forall p, hasRoute (router s1) p = false)
  /\ fst (navigate E (S (S depth)) (PString x) options s1) = Normal VFalse
  /\ router (snd (navigate E (S (S depth)) (PString x) options s1)) = router s1.
Proof.
  intros s1 Hidle.
  assert (Hr : router s1
               = mkRouter [] (currentRoute (router s)) (previousRoute (router s)) false
                          (config (router s)) (mkListeners [] [] []) []
                          (maxHistoryLength (router s)) []).
  { unfold s1, cleanup, bind, assign, update, console. simpl.
    destruct (router s); simpl in *; subst; reflexivity. }
  split; [exact Hr|]. split.
  - intros p. unfold hasRoute. rewrite Hr. reflexivity.
  - destruct (navigate_unregistered E depth x options s1) as (H1 & H2 & _).
    + rewrite Hr. reflexivity.
    + rewrite Hr. reflexivity.
    + split; assumption.
Qed.

End ClosingFacts.

(** ** The further properties at work *)

Module FurtherWitnesses.

Lemma benign_is_reliable : reliable Sample.benign.
Proof. intros op. reflexivity. Qed.

Lemma rough_is_reliable : reliable Scene.rough.
Proof. intros op. reflexivity. Qed.

Lemma page_is_on_the_web : web_address Sample.page.
Proof.
  split.
  - exists "h"%char, "ttps://example.org". split; [reflexivity|discriminate].
  - exists "". reflexivity.
Qed.

Lemma site_keys_differ : NoDup ["home"; "about"; "contact"].
Proof.
  repeat constructor; simpl; intuition discriminate.
Qed.

Lemma nobody_refuses_on_site (E : Env) (p : string) (route : Route) :
  beforeEnter route = None -> admitted E (router Sample.site) p route.
Proof.
  intros Hguard. split.
  - intros l [].
  - intros guard Hg. congruence.
Qed.

Lemma normalizePath_normal_form_witness :
  "  About " <> ""
  /\ toLowerCase "about" = "about"
  /\ trim "about" = "about"
  /\ ("about" <> "" -> normalizePath defaultConfig (PString "about") = "about").
Proof.
  assert (H : "  About " <> "") by discriminate.
  split; [exact H|].
  exact (NormalFormFacts.normalizePath_normal_form defaultConfig "  About " H).
Defined.

Lemma blank_path_is_not_defaulted_witness :
  only_spaces "   " = true
  /\ normalizePath defaultConfig (PString "   ") = ""
  /\ hasRoute (router Sample.site) (PString "   ") = false.
Proof.
  split; [reflexivity|].
  apply (NormalFormFacts.blank_path_is_not_defaulted (router Sample.site) "   ");
    [discriminate|reflexivity].
Defined.

Lemma addRoute_then_removeRoute_restores_witness :
  StrMap.get (routes (router Sample.site)) "skills" = None
  /\ fst (removeRoute "SKILLS"
            (snd (addRoute (PString "Skills") (Some 4) noRouteOptions Sample.site)))
     = Normal true
  /\ router (snd (removeRoute "SKILLS"
               (snd (addRoute (PString "Skills") (Some 4) noRouteOptions
                              Sample.site))))
     = router Sample.site.
Proof.
  split; [reflexivity|].
  apply (RegistryFacts.addRoute_then_removeRoute_restores
           "Skills" "SKILLS" 4 noRouteOptions Sample.site); reflexivity.
Defined.

Lemma removeRoute_removes_only_that_route_witness :
  fst (removeRoute "About" Sample.site) = Normal true
  /\ StrMap.get (routes (router (snd (removeRoute "About" Sample.site)))) "about"
     = None
  /\ StrMap.get (routes (router (snd (removeRoute "About" Sample.site)))) "contact"
     = Some Sample.contact_route.
Proof.
  destruct (RegistryFacts.removeRoute_removes_only_that_route "About" Sample.site
              site_keys_differ) as (H1 & H2 & H3 & _).
  split; [exact H1|]. split; [exact H2|].
  rewrite H3; [reflexivity|discriminate].
Defined.

Lemma hasRoute_ignores_case_and_padding_witness :
  trim (toLowerCase "  ABOUT ") = toLowerCase "About"
  /\ hasRoute (router (snd (addRoute (PString "About") (Some 2) noRouteOptions
                                     Sample.blank)))
              (PString "  ABOUT ")
     = true.
Proof.
  split; [reflexivity|].
  apply (RegistryFacts.hasRoute_ignores_case_and_padding
           "About" "  ABOUT " 2 noRouteOptions Sample.blank);
    [discriminate|reflexivity].
Defined.

Lemma removed_route_is_unreachable_witness :
  currentRoute (router Scene.at_about) = Some "about"
  /\ hasRoute (router (snd (removeRoute "About" Scene.at_about))) (PString " about")
     = false
  /\ fst (navigate Sample.benign 2 (PString " about") noOptions
                   (snd (removeRoute "About" Scene.at_about)))
     = Normal VFalse.
Proof.
  split; [reflexivity|].
  destruct (RegistryFacts.removed_route_is_unreachable
              Sample.benign 0 "About" " about" noOptions Scene.at_about
              site_keys_differ eq_refl eq_refl) as (H1 & H2 & _).
  split; assumption.
Defined.

Lemma on_then_off_restores_witness :
  known_event "beforeRoute"
  /\ snd (off "beforeRoute" 8 (snd (on "beforeRoute" (Some 8) Sample.site)))
     = Sample.site.
Proof.
  assert (H : known_event "beforeRoute") by (left; reflexivity).
  split; [exact H|].
  apply (ListenerFacts.on_then_off_restores "beforeRoute" 8 Sample.site H).
  intros [].
Defined.

Lemma before_listeners_asked_in_order_until_refusal_witness :
  beforeRoute (listeners (router Sample.guarded_site)) = [9]
  /\ fst (runBeforeListeners Sample.strict "about" Sample.about_route
                             Sample.guarded_site)
     = Normal VFalse
  /\ fst (runBeforeListeners Sample.strict "contact" Sample.contact_route
                             Sample.guarded_site)
     = Normal VTrue.
Proof.
  split; [reflexivity|]. split.
  - destruct (ListenerFacts.before_listeners_asked_in_order_until_refusal
                Sample.strict "about" Sample.about_route Sample.guarded_site)
      as (new & _ & _ & _ & Hstop).
    apply (Hstop [] 9 []); [reflexivity|intros g []|reflexivity].
  - destruct (ListenerFacts.before_listeners_asked_in_order_until_refusal
                Sample.strict "contact" Sample.contact_route Sample.guarded_site)
      as (new & _ & _ & Hpass & _).
    apply Hpass. intros l [<-|[]]. discriminate.
Defined.

Lemma navigation_goes_through_witness :
  admitted Scene.rough (router Scene.wired) "about" Sample.about_route
  /\ fst (navigate Scene.rough 1 (PString " About") noOptions Scene.wired)
     = Normal VTrue
  /\ currentRoute
       (router (snd (navigate Scene.rough 1 (PString " About") noOptions Scene.wired)))
     = Some "about".
Proof.
  assert (Hadm : admitted Scene.rough (router Scene.wired) "about" Sample.about_route).
  { split.
    - intros l _. discriminate.
    - intros guard Hg. discriminate Hg. }
  split; [exact Hadm|].
  destruct (CompletionFacts.navigation_goes_through
              Scene.rough 0 (PString " About") noOptions Scene.wired Sample.about_route
              rough_is_reliable eq_refl eq_refl eq_refl Hadm)
    as (H1 & (t & Hr) & _).
  split; [exact H1|]. rewrite Hr. reflexivity.
Defined.

Example fragment_of_a_path_with_a_space :
  Url.hashOf (Url.fragmentOf "my route") = "#my%20route".
Proof. reflexivity. Qed.

Example fragment_of_an_empty_path : Url.hashOf (Url.fragmentOf "") = "".
Proof. reflexivity. Qed.

Lemma updateURL_always_pushes_witness :
  hash (location Scene.at_about) = "#about"
  /\ trace (snd (updateURL Sample.benign "about" Scene.at_about))
     = Did (PushState "about" "/#about") :: trace Scene.at_about.
Proof.
  split; [reflexivity|].
  apply (CompletionFacts.updateURL_always_pushes Sample.benign "about" Scene.at_about);
    [exact page_is_on_the_web|reflexivity].
Defined.

Lemma address_follows_navigation_witness :
  plain "contact" = true
  /\ hash (location
             (snd (navigate Sample.benign 1 (PString "contact") noOptions Sample.site)))
     = "#contact"
  /\ snd (handleHashChange Sample.benign 1
            (snd (navigate Sample.benign 1 (PString "contact") noOptions Sample.site)))
     = snd (navigate Sample.benign 1 (PString "contact") noOptions Sample.site).
Proof.
  split; [reflexivity|].
  destruct (CompletionFacts.address_follows_navigation
              Sample.benign 0 1 (PString "contact") noOptions Sample.site
              Sample.contact_route benign_is_reliable page_is_on_the_web)
    as (_ & H); try reflexivity.
  - discriminate.
  - apply nobody_refuses_on_site. reflexivity.
  - destruct (H eq_refl) as (Hl & Hh & _).
    split; [rewrite Hl; reflexivity|exact Hh].
Defined.

Lemma back_returns_to_the_entry_before_witness :
  history (router Scene.at_about)
  = [mkEntry "home" "Home" 1; mkEntry "about" "About" 5]
  /\ fst (back Sample.benign 1 Scene.at_about) = Normal VTrue
  /\ currentRoute (router (snd (back Sample.benign 1 Scene.at_about))) = Some "home"
  /\ history (router (snd (back Sample.benign 1 Scene.at_about)))
     = [mkEntry "home" "Home" 1].
Proof.
  split; [reflexivity|].
  destruct (CompletionFacts.back_returns_to_the_entry_before
              Sample.benign 0 Scene.at_about []
              (mkEntry "home" "Home" 1) (mkEntry "about" "About" 5)
              Scene.home_route benign_is_reliable)
    as (H1 & H2 & _ & H4); try reflexivity.
  - split; [intros l []|intros guard Hg; discriminate Hg].
  - split; [exact H1|]. split; [exact H2|exact H4].
Defined.

Lemma back_in_flight_drops_an_entry_witness :
  fst (back Sample.benign 1 (on_router (with_isNavigating true) Scene.at_about))
  = Normal VFalse
  /\ history (router (snd (back Sample.benign 1
                             (on_router (with_isNavigating true) Scene.at_about))))
     = [mkEntry "home" "Home" 1]
  /\ currentRoute (router (snd (back Sample.benign 1
                                  (on_router (with_isNavigating true) Scene.at_about))))
     = Some "about".
Proof.
  destruct (CompletionFacts.back_in_flight_drops_an_entry
              Sample.benign 0 (on_router (with_isNavigating true) Scene.at_about))
    as (H1 & H2 & _).
  - reflexivity.
  - vm_compute. lia.
  - split; [exact H1|]. rewrite H2. split; reflexivity.
Defined.

Lemma hash_change_navigates_without_pushing_witness :
  hash (location Scene.at_fragment) = "#contact"
  /\ currentRoute (router (snd (handleHashChange Sample.benign 1 Scene.at_fragment)))
     = Some "contact"
  /\ entries (snd (handleHashChange Sample.benign 1 Scene.at_fragment))
     = entries Scene.at_fragment.
Proof.
  split; [reflexivity|].
  destruct (CompletionFacts.hash_change_navigates_without_pushing
              Sample.benign 0 Scene.at_fragment Sample.contact_route)
    as (_ & H).
  destruct H as (H1 & _ & _ & H4); try reflexivity.
  - discriminate.
  - exact benign_is_reliable.
  - split; [intros l []|intros guard Hg; discriminate Hg].
  - split; [exact H1|exact H4].
Defined.

Lemma pop_state_navigation_pushes_a_state_witness :
  currentRoute (router (snd (handlePopState Sample.benign 1 Scene.at_fragment)))
  = Some "contact"
  /\ exists new,
       trace (snd (handlePopState Sample.benign 1 Scene.at_fragment))
       = new ++ trace Scene.at_fragment
       /\ filter url_change new = [Did (PushState "contact" "/#contact")].
Proof.
  apply (CompletionFacts.pop_state_navigation_pushes_a_state
           Sample.benign 0 Scene.at_fragment Sample.contact_route
           benign_is_reliable page_is_on_the_web); try reflexivity.
  split; [intros l []|intros guard Hg; discriminate Hg].
Defined.

Lemma init_lands_on_the_route_of_the_address_witness :
  hash (location Sample.site) = ""
  /\ fst (init Sample.benign 1 Sample.site) = Normal tt
  /\ currentRoute (router (snd (init Sample.benign 1 Sample.site))) = Some "home".
Proof.
  split; [reflexivity|].
  destruct (CompletionFacts.init_lands_on_the_route_of_the_address
              Sample.benign 0 Sample.site Scene.home_route benign_is_reliable)
    as (H1 & H2 & _); try reflexivity.
  - apply nobody_refuses_on_site. reflexivity.
  - split; [exact H1|exact H2].
Defined.

Lemma handleError_reports_to_every_listener_witness :
  routeError (listeners (router Scene.wired)) = [11; 12]
  /\ fst (handleError Scene.rough "handler" (Raised 2) (PString "about") Scene.wired)
     = Normal tt
  /\ router (snd (handleError Scene.rough "handler" (Raised 2) (PString "about")
                              Scene.wired))
     = router Scene.wired.
Proof.
  split; [reflexivity|].
  destruct (FailureFacts.handleError_reports_to_every_listener
              Scene.rough "handler" (Raised 2) (PString "about") Scene.wired eq_refl)
    as (H1 & H2 & _).
  split; [exact H1|exact H2].
Defined.

Lemma throwing_guard_refuses_the_navigation_witness :
  call Scene.failing_guard 7 (GuardArgs Scene.admin_route) = Throw (Raised 7)
  /\ fst (navigate Scene.failing_guard 1 (PString "admin") noOptions Scene.gated)
     = Normal VFalse
  /\ currentRoute
       (router (snd (navigate Scene.failing_guard 1 (PString "admin") noOptions
                              Scene.gated)))
     = None.
Proof.
  split; [reflexivity|].
  destruct (FailureFacts.throwing_guard_refuses_the_navigation
              Scene.failing_guard 0 (PString "admin") noOptions Scene.gated
              Scene.admin_route 7 (Raised 7))
    as (H1 & H2 & _); try reflexivity.
  split; [exact H1|]. rewrite H2. reflexivity.
Defined.

Lemma navigate_without_path_or_default_route_witness :
  StrMap.keys (routes (router Scene.homeless)) = ["about"; "contact"]
  /\ fst (navigate Sample.benign 1 PUndefined noOptions Scene.homeless) = Normal VFalse
  /\ router (snd (navigate Sample.benign 1 PUndefined noOptions Scene.homeless))
     = router Scene.homeless.
Proof.
  split; [reflexivity|].
  destruct (FailureFacts.navigate_without_path_or_default_route
              Sample.benign 0 PUndefined noOptions Scene.homeless)
    as (H1 & H2 & _); try reflexivity.
  - right. reflexivity.
  - discriminate.
  - split; [exact H1|exact H2].
Defined.

Lemma cleanup_leaves_nothing_to_navigate_to_witness :
  currentRoute (router (snd (cleanup Scene.at_about))) = Some "about"
  /\ hasRoute (router (snd (cleanup Scene.at_about))) (PString "about") = false
  /\ fst (navigate Sample.benign 2 (PString "about") noOptions
                   (snd (cleanup Scene.at_about)))
     = Normal VFalse.
Proof.
  destruct (ClosingFacts.cleanup_leaves_nothing_to_navigate_to
              Sample.benign 0 "about" noOptions Scene.at_about eq_refl)
    as (Hr & Hhas & Hnav & _).
  split; [rewrite Hr; reflexivity|]. split; [apply Hhas|exact Hnav].
Defined.

End FurtherWitnesses.
